(** * Active learning loop of [baselines/jft/active_learning.py]

    A shallow embedding of the scoring functions, the selection engine
    ([select_acquisition_batch_indices]), the fine-tune loop ([finetune]),
    the evaluation step ([make_evaluation_fn]) and the controller ([main])
    of the script, with the properties of its specification stated and
    proved over the embedding.

    Conventions of the embedding.
    - Arrays are lists; the flattened ([ravel]) pool arrays [ids], [scores]
      and [masks] are lists aligned by position.  The arrays of the input
      pipeline carry the device axis first and are lists of one list per
      device; [ravel] puts the devices one after the other.
    - A float is a value of [float]: NaN, the two infinities, or a finite
      value carried as a rational.  Arithmetic on finite values is exact (no
      rounding, no signed zero); the special values follow IEEE 754.  The
      two Python divisions behind [num_repeats] are the exception: their
      rounding to binary64 is written out.
    - A Python exception is a value of [error]; a function that can raise
      returns a [result].
    - Functions of libraries the script calls ([numpy.argpartition],
      [jax.nn.softmax], [jax.random.uniform], the model, the input pipeline)
      are Section variables, with their documented contract as a
      hypothesis where a proof needs it. *)

From Stdlib Require Import ZArith QArith Qround Lia Lqa Ascii.
From Stdlib Require Reals Qreals.
From stdpp Require Import base option list sorting gmap sets strings.

(** ** Exceptions *)

Inductive error : Type :=
  | ValueError
  | IndexError
  | UnboundLocalError
  | ZeroDivisionError
  | IllegalFlagValueError
  | RuntimeError
  | TypeError
  | OverflowError.

Inductive result (A : Type) : Type :=
  | Ok (a : A)
  | Err (e : error).
Arguments Ok {A} a.
Arguments Err {A} e.

#[global] Instance result_ret : MRet result := λ A a, Ok a.
#[global] Instance result_bind : MBind result := λ A B f m,
  match m with
  | Ok a => f a
  | Err e => Err e
  end.

Definition is_ok {A} (r : result A) : bool :=
  match r with Ok _ => true | Err _ => false end.

#[global] Instance error_eq_dec : EqDecision error.
Proof. solve_decision. Defined.

#[global] Instance result_eq_dec {A} `{EqDecision A} : EqDecision (result A).
Proof. solve_decision. Defined.


(** ** Floats *)

Module Float.

Inductive float : Type :=
  | NaN
  | NInf
  | Fin (q : Q)
  | PInf.

#[global] Instance float_inhabited : Inhabited float := populate NaN.

(** [NINF_SCORE = float("-inf")] *)
Definition NINF_SCORE : float := NInf.

Definition isnan (x : float) : bool :=
  match x with NaN => true | _ => false end.

Definition is_finite (x : float) : bool :=
  match x with Fin _ => true | _ => false end.

(** Unary minus. *)
Definition fneg (x : float) : float :=
  match x with
  | NaN => NaN
  | NInf => PInf
  | Fin q => Fin (Qopp q)
  | PInf => NInf
  end.

Definition Qlt_bool (a b : Q) : bool := negb (Qle_bool b a).

(** The comparisons [<], [<=], [>], [>=], [==] of IEEE 754: every
    comparison with NaN is false. *)
Definition fltb (x y : float) : bool :=
  match x, y with
  | NaN, _ | _, NaN => false
  | _, NInf => false
  | NInf, _ => true
  | PInf, _ => false
  | Fin _, PInf => true
  | Fin a, Fin b => Qlt_bool a b
  end.

Definition fleb (x y : float) : bool :=
  match x, y with
  | NaN, _ | _, NaN => false
  | NInf, _ => true
  | _, NInf => false
  | _, PInf => true
  | PInf, _ => false
  | Fin a, Fin b => Qle_bool a b
  end.

Definition fgtb (x y : float) : bool := fltb y x.
Definition fgeb (x y : float) : bool := fleb y x.

Definition feqb (x y : float) : bool :=
  match x, y with
  | NInf, NInf | PInf, PInf => true
  | Fin a, Fin b => Qeq_bool a b
  | _, _ => false
  end.

(** Addition, subtraction and multiplication; [inf - inf] and [0 * inf]
    are NaN. *)
Definition fadd (x y : float) : float :=
  match x, y with
  | NaN, _ | _, NaN => NaN
  | NInf, PInf | PInf, NInf => NaN
  | NInf, _ | _, NInf => NInf
  | PInf, _ | _, PInf => PInf
  | Fin a, Fin b => Fin (Qplus a b)
  end.

Definition fsub (x y : float) : float := fadd x (fneg y).

Definition finf_of_sign (positive : bool) : float :=
  if positive then PInf else NInf.

Definition fmul_inf (positive : bool) (q : Q) : float :=
  if Qeq_bool q 0 then NaN
  else finf_of_sign (if Qlt_bool 0 q then positive else negb positive).

Definition fmul (x y : float) : float :=
  match x, y with
  | NaN, _ | _, NaN => NaN
  | Fin a, Fin b => Fin (Qmult a b)
  | Fin a, PInf | PInf, Fin a => fmul_inf true a
  | Fin a, NInf | NInf, Fin a => fmul_inf false a
  | PInf, PInf | NInf, NInf => PInf
  | PInf, NInf | NInf, PInf => NInf
  end.

Definition fzero : float := Fin 0.
Definition fone : float := Fin 1.

(** Division: [0 / 0] and [inf / inf] are NaN, a non-zero number over 0 is
    an infinity of its sign. *)
Definition fdiv (x y : float) : float :=
  match x, y with
  | NaN, _ | _, NaN => NaN
  | Fin a, Fin b =>
      if Qeq_bool b 0 then
        if Qeq_bool a 0 then NaN else finf_of_sign (Qlt_bool 0 a)
      else Fin (Qdiv a b)
  | Fin _, (PInf | NInf) => fzero
  | PInf, Fin b => finf_of_sign (Qle_bool 0 b)
  | NInf, Fin b => finf_of_sign (negb (Qle_bool 0 b))
  | (PInf | NInf), (PInf | NInf) => NaN
  end.

(** [jnp.sum] over the last axis: left to right from 0. *)
Definition fsum (l : list float) : float := foldl fadd fzero l.

(** The order [numpy] sorts by: the numeric order, with NaN after every
    number. *)
Definition sort_le (x y : float) : Prop :=
  match x, y with
  | _, NaN => True
  | NaN, _ => False
  | _, _ => fleb x y = true
  end.

#[global] Instance sort_le_dec x y : Decision (sort_le x y).
Proof. destruct x, y; simpl; apply _. Defined.

End Float.
Export Float.

(** ** Array primitives shared by the components *)

(** [a[i] = v] on a numpy array: an index past the end raises. *)
Definition setitem {A} (a : list A) (i : nat) (v : A) : result (list A) :=
  if decide (i < length a) then Ok (<[i := v]> a) else Err IndexError.

(** [a[idx]] with an integer index array: every index must be in range. *)
Fixpoint take_along {A} (a : list A) (idx : list nat) : result (list A) :=
  match idx with
  | [] => Ok []
  | i :: idx' =>
      match a !! i with
      | Some x => xs ← take_along a idx'; mret (x :: xs)
      | None => Err IndexError
      end
  end.

(** [jnp.where(masks, xs, NINF_SCORE)] on aligned arrays. *)
Definition where_ninf (masks : list bool) (xs : list float) : list float :=
  zip_with (λ (m : bool) x, if m then x else NINF_SCORE) masks xs.

(** [jnp.concatenate(arrays, axis=1)] on arrays with the device axis first:
    the part of each device is the concatenation of its parts in the order
    of the arrays.  No array at all raises ValueError; arrays that differ in
    the number of devices raise TypeError.  (The entries of the arrays of
    one dataset or one model have one shape, which is not compared.) *)
Definition concatenate_axis1 {A} (arrays : list (list (list A)))
  : result (list (list A)) :=
  match arrays with
  | [] => Err ValueError
  | first :: rest =>
      if decide (Forall (λ a, length a = length first) rest)
      then Ok (foldl (zip_with app) first rest)
      else Err TypeError
  end.

(** [a.ravel()], and [a.reshape(-1, C)] on an array of rows: the parts of
    the devices one after the other. *)
Definition ravel {A} (a : list (list A)) : list A := concat a.

(** The arrays agree in the number of devices. *)
Definition same_devices {A} (arrays : list (list (list A))) : Prop :=
  match arrays with
  | [] => True
  | first :: rest => Forall (λ a, length a = length first) rest
  end.

(** The part of device [d] in a sequence of arrays: its part in each array,
    in the order of the arrays. *)
Definition device_part {A} (d : nat) (arrays : list (list (list A)))
  : list A :=
  concat ((λ a, default [] (a !! d)) <$> arrays).

(** Device-major order: for each device in turn, its part in every
    array. *)
Definition device_major {A} (arrays : list (list (list A))) : list A :=
  match arrays with
  | [] => []
  | first :: _ =>
      concat ((λ d, device_part d arrays) <$> seq 0 (length first))
  end.

(** ** Selection engine *)

Section Selection.

(** [numpy.argpartition] on a one-dimensional array, for a [kth] in
    range.  numpy documents the result as a permutation of the indices in
    partitioned order: the element at position [kth] is where a sort would
    put it, nothing larger comes before it and nothing smaller after it;
    the order inside the two parts is unspecified. *)
Variable argpartition : list float → nat → list nat.

Definition partitioned (a : list float) (k : nat) (p : list nat) : Prop :=
  p ≡ₚ seq 0 (length a) ∧
  ∀ i j pi pj x y,
    i ≤ k → k ≤ j →
    p !! i = Some pi → p !! j = Some pj →
    a !! pi = Some x → a !! pj = Some y →
    sort_le x y.

Definition argpartition_contract : Prop :=
  ∀ a k, k < length a → partitioned a k (argpartition a k).

(** [np.argpartition(a, kth)]: a [kth] outside the array raises
    ValueError. *)
Definition np_argpartition (a : list float) (kth : nat)
  : result (list nat) :=
  if decide (kth < length a) then Ok (argpartition a kth)
  else Err ValueError.

(** [ids_list.index(x)]: the first position of [x]; ValueError when [x] is
    not in the list. *)
Definition list_index (ids_list : list Z) (x : Z) : result nat :=
  match list_find (λ y, y = x) ids_list with
  | Some (i, _) => Ok i
  | None => Err ValueError
  end.

(** The loop [for ignored_id in ignored_ids:
    scores[ids_list.index(ignored_id)] = NINF_SCORE]; [ignored_ids] is
    given in the order the loop visits it. *)
Fixpoint ignore_acquired (ids_list : list Z) (scores : list float)
    (ignored_ids : list Z) : result (list float) :=
  match ignored_ids with
  | [] => Ok scores
  | ignored_id :: rest =>
      i ← list_index ids_list ignored_id;
      scores' ← setitem scores i NINF_SCORE;
      ignore_acquired ids_list scores' rest
  end.

(** [f_ent.min()], [f_ent.mean()], [f_ent.max()] for the statistics line:
    [min] of an empty array raises ValueError; the values are only
    printed. *)
Definition score_statistics (f_ent : list float) : result unit :=
  match f_ent with
  | [] => Err ValueError
  | _ :: _ => Ok ()
  end.

Definition select_acquisition_batch_indices (acquisition_batch_size : nat)
    (scores : list float) (ids : list Z) (ignored_ids : list Z)
  : result (list Z * list float) :=
  scores ← ignore_acquired ids scores ignored_ids;
  let f_ent := filter (λ s, fgtb s NINF_SCORE = true) scores in
  _ ← score_statistics f_ent;
  partitioned_scorers ← np_argpartition (fneg <$> scores)
                          acquisition_batch_size;
  let top_scorers := take acquisition_batch_size partitioned_scorers in
  top_ids ← take_along ids top_scorers;
  top_scores ← take_along scores top_scorers;
  mret (top_ids, top_scores).

End Selection.

(** A reference implementation of the contract of [argpartition]: a full
    stable sort of the indices by their keys. *)
Definition key_le (a : list float) (i j : nat) : Prop :=
  sort_le (a !!! i) (a !!! j).

#[global] Instance key_le_dec a i j : Decision (key_le a i j).
Proof. unfold key_le. apply _. Defined.

Definition argsort (a : list float) : list nat :=
  merge_sort (key_le a) (seq 0 (length a)).

Definition argpartition_ref (a : list float) (kth : nat) : list nat :=
  argsort a.

(** ** Vocabulary of the selection properties *)

(** Position [i] is the one the loop over [ignored_ids] overwrites for some
    ignored id: the first position of that id in [ids]. *)
Definition suppressed (ids : list Z) (ignored_ids : list Z) (i : nat) : Prop :=
  Exists (λ g, list_index ids g = Ok i) ignored_ids.

#[global] Instance suppressed_dec ids ignored_ids i :
  Decision (suppressed ids ignored_ids i).
Proof. unfold suppressed. apply _. Defined.

(** The score array after the loop over [ignored_ids], in closed form. *)
Definition ignore_spec (ids : list Z) (ignored_ids : list Z)
    (scores : list float) : list float :=
  imap (λ i s, if decide (suppressed ids ignored_ids i) then NINF_SCORE else s)
    scores.

(** Position [i] holds a non-ignored id with a score above [-inf]. *)
Definition eligible (ids : list Z) (scores : list float)
    (ignored_ids : list Z) (i : nat) : Prop :=
  ((ids !!! i) ∉ ignored_ids) ∧ fgtb (scores !!! i) NINF_SCORE = true.

#[global] Instance eligible_dec ids scores ignored_ids i :
  Decision (eligible ids scores ignored_ids i).
Proof. unfold eligible. apply _. Defined.

(** The number of non-ignored scores strictly greater than [-inf]. *)
Definition count_eligible (ids : list Z) (scores : list float)
    (ignored_ids : list Z) : nat :=
  length (filter (eligible ids scores ignored_ids) (seq 0 (length scores))).

(** Every entry with a score above [-inf] is the first occurrence of its id
    in [ids]: ids are unique among the valid entries, and a padding entry
    that reuses an id comes after the valid entry with that id. *)
Definition valid_ids_first (ids : list Z) (scores : list float) : Prop :=
  ∀ i x s, ids !! i = Some x → scores !! i = Some s →
    fgtb s NINF_SCORE = true → list_index ids x = Ok i.

(** The score an entry competes with: [-inf] for an ignored id. *)
Definition effective_score (ignored_ids : list Z) (x : Z) (s : float) : float :=
  if decide (x ∈ ignored_ids) then NINF_SCORE else s.

(** ** Concrete inputs used in the examples *)

(** A pool of four valid entries and one padding entry that reuses id 0. *)
Definition pool_ids : list Z := [0; 1; 2; 3; 0]%Z.
Definition pool_scores : list float :=
  [Fin (3 # 10); Fin (9 # 10); Fin (1 # 2); Fin (7 # 10); NInf].

(** ** Scoring functions *)

(** [row[..., -k]] on the class axis.  [jnp] indexing adds the axis length
    to a negative index and clamps the result into the axis, so on a row
    shorter than [k] this is the first element.  (An empty class axis is not
    meaningful; the default value is returned.) *)
Definition getitem_from_end (row : list float) (k : nat) : float :=
  row !!! (length row - k).

(** [jnp.take_along_axis(probs, jnp.argsort(probs, axis=-1), axis=-1)] on one
    row: the row in ascending order, NaN last. *)
Definition sort_row (row : list float) : list float :=
  merge_sort sort_le row.

(** [a.max()] on a numpy array: NaN if any entry is NaN; positions are
    visited left to right from the first entry. *)
Definition np_max_step (acc x : float) : float :=
  if isnan acc then acc
  else if isnan x then x
  else if fltb acc x then x else acc.

Definition np_max (a : list float) : result float :=
  match a with
  | [] => Err ValueError
  | x :: a' => Ok (foldl np_max_step x a')
  end.

(** [a[mask]]: the entries of [a] at the positions where [mask] is true. *)
Definition boolean_select {A} (mask : list bool) (a : list A) : list A :=
  snd <$> filter (λ mx, mx.1 = true) (zip mask a).

(** [a[mask] = vs] followed by nothing else: position by position, the
    entries selected by [mask] are replaced by [f] of the old entry. *)
Definition boolean_update {A} (mask : list bool) (f : A → A) (a : list A)
  : list A :=
  zip_with (λ (m : bool) x, if m then f x else x) mask a.

Section Scoring.

(** [jax.nn.softmax] and [jax.nn.log_softmax] over the class axis of one
    row of logits. *)
Variables softmax log_softmax : list float → list float.

(** [jax.random.uniform(key, shape)] with a one-dimensional [shape]. *)
Variable Key : Type.
Variable random_uniform : Key → nat → list float.

Definition get_entropy_scores (logits : list (list float))
    (masks : list bool) : list float :=
  let log_probs := log_softmax <$> logits in
  let probs := softmax <$> logits in
  let weighted_nats :=
    zip_with (zip_with (λ p lp, fmul (fneg p) lp)) probs log_probs in
  let weighted_nats :=
    fmap (M := list) (fmap (M := list) (λ w, if isnan w then fzero else w))
      weighted_nats in
  let entropy := fsum <$> weighted_nats in
  let entropy := where_ninf masks entropy in
  entropy.

Definition get_margin_scores (logits : list (list float))
    (masks : list bool) : list float :=
  let probs := softmax <$> logits in
  let sorted_probs := sort_row <$> probs in
  let margins :=
    (λ row, fsub (getitem_from_end row 1) (getitem_from_end row 2))
      <$> sorted_probs in
  let margin_scores := fneg <$> margins in
  let margin_scores := where_ninf masks margin_scores in
  margin_scores.

Definition get_uniform_scores (masks : list bool) (rng : Key) : list float :=
  let uniform_scores := random_uniform rng (length masks) in
  let uniform_scores := where_ninf masks uniform_scores in
  uniform_scores.

End Scoring.

(** [get_density_scores] from the point where [scores] holds the
    log-likelihood of every pool entry under the class-conditional Gaussians
    fitted on the labeled set ([scores = np.array(jax.nn.logsumexp(-dists /
    2, axis=-1))]); what comes before is model inference and [ood_utils].
    A boolean index of another length than the array raises IndexError, and
    [max] of an empty selection raises ValueError. *)
Definition get_density_scores (scores : list float) (pool_masks : list bool)
  : result (list float) :=
  let pool_masks_bool := pool_masks in
  if decide (length pool_masks_bool = length scores) then
    top ← np_max (boolean_select pool_masks_bool scores);
    let scores := boolean_update pool_masks_bool (λ s, fsub top s) scores in
    let scores :=
      boolean_update (negb <$> pool_masks_bool) (λ _, NINF_SCORE) scores in
    mret scores
  else Err IndexError.

(** ** Vocabulary of the scoring properties *)

(** [a] is a largest entry of [l] and [b] a largest entry among the others,
    in the order the rows are sorted by. *)
Definition top_two (l : list float) (a b : float) : Prop :=
  ∃ rest, l ≡ₚ a :: b :: rest ∧ sort_le b a ∧ Forall (λ x, sort_le x b) rest.

(** ** Fine-tune loop *)

Section Finetune.

(** The optimizer state with the model parameters, the loop's random state,
    and a batch of the input pipeline. *)
Context {Opt Rng Batch : Type}.

(** [update_fn(opt_repl, lr_repl, images, labels, rngs_loop)]; of its result
    [(opt, loss, rng, measurements)] the loop keeps the first and third
    components. *)
Variable update_fn : Opt → Q → Batch → Rng → Opt * Rng.

(** [evaluation_fn(opt_repl.target, images, labels, mask)]; of its result the
    callers keep [ncorrect] and [n]. *)
Variable evaluation_fn : Opt → Batch → float * float.

(** [get_accuracy]: the correct predictions over the examples seen, summed
    over the batches of [ds]. *)
Definition get_accuracy (opt_repl : Opt) (ds : list Batch) : float :=
  let counts := evaluation_fn opt_repl <$> ds in
  let ncorrect := fsum (fst <$> counts) in
  let nseen := fsum (snd <$> counts) in
  fdiv ncorrect nseen.

(** The local variables of [finetune] that the loop reads or writes.
    [best_opt_repl] is unbound until the first assignment; [current_step] is
    0 before the first iteration. *)
Record loop_state : Type := LoopState {
  opt_repl : Opt;
  rngs_loop : Rng;
  best_opt_accuracy : float;
  best_step : nat;
  best_opt_repl : option Opt;
  train_accuracies : list (nat * float);
  val_accuracies : list (nat * float);
  current_step : nat;
}.

Record finetune_info : Type := FinetuneInfo {
  info_best_val_accuracy : float;
  info_best_step : nat;
  info_train_accuracies : list (nat * float);
  info_val_accuracies : list (nat * float);
}.

Variables (train_eval_ds val_ds : list Batch).
Variable early_stopping_patience : nat.

(** One iteration of the [for] loop; the boolean tells whether the
    iteration ended in [break]. *)
Definition loop_body (st : loop_state) (item : nat * Batch * Q)
  : loop_state * bool :=
  let step := item.1.1 in
  let train_batch := item.1.2 in
  let lr_repl := item.2 in
  let updated := update_fn (opt_repl st) lr_repl train_batch (rngs_loop st) in
  let opt := updated.1 in
  let rng := updated.2 in
  let st :=
    {| opt_repl := opt; rngs_loop := rng;
       best_opt_accuracy := best_opt_accuracy st;
       best_step := best_step st;
       best_opt_repl := best_opt_repl st;
       train_accuracies := train_accuracies st;
       val_accuracies := val_accuracies st;
       current_step := step |} in
  if decide (step `mod` 5 = 0) then
    let train_accuracy := get_accuracy opt train_eval_ds in
    let val_accuracy := get_accuracy opt val_ds in
    let train_accuracies := train_accuracies st ++ [(step, train_accuracy)] in
    let val_accuracies := val_accuracies st ++ [(step, val_accuracy)] in
    if fgeb val_accuracy (best_opt_accuracy st) then
      ({| opt_repl := opt; rngs_loop := rng;
          best_opt_accuracy := val_accuracy;
          best_step := step;
          best_opt_repl := Some opt;
          train_accuracies := train_accuracies;
          val_accuracies := val_accuracies;
          current_step := step |}, false)
    else
      ({| opt_repl := opt; rngs_loop := rng;
          best_opt_accuracy := best_opt_accuracy st;
          best_step := best_step st;
          best_opt_repl := best_opt_repl st;
          train_accuracies := train_accuracies;
          val_accuracies := val_accuracies;
          current_step := step |},
       bool_decide (early_stopping_patience ≤ step - best_step st))
  else (st, false).

Fixpoint run_loop (st : loop_state) (items : list (nat * Batch * Q))
  : loop_state :=
  match items with
  | [] => st
  | item :: items' =>
      let '(st', stop) := loop_body st item in
      if stop then st' else run_loop st' items'
  end.

(** [zip(tqdm.trange(1, total_steps + 1), iter_ds, lr_iter)], where
    [lr_iter] yields [lr_fn(0)], ..., [lr_fn(total_steps - 1)]: the loop ends
    with the shortest of the three. *)
Definition loop_items (lr_fn : nat → Q) (ds : list Batch) (total_steps : nat)
  : list (nat * Batch * Q) :=
  zip (zip (seq 1 total_steps) ds) (lr_fn <$> seq 0 total_steps).

Definition initial_state (opt : Opt) (rng : Rng) : loop_state :=
  {| opt_repl := opt; rngs_loop := rng;
     best_opt_accuracy := Fin (-1);
     best_step := 1;
     best_opt_repl := None;
     train_accuracies := [];
     val_accuracies := [];
     current_step := 0 |}.

(** The state of the local variables when the loop is left. *)
Definition finetune_loop (opt : Opt) (lr_fn : nat → Q) (ds : list Batch)
    (rng : Rng) (total_steps : nat) : loop_state :=
  run_loop (initial_state opt rng) (loop_items lr_fn ds total_steps).

(** [finetune]: reading [best_opt_repl] in the [return] raises
    UnboundLocalError when no iteration assigned it. *)
Definition finetune (opt : Opt) (lr_fn : nat → Q) (ds : list Batch)
    (rng : Rng) (total_steps : nat)
  : result (Opt * Rng * finetune_info) :=
  let st := finetune_loop opt lr_fn ds rng total_steps in
  let info :=
    {| info_best_val_accuracy := best_opt_accuracy st;
       info_best_step := best_step st;
       info_train_accuracies := train_accuracies st;
       info_val_accuracies := val_accuracies st |} in
  match best_opt_repl st with
  | Some best => Ok (best, rngs_loop st, info)
  | None => Err UnboundLocalError
  end.

(** Vocabulary of the fine-tune properties: the optimizer and random state
    after the updates of the given iterations alone. *)
Definition apply_updates (opt : Opt) (rng : Rng)
    (items : list (nat * Batch * Q)) : Opt * Rng :=
  foldl (λ acc item, update_fn acc.1 item.2 item.1.2 acc.2) (opt, rng) items.

(** An iteration that does not evaluate: its step is not a multiple of 5. *)
Definition no_evaluation (item : nat * Batch * Q) : Prop :=
  item.1.1 `mod` 5 ≠ 0.

(** The state after a run of iterations without evaluation. *)
Definition after_updates (st : loop_state) (items : list (nat * Batch * Q))
  : loop_state :=
  match last items with
  | None => st
  | Some item =>
      {| opt_repl := (apply_updates (opt_repl st) (rngs_loop st) items).1;
         rngs_loop := (apply_updates (opt_repl st) (rngs_loop st) items).2;
         best_opt_accuracy := best_opt_accuracy st;
         best_step := best_step st;
         best_opt_repl := best_opt_repl st;
         train_accuracies := train_accuracies st;
         val_accuracies := val_accuracies st;
         current_step := item.1.1 |}
  end.

End Finetune.

(** A concrete fine-tuning run for the examples: the optimizer state and the
    random state count the updates applied; every dataset has unit batches;
    out of 10 validation examples, [10 - |o - 5|] are classified correctly
    by the optimizer state [o], so the accuracy peaks after 5 updates and
    strictly decreases from there. *)
Definition demo_update_fn (o : nat) (lr : Q) (b : unit) (r : nat)
  : nat * nat :=
  (S o, S r).

Definition demo_ncorrect (o : nat) : nat :=
  10 - (if decide (o ≤ 5) then 5 - o else o - 5).

Definition demo_evaluation_fn (o : nat) (b : unit) : float * float :=
  (Fin (inject_Z (Z.of_nat (demo_ncorrect o))), Fin 10).

Definition demo_lr_fn (step : nat) : Q := 1 # 100.

Definition demo_finetune_loop (early_stopping_patience total_steps : nat)
  : loop_state :=
  finetune_loop demo_update_fn demo_evaluation_fn [()] [()]
    early_stopping_patience 0 demo_lr_fn (replicate 10 ()) 0 total_steps.

Definition demo_finetune (early_stopping_patience total_steps : nat)
  : result (nat * nat * finetune_info) :=
  finetune demo_update_fn demo_evaluation_fn [()] [()]
    early_stopping_patience 0 demo_lr_fn (replicate 10 ()) 0 total_steps.

(** ** Batch inference runner and controller *)

(** A batch of the input pipeline: [{"id", "image", "labels", "mask"}].
    The arrays carry the device axis first: ids, images and masks of shape
    [D, B], labels of shape [D, B, C]. *)
Record batch (Image : Type) : Type := Batch {
  batch_id : list (list Z);
  batch_image : list (list Image);
  batch_labels : list (list (list float));
  batch_mask : list (list bool);
}.
Arguments Batch {Image} _ _ _ _.
Arguments batch_id {Image} _.
Arguments batch_image {Image} _.
Arguments batch_labels {Image} _.
Arguments batch_mask {Image} _.

(** The configuration [main] reads.  A size field is [None] when the key is
    absent, in which case [config.get] supplies the default. *)
Record config : Type := Config {
  acquisition_method : string;
  initial_training_set_size : option nat;
  max_training_set_size : option nat;
  acquisition_batch_size : option nat;
  early_stopping_patience : option nat;
  total_steps : nat;
  batch_size : nat;
  lr_base : Q;
  seed : option nat;
}.

(** The stages of a run, in the order they are entered. *)
Inductive event : Type :=
  | EvInitialScoring
  | EvInitialSelection
  | EvFinetune (training_set_size : nat)
  | EvTestEvaluation (training_set_size : nat)
  | EvPoolInference (training_set_size : nat)
  | EvScoring (training_set_size : nat)
  | EvSelection (training_set_size : nat).

#[global] Instance event_eq_dec : EqDecision event.
Proof. solve_decision. Defined.

(** *** Python floats in the number of repeats

    The two divisions that lead to [num_repeats] are divisions of Python
    numbers and are rounded to binary64 before [math.ceil] is applied, which
    can turn a quotient that is an integer into one just above it.  Here
    the rounding is written out on non-negative rationals: to the nearest
    number with 53 significant bits, ties to the even one, with the
    exponent bounded below (gradual underflow); a result of [2^1024] or more
    does not fit. *)

(** [floor(log2 q)] for a positive [q]. *)
Definition Qlog2 (q : Q) : Z :=
  let e := (Z.log2 (Qnum q) - Z.log2 (Zpos (Qden q)))%Z in
  if Qle_bool (Qpower 2 e) q then e else (e - 1)%Z.

Definition round_half_even (q : Q) : Z :=
  let f := Qfloor q in
  match Qcompare (q - inject_Z f) (1 # 2) with
  | Lt => f
  | Eq => if Z.even f then f else (f + 1)%Z
  | Gt => (f + 1)%Z
  end.

Definition binary64 (q : Q) : Q :=
  if Qle_bool q 0 then 0
  else
    let e := Z.max (Qlog2 q - 52) (-1074) in
    inject_Z (round_half_even (q / Qpower 2 e)) * Qpower 2 e.

Definition fits_binary64 (q : Q) : bool := Qlt_bool q (Qpower 2 1024).

(** [a / b] on two Python ints: the quotient rounded once. *)
Definition int_truediv (a b : nat) : result Q :=
  if decide (b = 0) then Err ZeroDivisionError
  else
    let q := binary64 (inject_Z (Z.of_nat a) / inject_Z (Z.of_nat b)) in
    if fits_binary64 q then Ok q else Err OverflowError.

(** [a / x] on a Python int and a float: the int is converted first. *)
Definition int_float_truediv (a : nat) (x : Q) : result float :=
  let fa := binary64 (inject_Z (Z.of_nat a)) in
  if fits_binary64 fa then
    if Qeq_bool x 0 then Err ZeroDivisionError
    else
      let q := binary64 (fa / x) in
      Ok (if fits_binary64 q then Fin q else PInf)
  else Err OverflowError.

(** [math.ceil(x)]: an infinity (or NaN) cannot be converted. *)
Definition math_ceil (x : float) : result nat :=
  match x with
  | Fin q => Ok (Z.to_nat (Qceiling q))
  | PInf | NInf => Err OverflowError
  | NaN => Err ValueError
  end.

(** [number_of_batches = current_train_ds_length / config.batch_size] and
    [num_repeats = math.ceil(config.total_steps / number_of_batches)]. *)
Definition num_repeats (total_steps current_train_ds_length batch_size : nat)
  : result nat :=
  number_of_batches ← int_truediv current_train_ds_length batch_size;
  x ← int_float_truediv total_steps number_of_batches;
  math_ceil x.

(** What [main] takes from outside this file: the model, the optimizer
    update and the evaluation step, library functions, and the datasets. *)
Record collaborators (Opt Rng Key Image : Type) : Type := Collaborators {
  (** The model in inference mode on one image: its logits, or its
      pre-logits when the flag is set.  [compute_batch_outputs] applies it
      to every image of every device of a batch (under [pmap]), so that the
      outputs of a batch have the shape of its images. *)
  env_model_outputs : Opt → Image → bool → list float;
  env_update_fn : Opt → Q → batch Image → Rng → Opt * Rng;
  env_evaluation_fn : Opt → batch Image → float * float;
  env_softmax : list float → list float;
  env_log_softmax : list float → list float;
  env_random_uniform : Key → nat → list float;
  env_argpartition : list float → nat → list nat;
  (** [jax.random.PRNGKey], [jax.random.split] into two keys, and
      [flax_utils.replicate] of the loop key. *)
  env_PRNGKey : nat → Key;
  env_split : Key → Key * Key;
  env_replicate_key : Key → Rng;
  (** The first part of [get_density_scores]: the fit of the class means and
      the shared covariance on the features, labels and masks of the labeled
      set ([ood_utils.compute_mean_and_cov]), the Mahalanobis distances of
      the pool features ([ood_utils.compute_mahalanobis_distance]) and
      [logsumexp(-dists / 2)]; the arrays are taken raveled. *)
  env_density_log_likelihood :
    list (list float) → list (list float) → list bool →
    list (list float) → list float;
  (** The datasets [input_utils.get_data] builds: the fixed validation, test
      and pool splits, and the three views of the labeled subset (repeated
      for [num_epochs] epochs with training preprocessing; one epoch with
      evaluation preprocessing; one epoch keeping the ids). *)
  env_val_ds : list (batch Image);
  env_test_ds : list (batch Image);
  env_pool_train_ds : list (batch Image);
  env_repeated_train_ds_of : gset Z → nat → list (batch Image);
  env_train_eval_ds_of : gset Z → list (batch Image);
  env_feature_train_ds_of : gset Z → list (batch Image);
  (** The optimizer created from the loaded checkpoint. *)
  env_opt_cpu : Opt;
}.
Arguments Collaborators {Opt Rng Key Image}.
Arguments env_model_outputs {Opt Rng Key Image} _.
Arguments env_update_fn {Opt Rng Key Image} _.
Arguments env_evaluation_fn {Opt Rng Key Image} _.
Arguments env_softmax {Opt Rng Key Image} _.
Arguments env_log_softmax {Opt Rng Key Image} _.
Arguments env_random_uniform {Opt Rng Key Image} _.
Arguments env_argpartition {Opt Rng Key Image} _.
Arguments env_PRNGKey {Opt Rng Key Image} _.
Arguments env_split {Opt Rng Key Image} _.
Arguments env_replicate_key {Opt Rng Key Image} _.
Arguments env_density_log_likelihood {Opt Rng Key Image} _.
Arguments env_val_ds {Opt Rng Key Image} _.
Arguments env_test_ds {Opt Rng Key Image} _.
Arguments env_pool_train_ds {Opt Rng Key Image} _.
Arguments env_repeated_train_ds_of {Opt Rng Key Image} _.
Arguments env_train_eval_ds_of {Opt Rng Key Image} _.
Arguments env_feature_train_ds_of {Opt Rng Key Image} _.
Arguments env_opt_cpu {Opt Rng Key Image} _.

Section Controller.

Context {Opt Rng Key Image : Type}.
Variable env : collaborators Opt Rng Key Image.

Local Abbreviation model_outputs := (env_model_outputs env).
Local Abbreviation update_fn := (env_update_fn env).
Local Abbreviation evaluation_fn := (env_evaluation_fn env).
Local Abbreviation softmax := (env_softmax env).
Local Abbreviation log_softmax := (env_log_softmax env).
Local Abbreviation random_uniform := (env_random_uniform env).
Local Abbreviation argpartition := (env_argpartition env).
Local Abbreviation PRNGKey := (env_PRNGKey env).
Local Abbreviation split := (env_split env).
Local Abbreviation replicate_key := (env_replicate_key env).
Local Abbreviation density_log_likelihood := (env_density_log_likelihood env).
Local Abbreviation val_ds := (env_val_ds env).
Local Abbreviation test_ds := (env_test_ds env).
Local Abbreviation pool_train_ds := (env_pool_train_ds env).
Local Abbreviation repeated_train_ds_of := (env_repeated_train_ds_of env).
Local Abbreviation train_eval_ds_of := (env_train_eval_ds_of env).
Local Abbreviation feature_train_ds_of := (env_feature_train_ds_of env).
Local Abbreviation opt_cpu := (env_opt_cpu env).

(** [compute_batch_outputs(opt_repl.target, batch["image"])] *)
Definition compute_batch_outputs (opt_repl : Opt) (pre_logits : bool)
    (b : batch Image) : list (list (list float)) :=
  fmap (M := list)
    (fmap (M := list) (λ image, model_outputs opt_repl image pre_logits))
    (batch_image b).

(** [get_ids_logits_masks]: the per-batch ids, outputs, labels and masks,
    each concatenated along axis 1; the results keep the device axis. *)
Definition get_ids_logits_masks (opt_repl : Opt) (ds : list (batch Image))
    (pre_logits : bool)
  : result (list (list Z) * list (list (list float))
            * list (list (list float)) * list (list bool)) :=
  let ids := batch_id <$> ds in
  let outputs := compute_batch_outputs opt_repl pre_logits <$> ds in
  let labels := batch_labels <$> ds in
  let masks := batch_mask <$> ds in
  ids ← concatenate_axis1 ids;
  outputs ← concatenate_axis1 outputs;
  labels ← concatenate_axis1 labels;
  masks ← concatenate_axis1 masks;
  mret (ids, outputs, labels, masks).

(** The state of [main] between stages: the labeled subset
    ([train_subset_data_builder.subset_ids[config.train_split]]), the two
    random states, the recorded accuracies and sizes, and the stages
    entered so far. *)
Record controller_state : Type := ControllerState {
  subset_ids : gset Z;
  rng : Key;
  ctl_rngs_loop : Rng;
  test_accuracies : list float;
  training_sizes : list nat;
  events : list event;
}.

Definition log_event (ev : event) (st : controller_state)
  : controller_state :=
  {| subset_ids := subset_ids st; rng := rng st;
     ctl_rngs_loop := ctl_rngs_loop st;
     test_accuracies := test_accuracies st;
     training_sizes := training_sizes st;
     events := events st ++ [ev] |}.

(** How a run, or a part of it, ends: normally, or with an exception after
    the given stages were entered. *)
Inductive outcome : Type :=
  | Returned (st : controller_state)
  | Raised (entered : list event) (e : error).

Variable cfg : config.

Definition cfg_initial_training_set_size : nat :=
  default 10 (initial_training_set_size cfg).
Definition cfg_max_training_set_size : nat :=
  default 150 (max_training_set_size cfg).
Definition cfg_acquisition_batch_size : nat :=
  default 10 (acquisition_batch_size cfg).
Definition cfg_early_stopping_patience : nat :=
  default 15 (early_stopping_patience cfg).

(** The fine-tuning stage of a round on a non-empty labeled subset. *)
Definition finetune_stage (st : controller_state)
  : result (Opt * Rng) :=
  let current_train_ds_length := size (subset_ids st) in
  repeats ← num_repeats (total_steps cfg) current_train_ds_length
              (batch_size cfg);
  let repeated_train_ds := repeated_train_ds_of (subset_ids st) repeats in
  let train_eval_ds := train_eval_ds_of (subset_ids st) in
  let lr_fn := λ _ : nat, lr_base cfg in
  r ← finetune update_fn evaluation_fn train_eval_ds val_ds
         cfg_early_stopping_patience opt_cpu lr_fn repeated_train_ds
         (ctl_rngs_loop st) (total_steps cfg);
  mret (r.1.1, r.1.2).

(** The scoring stage of a round: the branch on [acquisition_method].  It
    returns the random state to continue with and the pool scores. *)
Definition scoring_stage (st : controller_state) (current_opt_repl : Opt)
    (pool_outputs : list (list float)) (pool_masks : list bool)
  : result (Key * list float) :=
  let current_train_ds_length := size (subset_ids st) in
  let method := acquisition_method cfg in
  if decide (method = "uniform") then
    let rng := (split (rng st)).1 in
    Ok (rng, get_uniform_scores Key random_uniform pool_masks rng)
  else if decide (method = "entropy") then
    Ok (rng st, get_entropy_scores softmax log_softmax pool_outputs pool_masks)
  else if decide (method = "margin") then
    Ok (rng st, get_margin_scores softmax pool_outputs pool_masks)
  else if decide (method = "density") then
    if decide (0 < current_train_ds_length) then
      let feature_train_ds := feature_train_ds_of (subset_ids st) in
      train ← get_ids_logits_masks current_opt_repl feature_train_ds true;
      let raw :=
        density_log_likelihood (ravel train.1.1.2) (ravel train.1.2)
          (ravel train.2) pool_outputs in
      pool_scores ← get_density_scores raw pool_masks;
      mret (rng st, pool_scores)
    else
      let rng := (split (rng st)).1 in
      Ok (rng, get_uniform_scores Key random_uniform pool_masks rng)
  else Err ValueError.

(** One pass through the body of [while True], after the test on the size
    of the labeled subset. *)
Definition round (st : controller_state) : outcome :=
  let current_train_ds_length := size (subset_ids st) in
  let current_opt_repl := opt_cpu in
  let finetuned :=
    if decide (0 < current_train_ds_length) then
      (log_event (EvFinetune current_train_ds_length) st, finetune_stage st)
    else (st, Ok (current_opt_repl, ctl_rngs_loop st)) in
  match finetuned with
  | (st, Err e) => Raised (events st) e
  | (st, Ok (current_opt_repl, rngs_loop)) =>
    let st := log_event (EvTestEvaluation current_train_ds_length) st in
    let test_accuracy := get_accuracy evaluation_fn current_opt_repl test_ds in
    let test_accuracies := test_accuracies st ++ [test_accuracy] in
    let training_sizes := training_sizes st ++ [current_train_ds_length] in
    let st := log_event (EvPoolInference current_train_ds_length) st in
    let pre_logits := bool_decide (acquisition_method cfg = "density") in
    match get_ids_logits_masks current_opt_repl pool_train_ds pre_logits with
    | Err e => Raised (events st) e
    | Ok (pool_ids, pool_outputs, _, pool_masks) =>
      (* The scoring functions treat every example on its own and the
         selection ravels its arguments: the arrays are carried raveled
         from here on. *)
      let pool_ids := ravel pool_ids in
      let pool_outputs := ravel pool_outputs in
      let pool_masks := ravel pool_masks in
      match scoring_stage st current_opt_repl pool_outputs pool_masks with
      | Err e => Raised (events st) e
      | Ok (rng, pool_scores) =>
        let st := log_event (EvScoring current_train_ds_length) st in
        let st := log_event (EvSelection current_train_ds_length) st in
        match select_acquisition_batch_indices argpartition
                cfg_acquisition_batch_size pool_scores pool_ids
                (elements (subset_ids st)) with
        | Err e => Raised (events st) e
        | Ok (acquisition_batch_ids, acquisition_batch_scores) =>
          Returned
            {| subset_ids := subset_ids st ∪ list_to_set acquisition_batch_ids;
               rng := rng;
               ctl_rngs_loop := rngs_loop;
               test_accuracies := test_accuracies;
               training_sizes := training_sizes;
               events := events st |}
        end
      end
    end
  end.

(** The loop [while True: ... if current_train_ds_length >=
    max_training_set_size: break ...]; [None] when the fuel runs out before
    the loop is left. *)
Fixpoint rounds (fuel : nat) (st : controller_state) : option outcome :=
  match fuel with
  | 0 => None
  | S fuel' =>
      let current_train_ds_length := size (subset_ids st) in
      if decide (cfg_max_training_set_size ≤ current_train_ds_length)
      then Some (Returned st)
      else
        match round st with
        | Returned st' => rounds fuel' st'
        | Raised entered e => Some (Raised entered e)
        end
  end.

(** The acquisition of the initial training set. *)
Definition initial_training_set (rng : Key)
  : list event * result (Key * list Z) :=
  if decide (0 < cfg_initial_training_set_size) then
    match get_ids_logits_masks opt_cpu pool_train_ds false with
    | Err e => ([], Err e)
    | Ok (pool_ids, _, _, pool_masks) =>
      let pool_ids := ravel pool_ids in
      let pool_masks := ravel pool_masks in
      let keys := split rng in
      let rng := keys.1 in
      let initial_uniform_rng := keys.2 in
      let pool_scores :=
        get_uniform_scores Key random_uniform pool_masks initial_uniform_rng in
      match select_acquisition_batch_indices argpartition
              cfg_initial_training_set_size pool_scores pool_ids [] with
      | Err e => ([EvInitialScoring; EvInitialSelection], Err e)
      | Ok (initial_training_set_batch_ids, _) =>
          ([EvInitialScoring; EvInitialSelection],
           Ok (rng, initial_training_set_batch_ids))
      end
    end
  else ([], Ok (rng, [])).

(** [main(config)], from the creation of the random state on; what comes
    before (datasets, model, checkpoint) is in the Section variables. *)
Definition main (fuel : nat) : option outcome :=
  let rng := PRNGKey (default 0 (seed cfg)) in
  let rng := (split rng).1 in
  let rng := (split rng).1 in
  match initial_training_set rng with
  | (evs, Err e) => Some (Raised evs e)
  | (evs, Ok (rng, initial_training_set_batch_ids)) =>
      let keys := split rng in
      let rng := keys.1 in
      let rngs_loop := replicate_key keys.2 in
      let rng := (split rng).1 in
      rounds fuel
        {| subset_ids := list_to_set initial_training_set_batch_ids;
           rng := rng;
           ctl_rngs_loop := rngs_loop;
           test_accuracies := [];
           training_sizes := [];
           events := evs |}
  end.

End Controller.

(** ** Command line *)

(** [flags.DEFINE_enum("acquisition_method", default="uniform",
    enum_values=[...])]: the flag parser rejects a value outside
    [enum_values]. *)
Definition acquisition_method_enum_values : list string :=
  ["uniform"; "density"; "margin"; "entropy"].

Definition parse_acquisition_method (argument : option string)
  : result string :=
  match argument with
  | None => Ok "uniform"
  | Some value =>
      if decide (value ∈ acquisition_method_enum_values) then Ok value
      else Err IllegalFlagValueError
  end.

Definition set_acquisition_method (cfg : config) (method : string) : config :=
  {| acquisition_method := method;
     initial_training_set_size := initial_training_set_size cfg;
     max_training_set_size := max_training_set_size cfg;
     acquisition_batch_size := acquisition_batch_size cfg;
     early_stopping_patience := early_stopping_patience cfg;
     total_steps := total_steps cfg;
     batch_size := batch_size cfg;
     lr_base := lr_base cfg;
     seed := seed cfg |}.

(** The integer flags, [flags.DEFINE_integer(..., default=None)]: [None]
    for a flag that is not given on the command line. *)
Record integer_flags : Type := IntegerFlags {
  flag_acquisition_batch_size : option nat;
  flag_max_training_set_size : option nat;
  flag_initial_training_set_size : option nat;
  flag_early_stopping_patience : option nat;
  flag_seed : option nat;
}.

(** The configuration [_main] hands to [main]: the configuration of the
    file with [acquisition_method] and the five integer keys set to the
    values of the flags.  A flag that was not given sets its key to Python's
    None, which is not a missing key: [config.get(key, default)] then
    returns None and not the default.  [sc_config] carries the keys of the
    file and the method; its own integer fields are overwritten by
    [sc_flags]. *)
Record script_config : Type := ScriptConfig {
  sc_config : config;
  sc_flags : integer_flags;
}.

(** The configurations of [_main] that [main] of this file describes: every
    integer flag was given, so that [main] finds each key with a number. *)
Definition config_of_script (c : script_config) : option config :=
  k ← flag_acquisition_batch_size (sc_flags c);
  m ← flag_max_training_set_size (sc_flags c);
  i ← flag_initial_training_set_size (sc_flags c);
  p ← flag_early_stopping_patience (sc_flags c);
  s ← flag_seed (sc_flags c);
  Some {| acquisition_method := acquisition_method (sc_config c);
          initial_training_set_size := Some i;
          max_training_set_size := Some m;
          acquisition_batch_size := Some k;
          early_stopping_patience := Some p;
          total_steps := total_steps (sc_config c);
          batch_size := batch_size (sc_config c);
          lr_base := lr_base (sc_config c);
          seed := Some s |}.

Section Script.

Context {Rng Key : Type}.

(** [main] with its collaborators, as a function of the configuration it is
    handed and the fuel. *)
Variable run_main : script_config → nat → option (@outcome Rng Key).

(** [app.run(_main)]: the flags are parsed first; [_main] copies them into
    the configuration, checks the device count and calls [main]. *)
Definition script_main (acquisition_method_argument : option string)
    (flags : integer_flags) (device_count : nat) (cfg : config) (fuel : nat)
  : option (@outcome Rng Key) :=
  match parse_acquisition_method acquisition_method_argument with
  | Err e => Some (Raised [] e)
  | Ok method =>
      let config :=
        {| sc_config := set_acquisition_method cfg method;
           sc_flags := flags |} in
      if decide (device_count < 8) then Some (Raised [] RuntimeError)
      else run_main config fuel
  end.

End Script.

(** ** Vocabulary of the controller properties *)

(** The raveled pool arrays of an inference pass: the ids and masks, which
    do not depend on the model, and the outputs of the model. *)
Definition pool_ids_of {Opt Rng Key Image}
    (env : collaborators Opt Rng Key Image) : list Z :=
  match concatenate_axis1 (batch_id <$> env_pool_train_ds env) with
  | Ok ids => ravel ids
  | Err _ => []
  end.

Definition pool_masks_of {Opt Rng Key Image}
    (env : collaborators Opt Rng Key Image) : list bool :=
  match concatenate_axis1 (batch_mask <$> env_pool_train_ds env) with
  | Ok masks => ravel masks
  | Err _ => []
  end.

Definition pool_outputs_of {Opt Rng Key Image}
    (env : collaborators Opt Rng Key Image) (opt : Opt) (pre_logits : bool)
  : list (list float) :=
  match concatenate_axis1
          (compute_batch_outputs env opt pre_logits
             <$> env_pool_train_ds env) with
  | Ok outputs => ravel outputs
  | Err _ => []
  end.

(** Ids and masks are aligned, and every valid entry is the first
    occurrence of its id. *)
Definition pool_well_formed (ids : list Z) (masks : list bool) : Prop :=
  length ids = length masks ∧
  ∀ i x, ids !! i = Some x → masks !! i = Some true →
         list_index ids x = Ok i.

(** The number of valid pool entries. *)
Definition count_valid (masks : list bool) : nat :=
  length (filter (λ m : bool, m = true) masks).

(** Scores aligned with the masks: no NaN, and above [-inf] exactly at the
    valid entries. *)
Definition well_scored (masks : list bool) (scores : list float) : Prop :=
  Forall2 (λ (m : bool) s,
             isnan s = false ∧ (fgtb s NINF_SCORE = true ↔ m = true))
    masks scores.

(** [jax.random.uniform] returns an array of the requested shape with
    finite values. *)
Definition uniform_contract {Key} (random_uniform : Key → nat → list float)
  : Prop :=
  ∀ key n,
    length (random_uniform key n) = n ∧
    Forall (λ s, is_finite s = true) (random_uniform key n).

(** ** A concrete set of collaborators for the examples *)

(** The exact softmax of a row whose logits are 0 or [-inf]: the mass is
    shared equally by the entries with logit 0. *)
Definition demo_softmax (row : list float) : list float :=
  let zeros := length (filter (λ x, feqb x fzero = true) row) in
  (λ x, if feqb x fzero then Fin (1 # Pos.of_nat zeros) else fzero) <$> row.

(** The exact log-softmax of a row with one logit 0 and the others [-inf]:
    the row itself. *)
Definition demo_log_softmax (row : list float) : list float := row.

(** A fixed table of finite values in [0, 1) standing for the draws. *)
Definition demo_random_uniform (key n : nat) : list float :=
  (λ i, Fin (Z.of_nat ((key * 31 + i * 17) `mod` 97) # 100)) <$> seq 0 n.

(** The images carry no information; the model answers every image with
    the same row of two logits. *)
Definition demo_model_outputs (o : nat) (image : unit) (pre_logits : bool)
  : list float :=
  [fzero; NInf].

(** A batch on several devices, and a batch on one. *)
Definition demo_device_batch (ids : list (list Z)) (mask : list (list bool))
  : batch unit :=
  {| batch_id := ids;
     batch_image := (λ device : list Z, (λ _, ()) <$> device) <$> ids;
     batch_labels :=
       (λ device : list Z, (λ _, [fone; fzero]) <$> device) <$> ids;
     batch_mask := mask |}.

Definition demo_batch (ids : list Z) (mask : list bool) : batch unit :=
  demo_device_batch [ids] [mask].

(** Two batches on two devices. *)
Definition two_device_pool : list (batch unit) :=
  [ demo_device_batch [[1; 2]; [3; 4]]%Z [[true; true]; [true; true]];
    demo_device_batch [[5; 6]; [7; 8]]%Z [[true; false]; [true; false]] ].

Definition demo_eval_batches : list (batch unit) := [demo_batch [] []].

Definition demo_env (pool : list (batch unit))
  : collaborators nat nat nat unit :=
  {| env_model_outputs := demo_model_outputs;
     env_update_fn := λ o lr b r, (S o, S r);
     env_evaluation_fn :=
       λ o b, (Fin (inject_Z (Z.of_nat (demo_ncorrect o))), Fin 10);
     env_softmax := demo_softmax;
     env_log_softmax := demo_log_softmax;
     env_random_uniform := demo_random_uniform;
     env_argpartition := argpartition_ref;
     env_PRNGKey := λ seed, seed;
     env_split := λ key, (2 * key + 1, 2 * key + 2);
     env_replicate_key := λ key, key;
     env_density_log_likelihood := λ _ _ _ pool, (λ _, fzero) <$> pool;
     env_val_ds := demo_eval_batches;
     env_test_ds := demo_eval_batches;
     env_pool_train_ds := pool;
     env_repeated_train_ds_of := λ _ _, replicate 10 (demo_batch [] []);
     env_train_eval_ds_of := λ _, demo_eval_batches;
     env_feature_train_ds_of := λ _, demo_eval_batches;
     env_opt_cpu := 0 |}.

(** A pool of 24 entries in 3 batches: ids 0 to 21 are valid, the last two
    entries are padding with id 0. *)
Definition demo_pool : list (batch unit) :=
  [demo_batch [0; 1; 2; 3; 4; 5; 6; 7]%Z (replicate 8 true);
   demo_batch [8; 9; 10; 11; 12; 13; 14; 15]%Z (replicate 8 true);
   demo_batch [16; 17; 18; 19; 20; 21; 0; 0]%Z
     (replicate 6 true ++ [false; false])].

(** A pool of 8 entries, all valid. *)
Definition small_pool : list (batch unit) :=
  [demo_batch [0; 1; 2; 3; 4; 5; 6; 7]%Z (replicate 8 true)].

Definition demo_config (method : string) (initial max_size batch : nat)
  : config :=
  {| acquisition_method := method;
     initial_training_set_size := Some initial;
     max_training_set_size := Some max_size;
     acquisition_batch_size := Some batch;
     early_stopping_patience := Some 2;
     total_steps := 10;
     batch_size := 4;
     lr_base := 1 # 100;
     seed := Some 0 |}.

(** Integer flags that are all given, as in [demo_config], and [main] with
    the concrete collaborators as [_main] calls it.  With an integer flag
    that is not given [main] reads None where it expects a number, and
    raises TypeError where it first computes with it; these runs are left
    without a described outcome. *)
Definition demo_flags : integer_flags :=
  {| flag_acquisition_batch_size := Some 5;
     flag_max_training_set_size := Some 20;
     flag_initial_training_set_size := Some 0;
     flag_early_stopping_patience := Some 2;
     flag_seed := Some 0 |}.

Definition demo_run_main (pool : list (batch unit))
    (c : script_config) (fuel : nat) : option (@outcome nat nat) :=
  cfg ← config_of_script c; main (demo_env pool) cfg fuel.

(** The state in which [main] enters the loop without an initial training
    set, for the concrete collaborators and seed 0. *)
Definition demo_initial_state : @controller_state nat nat :=
  {| subset_ids := ∅; rng := 0; ctl_rngs_loop := 0;
     test_accuracies := []; training_sizes := []; events := [] |}.

(** The sizes of the labeled subset after each of two consecutive rounds. *)
Definition sizes_after_two_rounds {Opt Rng Key Image}
    (env : collaborators Opt Rng Key Image) (cfg : config)
    (st : controller_state) : option (nat * nat) :=
  match round env cfg st with
  | Returned st1 =>
      match round env cfg st1 with
      | Returned st2 => Some (size (subset_ids st1), size (subset_ids st2))
      | Raised _ _ => None
      end
  | Raised _ _ => None
  end.

(** ** Vocabulary of the entropy properties *)

(** A finite float whose value is the rational [c]. *)
Definition has_value (c : Q) (x : float) : Prop :=
  ∃ q, x = Fin q ∧ Qeq q c.

(** One term of the entropy sum: [-p * log p], with NaN replaced by 0. *)
Definition weighted_nat (p lp : float) : float :=
  let w := fmul (fneg p) lp in
  if isnan w then fzero else w.

(** The entropy of one row, as [get_entropy_scores] computes it before the
    mask is applied. *)
Definition row_entropy (probs log_probs : list float) : float :=
  fsum (zip_with weighted_nat probs log_probs).

(** ** Vocabulary of the further selection properties *)

(** The number of scores above [-inf] once the ignored ids are suppressed:
    the length of [f_ent]. *)
Definition count_live (ids : list Z) (scores : list float)
    (ignored_ids : list Z) : nat :=
  length (filter (λ s, fgtb s NINF_SCORE = true)
            (ignore_spec ids ignored_ids scores)).

(** ** Vocabulary of the further scoring properties *)

(** A finite, non-negative value: a probability as [softmax] returns it. *)
Definition nonneg_value (p : float) : Prop :=
  ∃ q, p = Fin q ∧ Qle 0 q.

(** A log-probability as [log_softmax] returns it: [-inf] or a finite,
    non-positive value. *)
Definition nonpos_or_ninf (lp : float) : Prop :=
  lp = NInf ∨ ∃ q, lp = Fin q ∧ Qle q 0.

(** A finite non-negative value or [+inf]: what a sum of entropy terms can
    be. *)
Definition nonneg_or_pinf (x : float) : Prop :=
  x = PInf ∨ nonneg_value x.

(** ** Vocabulary of the fine-tune invariants *)

Section FinetuneVocabulary.

Context {Opt Rng Batch : Type}.
Variable update_fn : Opt → Q → Batch → Rng → Opt * Rng.
Variable evaluation_fn : Opt → Batch → float * float.
Variables (opt : Opt) (rng : Rng).
Variable items : list (nat * Batch * Q).

(** The optimizer after the updates of the first [n] iterations. *)
Definition snapshot (n : nat) : Opt :=
  (apply_updates update_fn opt rng (take n items)).1.

(** The steps among the first [n] at which the loop evaluates. *)
Definition evaluated_steps (n : nat) : list nat :=
  filter (λ s, s `mod` 5 = 0) (seq 1 n).

(** The accuracies on [ds] of the snapshots at the evaluated steps. *)
Definition recorded (ds : list Batch) (n : nat) : list (nat * float) :=
  (λ s, (s, get_accuracy evaluation_fn (snapshot s) ds))
    <$> evaluated_steps n.

(** What holds of the local variables after [n] iterations. *)
Definition loop_invariant (train_eval_ds val_ds : list Batch) (n : nat)
    (st : loop_state) : Prop :=
  current_step st = n ∧
  opt_repl st = snapshot n ∧
  rngs_loop st = (apply_updates update_fn opt rng (take n items)).2 ∧
  isnan (best_opt_accuracy st) = false ∧
  match best_opt_repl st with
  | None => best_opt_accuracy st = Fin (-1) ∧ best_step st = 1
  | Some best =>
      best_step st `mod` 5 = 0 ∧ 5 ≤ best_step st ≤ n ∧
      best = snapshot (best_step st) ∧
      best_opt_accuracy st = get_accuracy evaluation_fn best val_ds
  end ∧
  train_accuracies st = recorded train_eval_ds n ∧
  val_accuracies st = recorded val_ds n ∧
  (∀ s a, (s, a) ∈ val_accuracies st →
     fltb (best_opt_accuracy st) a = false ∧
     (best_step st < s → fgeb a (best_opt_accuracy st) = false)).

End FinetuneVocabulary.

(** The record [finetune] returns in the concrete run with patience 2 and
    10 steps. *)
Definition demo_finetune_info : finetune_info :=
  {| info_best_val_accuracy := get_accuracy demo_evaluation_fn 5 [()];
     info_best_step := 5;
     info_train_accuracies :=
       [(5, get_accuracy demo_evaluation_fn 5 [()]);
        (10, get_accuracy demo_evaluation_fn 10 [()])];
     info_val_accuracies :=
       [(5, get_accuracy demo_evaluation_fn 5 [()]);
        (10, get_accuracy demo_evaluation_fn 10 [()])] |}.

(** ** Vocabulary of the accuracy properties *)

(** The counts of one batch: finite, with [0 <= ncorrect <= n]. *)
Definition counts_in_range (counts : float * float) : Prop :=
  ∃ c n, counts = (Fin c, Fin n) ∧ Qle 0 c ∧ Qle c n.

(** ** Vocabulary of the further controller properties *)

(** What the records of a run look like between rounds: one test accuracy
    per recorded size; every recorded size is below the cap and at most the
    current size of the labeled subset; the sizes are in non-decreasing
    order; and, unless no round ran, the labeled subset exceeds the size the
    last round started from by at most [acquisition_batch_size]. *)
Definition recorded_rounds {Rng Key} (cfg : config)
    (st : @controller_state Rng Key) : Prop :=
  length (test_accuracies st) = length (training_sizes st) ∧
  Forall (λ n, n < cfg_max_training_set_size cfg) (training_sizes st) ∧
  Forall (λ n, n ≤ size (subset_ids st)) (training_sizes st) ∧
  StronglySorted le (training_sizes st) ∧
  (training_sizes st = [] ∨
   size (subset_ids st) ≤
     default 0 (last (training_sizes st)) + cfg_acquisition_batch_size cfg ∧
   is_Some (last (training_sizes st))).

(** ** Evaluation step *)

(** The body of the function [make_evaluation_fn] returns, as far as the
    counts go (the loss and the gathered metric arguments are not read by
    this file).  The function runs under [pmap]: every device gets its part
    of the batch, and [psum] adds the per-device arrays element by element.
    The arrays of one device are those of the input pipeline: logits and
    labels of shape [B, C] and a mask of shape [B]. *)

Record shard : Type := Shard {
  shard_logits : list (list float);
  shard_labels : list (list float);
  shard_mask : list float;
}.

Section Evaluation.

(** [jnp.argmax] over the class axis of one row of logits. *)
Variable argmax : list float → nat.

(** [mask *= labels.max(axis=1)]; the maximum over an empty class axis
    raises ValueError. *)
Definition ignore_zero_labels (labels : list (list float))
    (mask : list float) : result (list float) :=
  label_max ← mapM np_max labels;
  mret (zip_with fmul mask label_max).

(** [top1_idx = jnp.argmax(logits, axis=1)] and
    [jnp.take_along_axis(labels, top1_idx[:, None], axis=1)[:, 0]]: the
    label at the highest logit of each example. *)
Definition top1_correct_of (logits labels : list (list float))
  : list float :=
  zip_with (λ row_logits row_labels, row_labels !!! argmax row_logits)
    logits labels.

(** [top1_correct * mask] and [mask] on one device, before [psum]. *)
Definition device_counts (s : shard) : result (list float * list float) :=
  mask ← ignore_zero_labels (shard_labels s) (shard_mask s);
  let top1_correct := top1_correct_of (shard_logits s) (shard_labels s) in
  mret (zip_with fmul top1_correct mask, mask).

(** [jax.lax.psum(x, axis_name="batch")]: the element-wise sum of the
    per-device arrays. *)
Definition psum (xs : list (list float)) : list float :=
  match xs with
  | [] => []
  | x :: xs' => foldl (zip_with fadd) x xs'
  end.

(** [ncorrect] and [n] as [evaluation_fn] returns them on every device. *)
Definition evaluation_counts (shards : list shard)
  : result (list float * list float) :=
  per_device ← mapM device_counts shards;
  mret (psum (fst <$> per_device), psum (snd <$> per_device)).

(** What [get_accuracy] adds up for one batch: [np.sum] over
    [batch_ncorrect[0]] and over [batch_n[0]]. *)
Definition batch_totals (counts : list float * list float) : float * float :=
  (fsum counts.1, fsum counts.2).

(** *** Vocabulary of the evaluation properties *)

(** A finite value between 0 and 1. *)
Definition unit_range (x : float) : Prop :=
  ∃ q, x = Fin q ∧ Qle 0 q ∧ Qle q 1.

(** A pair of finite values [c], [m] with [0 <= c <= m]. *)
Definition count_le (c m : float) : Prop :=
  ∃ qc qm, c = Fin qc ∧ m = Fin qm ∧ Qle 0 qc ∧ Qle qc qm.

(** The arrays of a device as the pipeline and the model produce them: one
    row of logits, one row of labels and one mask entry per example; labels
    and mask entries between 0 and 1; at least one class; and the arg-max of
    a row of logits is a class index. *)
Definition shard_well_formed (s : shard) : Prop :=
  length (shard_logits s) = length (shard_mask s) ∧
  length (shard_labels s) = length (shard_mask s) ∧
  Forall unit_range (shard_mask s) ∧
  Forall (λ row, row ≠ [] ∧ Forall unit_range row) (shard_labels s) ∧
  Forall2 (λ row_logits row_labels, argmax row_logits < length row_labels)
    (shard_logits s) (shard_labels s).

End Evaluation.

(** A reference arg-max for the examples: the first position of the
    maximum. *)
Definition argmax_ref (row : list float) : nat :=
  match np_max row with
  | Ok top => default 0 (fst <$> list_find (λ x, feqb x top = true) row)
  | Err _ => 0
  end.

(** Two devices with two examples each and two classes; the second example
    of the second device has all-zero labels. *)
Definition demo_shards : list shard :=
  [ {| shard_logits := [[Fin 1; Fin 0]; [Fin 0; Fin 1]];
       shard_labels := [[Fin 1; Fin 0]; [Fin 1; Fin 0]];
       shard_mask := [Fin 1; Fin 1] |};
    {| shard_logits := [[Fin 0; Fin 1]; [Fin 1; Fin 0]];
       shard_labels := [[Fin 0; Fin 1]; [Fin 0; Fin 0]];
       shard_mask := [Fin 1; Fin 1] |} ].

(** ** Preprocessing spec of the pool *)

(** [s.split("|")]: the parts of [s] between the occurrences of the pipe
    character; there is always at least one part. *)
Fixpoint split_pipe (s : string) : list string :=
  match s with
  | EmptyString => [EmptyString]
  | String c s' =>
      if Ascii.eqb c "|"%char then EmptyString :: split_pipe s'
      else match split_pipe s' with
           | part :: parts => String c part :: parts
           | [] => [String c EmptyString]
           end
  end.

(** ["|".join(parts)] *)
Fixpoint join_pipe (parts : list string) : string :=
  match parts with
  | [] => EmptyString
  | [part] => part
  | part :: parts' => part +:+ "|" +:+ join_pipe parts'
  end.

(** [keep_id = 'keep(["image", "labels", "id"])'] *)
Definition double_quote : string :=
  String (Ascii.ascii_of_nat 34) EmptyString.

Definition keep_id : string :=
  "keep([" +:+ double_quote +:+ "image" +:+ double_quote +:+ ", "
  +:+ double_quote +:+ "labels" +:+ double_quote +:+ ", "
  +:+ double_quote +:+ "id" +:+ double_quote +:+ "])".

(** [id_pp_eval_split = config.pp_eval.split("|")] and
    [id_pp_eval = "|".join(id_pp_eval_split[:-1] + [keep_id])]. *)
Definition id_pp_eval (pp_eval : string) : string :=
  let id_pp_eval_split := split_pipe pp_eval in
  join_pipe (removelast id_pp_eval_split ++ [keep_id]).

(** A string without the pipe character. *)
Fixpoint no_pipe (s : string) : Prop :=
  match s with
  | EmptyString => True
  | String c s' => Ascii.eqb c "|"%char = false ∧ no_pipe s'
  end.

(** ** Vocabulary of the growth of the labeled subset *)

Section GrowthVocabulary.

Context {Opt Rng Key Image : Type}.
Variable env : collaborators Opt Rng Key Image.
Variable cfg : config.

(** The inference pass over the pool returns: the pool has a batch, and its
    batches and the outputs of the model agree in their shapes. *)
Definition pool_inference_returns : Prop :=
  ∀ opt pre_logits,
    is_ok (get_ids_logits_masks env opt (env_pool_train_ds env) pre_logits)
    = true.

(** Fine-tuning on a non-empty labeled subset of pool ids returns. *)
Definition finetune_returns : Prop :=
  ∀ st : @controller_state Rng Key,
    0 < size (subset_ids st) →
    subset_ids st ⊆ list_to_set (pool_ids_of env) →
    is_ok (finetune_stage env cfg st) = true.

(** On the outputs the model gives for the pool, the scoring stage returns
    scores that are not NaN and above [-inf] exactly at the valid
    entries. *)
Definition scoring_well_scored : Prop :=
  ∀ (st : @controller_state Rng Key) opt,
    ∃ rng' scores,
      scoring_stage env cfg st opt
        (pool_outputs_of env opt
           (bool_decide (acquisition_method cfg = "density")))
        (pool_masks_of env) = Ok (rng', scores) ∧
      well_scored (pool_masks_of env) scores.

Definition growth_conditions : Prop :=
  argpartition_contract (env_argpartition env) ∧
  uniform_contract (env_random_uniform env) ∧
  pool_inference_returns ∧
  pool_well_formed (pool_ids_of env) (pool_masks_of env) ∧
  finetune_returns ∧
  scoring_well_scored.

(** The softmax of a row is a distribution with finite entries and at
    least two classes, and its log-softmax has no positive entry: what the
    entropy and the margin need of the rows the model gives for the pool. *)
Definition pool_rows_scorable : Prop :=
  ∀ opt,
    length (pool_outputs_of env opt false) = length (pool_masks_of env) ∧
    Forall (λ row,
              2 ≤ length (env_softmax env row) ∧
              Forall nonneg_value (env_softmax env row) ∧
              Forall nonpos_or_ninf (env_log_softmax env row))
      (pool_outputs_of env opt false).

End GrowthVocabulary.

(** A log-softmax for the examples with a uniform row of two classes: the
    logarithm of one half, to six digits. *)
Definition demo_log_half : Q := - (693147 # 1000000).

Definition demo_log_softmax_uniform (row : list float) : list float :=
  (λ _, Fin demo_log_half) <$> row.

(** * Properties *)

Lemma bind_Ok {A B} (f : A → result B) (m : result A) (b : B) :
  m ≫= f = Ok b ↔ ∃ a, m = Ok a ∧ f a = Ok b.
Proof.
  destruct m as [a|e]; simpl.
  - split; [eauto | by intros (? & [= ->] & ?)].
  - split; [done | by intros (? & ? & ?)].
Qed.

(** ** Facts about the float order *)

Lemma Qle_bool_total (a b : Q) : Qle_bool a b = true ∨ Qle_bool b a = true.
Proof.
  rewrite !Qle_bool_iff. destruct (Qlt_le_dec a b) as [H|H]; [left|right].
  - by apply Qlt_le_weak.
  - done.
Qed.

Lemma Qle_bool_trans (a b c : Q) :
  Qle_bool a b = true → Qle_bool b c = true → Qle_bool a c = true.
Proof. rewrite !Qle_bool_iff. apply Qle_trans. Qed.

#[global] Instance sort_le_total : Total sort_le.
Proof.
  intros [| |a|] [| |b|]; simpl; auto.
  apply Qle_bool_total.
Qed.

#[global] Instance sort_le_trans : Transitive sort_le.
Proof.
  intros [| |a|] [| |b|] [| |c|]; simpl; auto; try done.
  apply Qle_bool_trans.
Qed.

Lemma sort_le_fneg (x y : float) :
  isnan x = false → isnan y = false →
  sort_le (fneg x) (fneg y) → fleb y x = true.
Proof.
  destruct x as [| |a|], y as [| |b|]; simpl; try done.
  rewrite !Qle_bool_iff. intros _ _ H. by apply Qopp_le_compat in H;
    rewrite !Qopp_involutive in H.
Qed.

Lemma sort_le_PInf (y : float) :
  isnan y = false → sort_le PInf y → y = PInf.
Proof. by destruct y. Qed.

Lemma fgtb_NInf_false (x : float) :
  isnan x = false → fgtb x NINF_SCORE = false → x = NInf.
Proof. by destruct x. Qed.

Lemma fleb_NInf (x : float) : isnan x = false → fleb NInf x = true.
Proof. by destruct x. Qed.

(** ** The reference [argpartition] meets the contract *)

#[global] Instance key_le_total a : Total (key_le a).
Proof. intros i j. apply sort_le_total. Qed.

#[global] Instance key_le_trans a : Transitive (key_le a).
Proof. intros i j k. apply sort_le_trans. Qed.

Lemma StronglySorted_lookup_le {A} (R : relation A) `{!Reflexive R}
    (l : list A) (i j : nat) (x y : A) :
  StronglySorted R l → i ≤ j → l !! i = Some x → l !! j = Some y → R x y.
Proof.
  intros Hs. revert i j. induction Hs as [|z l Hs IH Hall]; intros i j Hij Hi Hj.
  - done.
  - destruct i as [|i], j as [|j]; simpl in *; simplify_eq.
    + reflexivity.
    + rewrite Forall_forall in Hall. apply Hall.
      by eapply list_elem_of_lookup_2.
    + lia.
    + eapply IH; [|done..]. lia.
Qed.

#[global] Instance key_le_refl a : Reflexive (key_le a).
Proof. intros i. by destruct (total (key_le a) i i). Qed.

Lemma argpartition_ref_contract : argpartition_contract argpartition_ref.
Proof.
  intros a k Hk. split.
  - apply merge_sort_Permutation.
  - intros i j pi pj x y Hik Hkj Hi Hj Hx Hy.
    assert (Hs : StronglySorted (key_le a) (argsort a))
      by apply (StronglySorted_merge_sort _).
    pose proof (StronglySorted_lookup_le _ _ i j pi pj Hs) as Hle.
    unfold key_le in Hle.
    rewrite (list_lookup_total_correct _ _ _ Hx),
      (list_lookup_total_correct _ _ _ Hy) in Hle.
    apply Hle; [lia|done..].
Qed.

(** ** The loop over the ignored ids *)

Lemma list_index_Ok (ids : list Z) (x : Z) (i : nat) :
  list_index ids x = Ok i ↔
  ids !! i = Some x ∧ ∀ j, j < i → ids !! j ≠ Some x.
Proof.
  unfold list_index. destruct (list_find _ ids) as [[i' y]|] eqn:E.
  - apply list_find_Some in E as (Hi & -> & Hlt). split.
    + intros [= <-]. split; [done|]. intros j Hj Hjx. by eapply Hlt.
    + intros [Hi' Hlt']. f_equal.
      destruct (lt_eq_lt_dec i i') as [[?|?]|?]; [|done|].
      * exfalso. by eapply Hlt.
      * exfalso. by eapply Hlt'.
  - split; [done|]. intros [Hi _]. apply list_find_None in E.
    rewrite Forall_forall in E. exfalso.
    eapply E; [by eapply list_elem_of_lookup_2|done].
Qed.

Lemma list_index_elem_of (ids : list Z) (x : Z) :
  x ∈ ids → ∃ i, list_index ids x = Ok i ∧ i < length ids.
Proof.
  intros Hx. unfold list_index.
  destruct (list_find_elem_of (λ y, y = x) ids x Hx eq_refl) as [[i y] E].
  rewrite E. exists i. split; [done|].
  apply list_find_Some in E as (Hi & _). by eapply lookup_lt_Some.
Qed.

Lemma list_index_not_elem_of (ids : list Z) (x : Z) :
  x ∉ ids → list_index ids x = Err ValueError.
Proof.
  intros Hx. unfold list_index.
  destruct (list_find _ ids) as [[i y]|] eqn:E; [|done].
  apply list_find_Some in E as (Hi & -> & _).
  exfalso. apply Hx. by eapply list_elem_of_lookup_2.
Qed.

Lemma ignore_spec_length ids ignored scores :
  length (ignore_spec ids ignored scores) = length scores.
Proof. unfold ignore_spec. by rewrite length_imap. Qed.

Lemma ignore_spec_lookup ids ignored scores (i : nat) :
  ignore_spec ids ignored scores !! i =
  (λ s, if decide (suppressed ids ignored i) then NINF_SCORE else s)
    <$> scores !! i.
Proof. unfold ignore_spec. by rewrite list_lookup_imap. Qed.

Lemma ignore_acquired_spec ids ignored : ∀ scores,
  length ids ≤ length scores →
  Forall (λ g, g ∈ ids) ignored →
  ignore_acquired ids scores ignored = Ok (ignore_spec ids ignored scores).
Proof.
  induction ignored as [|g rest IH]; intros scores Hlen Hall; simpl.
  - f_equal. apply list_eq. intros i. rewrite ignore_spec_lookup.
    destruct (scores !! i); [|done]. cbn [fmap option_fmap option_map].
    rewrite decide_False; [done|]. unfold suppressed. rewrite Exists_nil. tauto.
  - apply Forall_cons in Hall as [Hg Hall].
    destruct (list_index_elem_of _ _ Hg) as (i & Hi & Hlt).
    rewrite Hi. simpl. unfold setitem.
    case_decide; [|lia]. simpl.
    rewrite IH; [|by rewrite length_insert|done].
    f_equal. apply list_eq. intros j. rewrite !ignore_spec_lookup.
    destruct (decide (i = j)) as [<-|Hne].
    + rewrite list_lookup_insert_eq; [|lia].
      destruct (scores !! i) eqn:E; [|apply lookup_ge_None in E; lia].
      simpl. f_equal.
      rewrite (decide_True (P := suppressed ids (g :: rest) i));
        [by case_decide | by apply Exists_cons_hd].
    + rewrite list_lookup_insert_ne; [|done].
      destruct (scores !! j); simpl; [|done]. f_equal.
      apply decide_ext. unfold suppressed. rewrite Exists_cons.
      split; [auto|]. intros [Hj|?]; [|done]. congruence.
Qed.

Lemma ignore_acquired_absent ids ignored : ∀ scores,
  length ids ≤ length scores →
  Exists (λ g, g ∉ ids) ignored →
  ignore_acquired ids scores ignored = Err ValueError.
Proof.
  induction ignored as [|g rest IH]; intros scores Hlen Hex; simpl.
  - by apply Exists_nil in Hex.
  - destruct (decide (g ∈ ids)) as [Hg|Hg].
    + destruct (list_index_elem_of _ _ Hg) as (i & Hi & Hlt).
      rewrite Hi. simpl. unfold setitem. case_decide; [|lia]. simpl.
      apply IH; [by rewrite length_insert|].
      apply Exists_cons in Hex as [?|?]; done.
    + by rewrite list_index_not_elem_of.
Qed.

(** ** Integer-array indexing *)

Lemma take_along_Forall2 {A} (a : list A) (idx : list nat) (xs : list A) :
  take_along a idx = Ok xs ↔ Forall2 (λ i x, a !! i = Some x) idx xs.
Proof.
  revert xs. induction idx as [|i idx IH]; intros xs; simpl.
  - split; [intros [= <-]; constructor | by intros ->%Forall2_nil_inv_l].
  - destruct (a !! i) as [x|] eqn:E.
    + rewrite bind_Ok. split.
      * intros (ys & Hys & [= <-]). constructor; [done|]. by apply IH.
      * intros (y & ys & Hy & Hys & ->)%Forall2_cons_inv_l.
        exists ys. split; [by apply IH|]. simplify_eq. done.
    + split; [done|].
      intros (y & ys & Hy & _)%Forall2_cons_inv_l. congruence.
Qed.

Lemma take_along_total {A} (a : list A) (idx : list nat) :
  Forall (λ i, i < length a) idx → ∃ xs, take_along a idx = Ok xs.
Proof.
  induction 1 as [|i idx Hi _ [xs IH]]; simpl; [by eexists|].
  destruct (lookup_lt_is_Some_2 a i Hi) as [x ->].
  rewrite IH. simpl. by eexists.
Qed.

(** ** Counting with filters *)

Lemma length_filter_mono {A} (P Q : A → Prop)
    `{!∀ x, Decision (P x), !∀ x, Decision (Q x)} (l : list A) :
  (∀ x, x ∈ l → P x → Q x) →
  length (filter P l) ≤ length (filter Q l).
Proof.
  induction l as [|x l IH]; intros HPQ; [done|].
  rewrite !filter_cons.
  assert (length (filter P l) ≤ length (filter Q l)) as Hl.
  { apply IH. intros y Hy. apply HPQ. by right. }
  destruct (decide (P x)) as [HP|HP].
  - rewrite (decide_True (P := Q x)); [simpl; lia|].
    apply HPQ; [left|done].
  - destruct (decide (Q x)); simpl; lia.
Qed.

Lemma filter_none {A} (P : A → Prop) `{!∀ x, Decision (P x)} (l : list A) :
  (∀ x, x ∈ l → ¬ P x) → filter P l = [].
Proof.
  induction l as [|x l IH]; intros HP; [done|].
  rewrite filter_cons, decide_False; [|apply HP; left].
  apply IH. intros y Hy. apply HP. by right.
Qed.

(** ** The selection engine *)

Section SelectionProofs.

Variable argpartition : list float → nat → list nat.
Hypothesis argpartition_ok : argpartition_contract argpartition.

Variables (ids : list Z) (scores : list float) (ignored : list Z).

Let scores' := ignore_spec ids ignored scores.

(** A position is live when its score is above [-inf] once the ignored ids
    are suppressed. *)
Let live (i : nat) : Prop := fgtb (scores' !!! i) NINF_SCORE = true.

Lemma suppressed_id (i : nat) :
  suppressed ids ignored i → ∃ g, g ∈ ignored ∧ ids !! i = Some g.
Proof.
  unfold suppressed. rewrite Exists_exists.
  intros (g & Hg & Hi). apply list_index_Ok in Hi as [Hi _]. eauto.
Qed.

Lemma eligible_live (i : nat) :
  i < length scores → eligible ids scores ignored i → live i.
Proof.
  intros Hi [Hid Hs]. unfold live, scores'.
  destruct (lookup_lt_is_Some_2 scores i Hi) as [s Es].
  rewrite (list_lookup_total_correct _ _ _ Es) in Hs.
  erewrite list_lookup_total_correct; [exact Hs|].
  rewrite ignore_spec_lookup, Es. simpl. rewrite decide_False; [done|].
  intros (g & Hg & Hig)%suppressed_id.
  by rewrite (list_lookup_total_correct _ _ _ Hig) in Hid.
Qed.

Lemma live_unfold (i : nat) :
  live i →
  ∃ s, scores !! i = Some s ∧ scores' !! i = Some s ∧
       fgtb s NINF_SCORE = true ∧ ¬ suppressed ids ignored i.
Proof.
  unfold live. intros Hl.
  destruct (scores' !! i) as [s'|] eqn:E.
  - rewrite (list_lookup_total_correct _ _ _ E) in Hl.
    unfold scores' in E. rewrite ignore_spec_lookup in E.
    destruct (scores !! i) as [s|]; [|done]. simpl in E.
    case_decide; simplify_eq; try done. by exists s'.
  - rewrite list_lookup_total_alt, E in Hl. done.
Qed.

Lemma scores'_no_nan :
  Forall (λ s, isnan s = false) scores →
  Forall (λ s, isnan s = false) scores'.
Proof.
  rewrite !Forall_lookup. intros Hs i s'. unfold scores'.
  rewrite ignore_spec_lookup. destruct (scores !! i) as [s|] eqn:E; [|done].
  simpl. intros [= <-]. case_decide; [done|]. by eapply Hs.
Qed.

Lemma count_eligible_live :
  count_eligible ids scores ignored ≤
  length (filter live (seq 0 (length scores))).
Proof.
  apply length_filter_mono. intros i Hi%elem_of_seq. apply eligible_live. lia.
Qed.

(** Everything [argpartition] puts before position [kth] is live, as long as
    at least [kth] positions are eligible. *)
Lemma selected_live (k : nat) (p : list nat) (j pj : nat) :
  Forall (λ s, isnan s = false) scores →
  k ≤ count_eligible ids scores ignored →
  partitioned (fneg <$> scores') k p →
  j < k → p !! j = Some pj → live pj.
Proof.
  intros Hnan Hcount [Hperm Hpart] Hjk Hj.
  destruct (decide (live pj)) as [|Hdead]; [done|exfalso].
  pose proof (scores'_no_nan Hnan) as Hnan'.
  rewrite length_fmap in Hperm.
  assert (length scores' = length scores) as Hlen
    by apply ignore_spec_length.
  assert (∀ i, i ∈ p → i < length scores) as Hrange.
  { intros i Hi. rewrite Hperm, elem_of_seq, Hlen in Hi. lia. }
  assert (∀ i, i ∈ p → ¬ live i → scores' !! i = Some NInf) as Hdead_NInf.
  { intros i Hi Hl. apply Hrange in Hi.
    destruct (lookup_lt_is_Some_2 scores' i) as [s E]; [lia|].
    unfold live in Hl. rewrite (list_lookup_total_correct _ _ _ E) in Hl.
    rewrite E. f_equal. apply fgtb_NInf_false; [|by destruct (fgtb s _)].
    rewrite Forall_lookup in Hnan'. by eapply Hnan'. }
  assert (scores' !! pj = Some NInf) as Epj.
  { apply Hdead_NInf; [by eapply list_elem_of_lookup_2|done]. }
  assert (∀ i, i ∈ drop k p → ¬ live i) as Htail.
  { intros i [m Hm]%list_elem_of_lookup_1 Hl. rewrite lookup_drop in Hm.
    destruct (live_unfold i Hl) as (s & _ & Es & Hs & _).
    assert (sort_le PInf (fneg s)) as Hle.
    { eapply (Hpart j (k + m) pj i); [lia|lia|done|done|..].
      - by rewrite list_lookup_fmap, Epj.
      - by rewrite list_lookup_fmap, Es. }
    rewrite Forall_lookup in Hnan'. specialize (Hnan' _ _ Es).
    destruct s; done. }
  assert (length (filter live p) < k) as Hfew.
  { rewrite <- (take_drop k p) at 1. rewrite filter_app, length_app.
    rewrite (filter_none live (drop k p) Htail). simpl.
    assert (length (filter live (take k p)) < length (take k p)) as Hlt.
    { apply (length_filter_lt live _ pj); [|done].
      apply list_elem_of_lookup. exists j. by rewrite lookup_take_lt. }
    rewrite length_take in Hlt. rewrite Nat.add_0_r.
    eapply Nat.lt_le_trans; [exact Hlt|]. lia. }
  pose proof count_eligible_live as Hce.
  assert (length (filter live p) =
          length (filter live (seq 0 (length scores)))) as Heq
    by (by rewrite Hperm, Hlen).
  rewrite <- Heq in Hce. lia.
Qed.

Lemma f_ent_nonempty :
  0 < count_eligible ids scores ignored →
  filter (λ s, fgtb s NINF_SCORE = true) scores' ≠ [].
Proof.
  unfold count_eligible. intros Hpos Hnil.
  destruct (filter (eligible _ _ _) _) as [|i l] eqn:E; [simpl in Hpos; lia|].
  assert (i ∈ filter (eligible ids scores ignored) (seq 0 (length scores)))
    as [Hel Hi%elem_of_seq]%list_elem_of_filter by (rewrite E; left).
  destruct (live_unfold i) as (s & _ & Es & Hs & _).
  { apply eligible_live; [lia|done]. }
  assert (s ∈ filter (λ s, fgtb s NINF_SCORE = true) scores') as Hin.
  { apply list_elem_of_filter. split; [done|]. by eapply list_elem_of_lookup_2. }
  rewrite Hnil in Hin. by apply not_elem_of_nil in Hin.
Qed.

(** The selection succeeds and returns the top [k] live entries. *)
Lemma select_spec (k : nat) :
  length ids = length scores →
  k < length scores →
  0 < count_eligible ids scores ignored →
  k ≤ count_eligible ids scores ignored →
  Forall (λ g, g ∈ ids) ignored →
  Forall (λ s, isnan s = false) scores →
  ∃ p top_ids top_scores,
    select_acquisition_batch_indices argpartition k scores ids ignored
      = Ok (top_ids, top_scores) ∧
    partitioned (fneg <$> scores') k p ∧
    Forall2 (λ i x, ids !! i = Some x) (take k p) top_ids ∧
    Forall2 (λ i t, scores' !! i = Some t) (take k p) top_scores ∧
    length (take k p) = k ∧
    ∀ j pj, take k p !! j = Some pj → live pj.
Proof.
  intros Hlen Hk Hpos Hcount Hign Hnan.
  assert (length scores' = length scores) as Hlen'
    by apply ignore_spec_length.
  set (p := argpartition (fneg <$> scores') k).
  assert (partitioned (fneg <$> scores') k p) as Hp.
  { apply argpartition_ok. rewrite length_fmap. lia. }
  assert (length p = length scores) as Hlenp.
  { destruct Hp as [-> _]. by rewrite length_seq, length_fmap. }
  assert (Forall (λ i, i < length scores) (take k p)) as Hrange.
  { apply Forall_forall. intros i Hi.
    assert (i ∈ p) as Hip.
    { apply elem_of_take in Hi as (m & Hm & _).
      by eapply list_elem_of_lookup_2. }
    destruct Hp as [Hperm _]. rewrite Hperm, elem_of_seq, length_fmap in Hip.
    lia. }
  destruct (take_along_total ids (take k p)) as [top_ids Hids].
  { by rewrite Hlen. }
  destruct (take_along_total scores' (take k p)) as [top_scores Hsc].
  { by rewrite Hlen'. }
  exists p, top_ids, top_scores. split; [|split_and!].
  - unfold select_acquisition_batch_indices.
    rewrite ignore_acquired_spec by (done || lia).
    cbn [mbind result_bind]. fold scores'.
    pose proof (f_ent_nonempty Hpos) as Hne.
    destruct (filter _ scores') as [|s0 f_ent]; [done|].
    cbn [score_statistics mbind result_bind]. unfold np_argpartition.
    rewrite decide_True by (rewrite length_fmap; lia).
    cbn [mbind result_bind]. fold p. rewrite Hids.
    cbn [mbind result_bind]. rewrite Hsc. done.
  - done.
  - by apply take_along_Forall2.
  - by apply take_along_Forall2.
  - rewrite length_take. lia.
  - intros j pj [Hj Hjk]%lookup_take_Some.
    by eapply selected_live.
Qed.

(** The selection returns [acquisition_batch_size] fresh, pairwise distinct
    ids, each with its own score, taken from the positions that
    [argpartition] puts first; shared by the properties of the selection
    engine and of the controller. *)
Lemma select_fresh_ids (acquisition_batch_size : nat) :
  length ids = length scores →
  acquisition_batch_size < length scores →
  0 < count_eligible ids scores ignored →
  acquisition_batch_size ≤ count_eligible ids scores ignored →
  Forall (λ g, g ∈ ids) ignored →
  Forall (λ s, isnan s = false) scores →
  valid_ids_first ids scores →
  ∃ p top_ids top_scores,
    select_acquisition_batch_indices argpartition acquisition_batch_size
      scores ids ignored = Ok (top_ids, top_scores) ∧
    partitioned (fneg <$> scores') acquisition_batch_size p ∧
    Forall2 (λ i x, ids !! i = Some x)
      (take acquisition_batch_size p) top_ids ∧
    Forall2 (λ i t, scores' !! i = Some t)
      (take acquisition_batch_size p) top_scores ∧
    length top_ids = acquisition_batch_size ∧
    NoDup top_ids ∧
    (∀ x, x ∈ top_ids → x ∉ ignored) ∧
    Forall2 (λ x t, ∃ i, ids !! i = Some x ∧ scores !! i = Some t)
      top_ids top_scores.
Proof.
  intros Hlen Hk Hpos Hcount Hign Hnan Hfirst.
  destruct (select_spec acquisition_batch_size Hlen Hk Hpos Hcount Hign Hnan)
    as (p & top_ids & top_scores & Hsel & [Hperm Hpart] & Hids & Hsc
        & Hlensel & Hlive).
  set (k := acquisition_batch_size) in *.
  assert (∀ j pj x, take k p !! j = Some pj → ids !! pj = Some x →
            list_index ids x = Ok pj ∧ ¬ suppressed ids ignored pj ∧
            ∃ s, scores !! pj = Some s ∧ scores' !! pj = Some s) as Hsel_first.
  { intros j pj x Hj Hx.
    destruct (live_unfold pj (Hlive _ _ Hj)) as (s & Es & Es' & Hs & Hns).
    split_and!; [by eapply Hfirst|done|by exists s]. }
  assert (NoDup p) as Hnd by (rewrite Hperm; apply NoDup_seq).
  exists p, top_ids, top_scores. split_and!; [done|done|done|done|..].
  - by rewrite <- (Forall2_length _ _ _ Hids).
  - apply NoDup_alt. intros j1 j2 x H1 H2.
    destruct (Forall2_lookup_r _ _ _ _ _ Hids H1) as (i1 & Hi1 & Hx1).
    destruct (Forall2_lookup_r _ _ _ _ _ Hids H2) as (i2 & Hi2 & Hx2).
    destruct (Hsel_first _ _ _ Hi1 Hx1) as (Hf1 & _).
    destruct (Hsel_first _ _ _ Hi2 Hx2) as (Hf2 & _).
    assert (i1 = i2) as -> by congruence.
    apply lookup_take_Some in Hi1 as [Hi1 _].
    apply lookup_take_Some in Hi2 as [Hi2 _].
    by eapply NoDup_lookup.
  - intros x [j Hj]%list_elem_of_lookup_1 Hx.
    destruct (Forall2_lookup_r _ _ _ _ _ Hids Hj) as (i & Hi & Hxi).
    destruct (Hsel_first _ _ _ Hi Hxi) as (Hf & Hns & _).
    apply Hns. unfold suppressed. apply Exists_exists. by exists x.
  - apply Forall2_same_length_lookup_2.
    + by rewrite <- (Forall2_length _ _ _ Hids), (Forall2_length _ _ _ Hsc).
    + intros j x t Hx Ht.
      destruct (Forall2_lookup_r _ _ _ _ _ Hids Hx) as (i & Hi & Hxi).
      destruct (Forall2_lookup_l _ _ _ _ _ Hsc Hi) as (t' & Ht' & Hti).
      destruct (Hsel_first _ _ _ Hi Hxi) as (_ & _ & s & Es & Es').
      exists i. split; [done|]. congruence.
Qed.

(** C1 (amended).  When [ids] and [scores] are aligned, no score is NaN, every
    entry with a score above [-inf] is the first occurrence of its id in
    [ids], every ignored id occurs in [ids], at least one and at least
    [acquisition_batch_size] entries are non-ignored with a score above
    [-inf], and [acquisition_batch_size] is strictly below the length of the
    pool arrays, the call returns; the selected ids are
    [acquisition_batch_size] many, pairwise distinct and disjoint from
    [ignored_ids]; each comes with its own score; and every entry whose id
    is not selected has an effective score ([-inf] for an ignored id, its
    score otherwise) below or equal to every selected score. *)
Theorem select_acquisition_batch_top_k (acquisition_batch_size : nat) :
  length ids = length scores →
  acquisition_batch_size < length scores →
  0 < count_eligible ids scores ignored →
  acquisition_batch_size ≤ count_eligible ids scores ignored →
  Forall (λ g, g ∈ ids) ignored →
  Forall (λ s, isnan s = false) scores →
  valid_ids_first ids scores →
  ∃ top_ids top_scores,
    select_acquisition_batch_indices argpartition acquisition_batch_size
      scores ids ignored = Ok (top_ids, top_scores) ∧
    length top_ids = acquisition_batch_size ∧
    NoDup top_ids ∧
    (∀ x, x ∈ top_ids → x ∉ ignored) ∧
    Forall2 (λ x t, ∃ i, ids !! i = Some x ∧ scores !! i = Some t)
      top_ids top_scores ∧
    (∀ i x s t,
       ids !! i = Some x → scores !! i = Some s →
       x ∉ top_ids → t ∈ top_scores →
       fleb (effective_score ignored x s) t = true).
Proof.
  intros Hlen Hk Hpos Hcount Hign Hnan Hfirst.
  destruct (select_fresh_ids acquisition_batch_size
              Hlen Hk Hpos Hcount Hign Hnan Hfirst)
    as (p & top_ids & top_scores & Hsel & [Hperm Hpart] & Hids & Hsc
        & Hlentop & Hnd & Hdisj & Hfrom).
  set (k := acquisition_batch_size) in *.
  exists top_ids, top_scores. split_and!; [done..|].
  intros i x s t Hx Hs Hnot [l Hl]%list_elem_of_lookup_1.
  destruct (Forall2_lookup_r _ _ _ _ _ Hsc Hl) as (pl & Hpl & Ht).
  apply lookup_take_Some in Hpl as [Hpl Hlk].
  assert (i ∈ p) as [m Hm]%list_elem_of_lookup_1.
  { rewrite Hperm, elem_of_seq, length_fmap.
    unfold scores'. rewrite ignore_spec_length.
    apply lookup_lt_Some in Hs. lia. }
  assert (k ≤ m) as Hkm.
  { destruct (decide (k ≤ m)) as [|Hlt]; [done|exfalso].
    assert (take k p !! m = Some i) as Hmi
      by (apply lookup_take_Some; split; [done|lia]).
    destruct (Forall2_lookup_l _ _ _ _ _ Hids Hmi) as (x' & Hx' & Hix').
    apply Hnot. assert (x' = x) as <- by congruence.
    by eapply list_elem_of_lookup_2. }
  pose proof (scores'_no_nan Hnan) as Hnan'.
  rewrite Forall_lookup in Hnan'.
  assert (isnan t = false) as Hnt by (by eapply Hnan').
  assert (∃ v, scores' !! i = Some v) as [v Ev].
  { unfold scores'. rewrite ignore_spec_lookup, Hs. by eexists. }
  assert (fleb v t = true) as Hvt.
  { apply sort_le_fneg; [done|by eapply Hnan'|].
    eapply (Hpart l m pl i); [lia|done|done|done|..].
    - by rewrite list_lookup_fmap, Ht.
    - by rewrite list_lookup_fmap, Ev. }
  unfold effective_score. unfold scores' in Ev.
  rewrite ignore_spec_lookup, Hs in Ev. simpl in Ev.
  destruct (decide (suppressed ids ignored i)) as [Hsup|Hsup].
  - destruct (suppressed_id i Hsup) as (g & Hg & Hig).
    assert (g = x) as -> by congruence.
    rewrite decide_True by done. by apply fleb_NInf.
  - case_decide; [by apply fleb_NInf|]. congruence.
Qed.

End SelectionProofs.

Lemma ignore_spec_ext ids ign1 ign2 scores :
  (∀ g, g ∈ ign1 ↔ g ∈ ign2) →
  ignore_spec ids ign1 scores = ignore_spec ids ign2 scores.
Proof.
  intros Heq. unfold ignore_spec. apply imap_ext. intros i s _.
  apply decide_ext. unfold suppressed. rewrite !Exists_exists.
  split; intros (g & Hg & Hi); exists g; (split; [by apply Heq|done]).
Qed.

(** C2 (amended).  On aligned arrays, an ignored id that does not occur in
    [ids] makes the call fail with ValueError (raised by [list.index]);
    when every ignored id occurs in [ids], the loop over [ignored_ids]
    completes, the score at the first position of each ignored id is
    [-inf] afterwards, and every other position keeps its score. *)
Theorem ignored_ids_forced_or_rejected
    (argpartition : list float → nat → list nat)
    (acquisition_batch_size : nat) (scores : list float) (ids : list Z)
    (ignored_ids : list Z) :
  length ids = length scores →
  (Exists (λ g, g ∉ ids) ignored_ids →
     select_acquisition_batch_indices argpartition acquisition_batch_size
       scores ids ignored_ids = Err ValueError) ∧
  (Forall (λ g, g ∈ ids) ignored_ids →
     ∃ scores',
       ignore_acquired ids scores ignored_ids = Ok scores' ∧
       length scores' = length scores ∧
       (∀ g, g ∈ ignored_ids →
          ∃ i, list_index ids g = Ok i ∧ scores' !! i = Some NINF_SCORE) ∧
       (∀ i, ¬ suppressed ids ignored_ids i → scores' !! i = scores !! i)).
Proof.
  intros Hlen. split.
  - intros Hex. unfold select_acquisition_batch_indices.
    by rewrite ignore_acquired_absent by (done || lia).
  - intros Hall. exists (ignore_spec ids ignored_ids scores). split_and!.
    + apply ignore_acquired_spec; [lia|done].
    + apply ignore_spec_length.
    + intros g Hg. rewrite Forall_forall in Hall.
      destruct (list_index_elem_of ids g (Hall _ Hg)) as (i & Hi & Hlt).
      exists i. split; [done|]. rewrite ignore_spec_lookup.
      destruct (lookup_lt_is_Some_2 scores i) as [s ->]; [lia|]. simpl.
      rewrite decide_True; [done|]. apply Exists_exists. by exists g.
    + intros i Hi. rewrite ignore_spec_lookup.
      destruct (scores !! i); simpl; [|done]. by rewrite decide_False.
Qed.

(** C9.  The selection is a function of its arguments, [numpy.argpartition]
    included, and on aligned arrays its outcome does not depend on the
    order in which the set [ignored_ids] is visited: two calls with the
    same batch size, scores and ids, and ignored ids with the same
    elements, return the same ids and the same scores (or fail alike). *)
Theorem select_deterministic
    (argpartition : list float → nat → list nat)
    (acquisition_batch_size : nat) (scores : list float) (ids : list Z)
    (ignored_ids1 ignored_ids2 : list Z) :
  length ids = length scores →
  (∀ g, g ∈ ignored_ids1 ↔ g ∈ ignored_ids2) →
  select_acquisition_batch_indices argpartition acquisition_batch_size
    scores ids ignored_ids1 =
  select_acquisition_batch_indices argpartition acquisition_batch_size
    scores ids ignored_ids2.
Proof.
  intros Hlen Heq. unfold select_acquisition_batch_indices.
  destruct (decide (Forall (λ g, g ∈ ids) ignored_ids1)) as [H1|H1].
  - assert (Forall (λ g, g ∈ ids) ignored_ids2) as H2.
    { rewrite Forall_forall in H1 |- *. intros g Hg. by apply H1, Heq. }
    rewrite !ignore_acquired_spec by (done || lia).
    by rewrite (ignore_spec_ext ids _ _ scores Heq).
  - apply not_Forall_Exists in H1; [|apply _].
    assert (Exists (λ g, g ∉ ids) ignored_ids2) as H2.
    { rewrite Exists_exists in H1 |- *. destruct H1 as (g & Hg & Hn).
      exists g. split; [by apply Heq|done]. }
    by rewrite !ignore_acquired_absent by (done || lia).
Qed.

(** *** Concrete runs of the selection engine *)


Lemma pool_valid_ids_first : valid_ids_first pool_ids pool_scores.
Proof.
  intros i x s Hx Hs Hgt.
  do 5 (destruct i as [|i]; [simplify_eq/=; try done|]).
  done.
Qed.

Lemma select_acquisition_batch_top_k_witness :
  ∃ top_ids top_scores,
    select_acquisition_batch_indices argpartition_ref 2
      pool_scores pool_ids [1%Z] = Ok (top_ids, top_scores) ∧
    length top_ids = 2 ∧
    NoDup top_ids ∧
    (∀ x, x ∈ top_ids → x ∉ [1%Z]) ∧
    Forall2 (λ x t, ∃ i, pool_ids !! i = Some x ∧ pool_scores !! i = Some t)
      top_ids top_scores ∧
    (∀ i x s t,
       pool_ids !! i = Some x → pool_scores !! i = Some s →
       x ∉ top_ids → t ∈ top_scores →
       fleb (effective_score [1%Z] x s) t = true).
Proof.
  apply (select_acquisition_batch_top_k argpartition_ref
           argpartition_ref_contract pool_ids pool_scores [1%Z] 2).
  - reflexivity.
  - simpl. lia.
  - vm_compute. lia.
  - vm_compute. lia.
  - repeat constructor.
  - repeat constructor.
  - exact pool_valid_ids_first.
Defined.

Example select_pool_run :
  select_acquisition_batch_indices argpartition_ref 2
    pool_scores pool_ids [1%Z] = Ok ([3; 2]%Z, [Fin (7 # 10); Fin (1 # 2)]).
Proof. vm_compute. reflexivity. Qed.

(** C1 as stated fails at four kinds of input that meet its preconditions:
    (a) a batch size equal to the pool length, where [np.argpartition]
    rejects [kth]; (b) a padding entry that reuses an ignored id and comes
    before the valid entry with that id, where the loop over the ignored ids
    suppresses the padding entry and the ignored id is selected again; (c) a
    batch size of 0 on a pool without any score above [-inf], where the
    statistics line fails; (d) a NaN score, which is not selected and does
    not compare below the selected score. *)
Lemma select_top_k_counterexample :
  (count_eligible [7%Z] [Fin 1] [] = 1 ∧
   select_acquisition_batch_indices argpartition_ref 1 [Fin 1] [7%Z] []
     = Err ValueError) ∧
  (count_eligible [0; 0; 1]%Z [NInf; Fin 1; Fin (1 # 2)] [0%Z] = 1 ∧
   select_acquisition_batch_indices argpartition_ref 1
     [NInf; Fin 1; Fin (1 # 2)] [0; 0; 1]%Z [0%Z] = Ok ([0%Z], [Fin 1])) ∧
  (count_eligible [0%Z] [NInf] [] = 0 ∧
   select_acquisition_batch_indices argpartition_ref 0 [NInf] [0%Z] []
     = Err ValueError) ∧
  (count_eligible [0; 1; 2]%Z [NaN; Fin 1; Fin 2] [] = 2 ∧
   select_acquisition_batch_indices argpartition_ref 1
     [NaN; Fin 1; Fin 2] [0; 1; 2]%Z [] = Ok ([2%Z], [Fin 2]) ∧
   fleb NaN (Fin 2) = false).
Proof. vm_compute. repeat split. Qed.

(** The outcome of (b) does not depend on the implementation of
    [argpartition]: the contract alone puts position 1 first. *)
Lemma select_ignored_duplicate_any_argpartition
    (argpartition : list float → nat → list nat) :
  argpartition_contract argpartition →
  select_acquisition_batch_indices argpartition 1
    [NInf; Fin 1; Fin (1 # 2)] [0; 0; 1]%Z [0%Z] = Ok ([0%Z], [Fin 1]).
Proof.
  intros Hc.
  destruct (Hc [PInf; Fin (-(1)); Fin (-(1 # 2))] 1) as [Hperm Hpart];
    [simpl; lia|].
  unfold select_acquisition_batch_indices. simpl.
  unfold np_argpartition. simpl.
  set (p := argpartition _ 1) in *. clearbody p.
  assert (length p = 3) as Hlen by (by rewrite Hperm).
  destruct p as [|p0 [|p1 [|p2 [|]]]]; simplify_eq/=.
  assert (bool_decide (NoDup [p0; p1; p2]) = true) as Hnd.
  { apply bool_decide_eq_true. rewrite Hperm. apply (NoDup_seq 0 3). }
  assert (bool_decide (Forall (λ i, i < 3) [p0; p1; p2]) = true) as Hlt.
  { apply bool_decide_eq_true. rewrite Hperm. by repeat constructor. }
  pose proof (λ x y, Hpart 0 1 p0 p1 x y (le_S _ _ (le_n 0)) (le_n 1)
                       eq_refl eq_refl) as H01.
  pose proof (λ x y, Hpart 1 2 p1 p2 x y (le_n 1) (le_S _ _ (le_n 1))
                       eq_refl eq_refl) as H12.
  clear Hperm Hpart Hc.
  destruct p0 as [|[|[|p0]]]; [| | |done];
    destruct p1 as [|[|[|p1]]]; try done;
    destruct p2 as [|[|[|p2]]]; try done;
    try (by specialize (H01 _ _ eq_refl eq_refl));
    try (by specialize (H12 _ _ eq_refl eq_refl)).
Qed.

(** C2 as stated fails: an ignored id that is not in [ids] is not skipped,
    the call raises ValueError; without that id the same call returns. *)
Lemma absent_ignored_id_counterexample :
  select_acquisition_batch_indices argpartition_ref 1
    [Fin 1; Fin 2] [0; 1]%Z [7%Z] = Err ValueError ∧
  select_acquisition_batch_indices argpartition_ref 1
    [Fin 1; Fin 2] [0; 1]%Z [] = Ok ([1%Z], [Fin 2]).
Proof. vm_compute. by split. Qed.

Lemma ignored_ids_forced_or_rejected_witness :
  select_acquisition_batch_indices argpartition_ref 2
    pool_scores pool_ids [1; 7]%Z = Err ValueError ∧
  ∃ scores',
    ignore_acquired pool_ids pool_scores [1; 0]%Z = Ok scores' ∧
    length scores' = length pool_scores ∧
    (∀ g, g ∈ [1; 0]%Z →
       ∃ i, list_index pool_ids g = Ok i ∧ scores' !! i = Some NINF_SCORE) ∧
    (∀ i, ¬ suppressed pool_ids [1; 0]%Z i →
       scores' !! i = pool_scores !! i).
Proof.
  split.
  - apply (ignored_ids_forced_or_rejected argpartition_ref 2
             pool_scores pool_ids [1; 7]%Z eq_refl).
    apply Exists_cons_tl, Exists_cons_hd. unfold pool_ids.
    rewrite !not_elem_of_cons. repeat split; try done. apply not_elem_of_nil.
  - apply (ignored_ids_forced_or_rejected argpartition_ref 2
             pool_scores pool_ids [1; 0]%Z eq_refl).
    repeat constructor.
Defined.

Lemma select_deterministic_witness :
  select_acquisition_batch_indices argpartition_ref 2
    pool_scores pool_ids [1; 3]%Z =
  select_acquisition_batch_indices argpartition_ref 2
    pool_scores pool_ids [3; 1; 3]%Z.
Proof.
  apply (select_deterministic argpartition_ref 2 pool_scores pool_ids
           [1; 3]%Z [3; 1; 3]%Z).
  - reflexivity.
  - intros g. rewrite !elem_of_cons, !elem_of_nil. tauto.
Defined.

(** ** Scoring functions *)

Lemma where_ninf_lookup (masks : list bool) (xs : list float) (i : nat)
    (m : bool) (x : float) :
  masks !! i = Some m → xs !! i = Some x →
  where_ninf masks xs !! i = Some (if m then x else NINF_SCORE).
Proof.
  intros Hm Hx. unfold where_ninf. by rewrite lookup_zip_with, Hm, Hx.
Qed.

Lemma where_ninf_masked (masks : list bool) (xs : list float) (i : nat)
    (s : float) :
  masks !! i = Some false → where_ninf masks xs !! i = Some s →
  s = NINF_SCORE.
Proof.
  unfold where_ninf. rewrite lookup_zip_with. intros ->. simpl.
  destruct (xs !! i); simpl; congruence.
Qed.

Lemma boolean_update_lookup {A} (mask : list bool) (f : A → A)
    (a : list A) (i : nat) :
  boolean_update mask f a !! i =
  m ← mask !! i; x ← a !! i; Some (if m : bool then f x else x).
Proof. unfold boolean_update. by rewrite lookup_zip_with. Qed.

Section ScoringProofs.

Variables softmax log_softmax : list float → list float.
Variable Key : Type.
Variable random_uniform : Key → nat → list float.

(** C5.  In the array returned by each of the four scoring functions, every
    entry whose mask is false is [-inf]. *)
Theorem scores_masked_ninf :
  (∀ logits masks i s,
     masks !! i = Some false →
     get_entropy_scores softmax log_softmax logits masks !! i = Some s →
     s = NINF_SCORE) ∧
  (∀ logits masks i s,
     masks !! i = Some false →
     get_margin_scores softmax logits masks !! i = Some s →
     s = NINF_SCORE) ∧
  (∀ masks rng i s,
     masks !! i = Some false →
     get_uniform_scores Key random_uniform masks rng !! i = Some s →
     s = NINF_SCORE) ∧
  (∀ raw masks scores i s,
     get_density_scores raw masks = Ok scores →
     masks !! i = Some false →
     scores !! i = Some s →
     s = NINF_SCORE).
Proof.
  split_and!.
  - intros logits masks i s Hm. by apply where_ninf_masked.
  - intros logits masks i s Hm. by apply where_ninf_masked.
  - intros masks rng i s Hm. by apply where_ninf_masked.
  - intros raw masks scores i s Hd Hm Hs. unfold get_density_scores in Hd.
    case_decide; [|done].
    apply bind_Ok in Hd as (top & _ & [= <-]).
    rewrite boolean_update_lookup, list_lookup_fmap, Hm in Hs. simpl in Hs.
    destruct (boolean_update _ _ _ !! i); simpl in Hs; congruence.
Qed.

End ScoringProofs.

(** *** Margin *)

Lemma sorted_last_two (s : list float) :
  2 ≤ length s →
  ∃ s0, s = s0 ++ [getitem_from_end s 2; getitem_from_end s 1].
Proof.
  intros Hn. exists (take (length s - 2) s).
  rewrite <- (take_drop (length s - 2) s) at 1. f_equal.
  assert (length (drop (length s - 2) s) = 2) as Hd
    by (rewrite length_drop; lia).
  destruct (drop (length s - 2) s) as [|b [|a [|]]] eqn:E; simplify_eq/=.
  unfold getitem_from_end.
  rewrite <- (take_drop (length s - 2) s) at 2 4. rewrite E.
  assert (length (take (length s - 2) s) = length s - 2) as Ht
    by (rewrite length_take; lia).
  rewrite !lookup_total_app_r by lia. rewrite Ht.
  replace (length s - 2 - (length s - 2)) with 0 by lia.
  replace (length s - 1 - (length s - 2)) with 1 by lia.
  done.
Qed.

Lemma sort_row_top_two (row : list float) :
  2 ≤ length row →
  top_two row (getitem_from_end (sort_row row) 1)
    (getitem_from_end (sort_row row) 2).
Proof.
  intros Hn.
  assert (sort_row row ≡ₚ row) as Hperm by apply merge_sort_Permutation.
  assert (StronglySorted sort_le (sort_row row)) as Hs
    by apply (StronglySorted_merge_sort _).
  destruct (sorted_last_two (sort_row row)) as [s0 E].
  { by rewrite Hperm. }
  set (a := getitem_from_end (sort_row row) 1) in *.
  set (b := getitem_from_end (sort_row row) 2) in *.
  rewrite E in Hs, Hperm. exists s0. split_and!.
  - rewrite <- Hperm. rewrite (Permutation_app_comm s0). simpl.
    apply perm_swap.
  - apply StronglySorted_app in Hs as (_ & _ & Hba).
    apply StronglySorted_cons in Hba as [Hba _].
    by apply Forall_cons in Hba as [? _].
  - apply StronglySorted_app in Hs as (Hall & _ & _).
    apply Forall_forall. intros x Hx. apply Hall; [done|left].
Qed.

Lemma margin_nonpositive (a b : float) :
  is_finite a = true → is_finite b = true → sort_le b a →
  fleb (fneg (fsub a b)) fzero = true ∧
  (feqb a b = true → feqb (fneg (fsub a b)) fzero = true).
Proof.
  destruct a as [| |x|], b as [| |y|]; try done. simpl.
  rewrite !Qle_bool_iff, !Qeq_bool_iff. intros _ _ Hyx. split.
  - apply (Qopp_le_compat 0). rewrite <- Qle_minus_iff. done.
  - intros ->. rewrite Qplus_opp_r. done.
Qed.

Section MarginProofs.

Variable softmax : list float → list float.

(** C4.  For a row with a true mask and at least two classes, the margin
    score is [-(a - b)], where [a] is a largest softmax probability of the
    row and [b] a largest one among the others; when the probabilities are
    finite the score is at most 0, and it equals 0 when [a] and [b] are
    equal. *)
Theorem margin_score_top_two (logits : list (list float))
    (masks : list bool) (i : nat) (row : list float) :
  logits !! i = Some row →
  masks !! i = Some true →
  2 ≤ length (softmax row) →
  ∃ a b,
    top_two (softmax row) a b ∧
    get_margin_scores softmax logits masks !! i = Some (fneg (fsub a b)) ∧
    (Forall (λ p, is_finite p = true) (softmax row) →
       fleb (fneg (fsub a b)) fzero = true ∧
       (feqb a b = true → feqb (fneg (fsub a b)) fzero = true)).
Proof.
  intros Hrow Hmask Hn.
  pose proof (sort_row_top_two (softmax row) Hn) as Htop.
  set (a := getitem_from_end (sort_row (softmax row)) 1) in *.
  set (b := getitem_from_end (sort_row (softmax row)) 2) in *.
  exists a, b. split_and!; [done|..].
  - unfold get_margin_scores.
    rewrite (where_ninf_lookup _ _ i true (fneg (fsub a b))); [done|done|].
    by rewrite !list_lookup_fmap, Hrow.
  - intros Hfin. destruct Htop as (rest & Hperm & Hba & _).
    rewrite Hperm in Hfin.
    apply Forall_cons in Hfin as [Ha Hfin].
    apply Forall_cons in Hfin as [Hb _].
    by apply margin_nonpositive.
Qed.

End MarginProofs.

(** ** Fine-tune loop *)

Section FinetuneProofs.

Context {Opt Rng Batch : Type}.
Variable update_fn : Opt → Q → Batch → Rng → Opt * Rng.
Variable evaluation_fn : Opt → Batch → float * float.
Variables (train_eval_ds val_ds : list Batch).
Variable early_stopping_patience : nat.

Local Abbreviation body := (loop_body update_fn evaluation_fn train_eval_ds val_ds
                    early_stopping_patience).
Local Abbreviation run := (run_loop update_fn evaluation_fn train_eval_ds val_ds
                   early_stopping_patience).
Local Abbreviation val_accuracy_of o := (get_accuracy evaluation_fn o val_ds).

(** An iteration whose step is not a multiple of 5 only updates. *)
Lemma loop_body_plain (st : loop_state) (item : nat * Batch * Q) :
  no_evaluation item →
  body st item =
  ({| opt_repl := (update_fn (opt_repl st) item.2 item.1.2 (rngs_loop st)).1;
      rngs_loop := (update_fn (opt_repl st) item.2 item.1.2 (rngs_loop st)).2;
      best_opt_accuracy := best_opt_accuracy st;
      best_step := best_step st;
      best_opt_repl := best_opt_repl st;
      train_accuracies := train_accuracies st;
      val_accuracies := val_accuracies st;
      current_step := item.1.1 |}, false).
Proof. intros Hne. unfold loop_body. by rewrite decide_False. Qed.

Lemma run_loop_plain (items rest : list (nat * Batch * Q)) : ∀ st,
  Forall no_evaluation items →
  run st (items ++ rest) = run (after_updates update_fn st items) rest.
Proof.
  induction items as [|item items IH]; intros st Hall; [done|].
  apply Forall_cons in Hall as [Hitem Hall].
  simpl. rewrite (loop_body_plain st item Hitem).
  rewrite IH by done. f_equal.
  unfold after_updates. simpl.
  destruct items as [|item' items']; [reflexivity|].
  rewrite !last_cons_cons.
  destruct (last (item' :: items')) eqn:E; [reflexivity|].
  by apply last_None in E.
Qed.

Lemma loop_items_steps (lr_fn : nat → Q) (ds : list Batch) (total_steps : nat)
    (item : nat * Batch * Q) :
  item ∈ loop_items lr_fn ds total_steps →
  1 ≤ item.1.1 ≤ total_steps.
Proof.
  destruct item as [[step b] lr]. unfold loop_items.
  intros Hin%elem_of_zip_l%elem_of_zip_l%elem_of_seq. simpl. lia.
Qed.

(** The loop never binds [best_opt_repl] when no iteration evaluates, or
    when no validation accuracy compares [>= -1]. *)
Lemma run_loop_never_best (items : list (nat * Batch * Q)) : ∀ st,
  best_opt_repl st = None →
  best_opt_accuracy st = Fin (-1) →
  Forall no_evaluation items ∨
    (∀ o, fgeb (val_accuracy_of o) (Fin (-1)) = false) →
  best_opt_repl (run st items) = None.
Proof.
  induction items as [|item items IH]; intros st Hbest Hacc Hcase; [done|].
  simpl.
  assert (∃ st' stop, body st item = (st', stop) ∧
            best_opt_repl st' = None ∧ best_opt_accuracy st' = Fin (-1))
    as (st' & stop & -> & Hbest' & Hacc').
  { unfold loop_body. case_decide as Hmod.
    - destruct Hcase as [Hne|Hval].
      + apply Forall_cons in Hne as [Hne _]. done.
      + rewrite Hacc, Hval. by eexists _, _.
    - by eexists _, _. }
  destruct stop; [done|]. apply IH; [done..|].
  destruct Hcase as [Hne|Hval]; [left|by right].
  by apply Forall_cons in Hne as [_ ?].
Qed.

Lemma fltb_not_fgeb (x y : float) : fltb x y = true → fgeb x y = false.
Proof.
  destruct x as [| |a|], y as [| |b|]; try done.
  unfold fgeb. simpl. unfold Qlt_bool. by destruct (Qle_bool b a).
Qed.

(** An evaluating iteration whose validation accuracy is accepted. *)
Lemma loop_body_accept (st : loop_state) (item : nat * Batch * Q) :
  let updated := update_fn (opt_repl st) item.2 item.1.2 (rngs_loop st) in
  item.1.1 `mod` 5 = 0 →
  fgeb (val_accuracy_of updated.1) (best_opt_accuracy st) = true →
  body st item =
  ({| opt_repl := updated.1; rngs_loop := updated.2;
      best_opt_accuracy := val_accuracy_of updated.1;
      best_step := item.1.1;
      best_opt_repl := Some updated.1;
      train_accuracies :=
        train_accuracies st
          ++ [(item.1.1, get_accuracy evaluation_fn updated.1 train_eval_ds)];
      val_accuracies :=
        val_accuracies st ++ [(item.1.1, val_accuracy_of updated.1)];
      current_step := item.1.1 |}, false).
Proof.
  intros updated Hmod Hge. unfold loop_body. fold updated.
  rewrite decide_True by done. simpl. by rewrite Hge.
Qed.

(** An evaluating iteration whose validation accuracy is not accepted. *)
Lemma loop_body_reject (st : loop_state) (item : nat * Batch * Q) :
  let updated := update_fn (opt_repl st) item.2 item.1.2 (rngs_loop st) in
  item.1.1 `mod` 5 = 0 →
  fgeb (val_accuracy_of updated.1) (best_opt_accuracy st) = false →
  body st item =
  ({| opt_repl := updated.1; rngs_loop := updated.2;
      best_opt_accuracy := best_opt_accuracy st;
      best_step := best_step st;
      best_opt_repl := best_opt_repl st;
      train_accuracies :=
        train_accuracies st
          ++ [(item.1.1, get_accuracy evaluation_fn updated.1 train_eval_ds)];
      val_accuracies :=
        val_accuracies st ++ [(item.1.1, val_accuracy_of updated.1)];
      current_step := item.1.1 |},
   bool_decide (early_stopping_patience ≤ item.1.1 - best_step st)).
Proof.
  intros updated Hmod Hge. unfold loop_body. fold updated.
  rewrite decide_True by done. simpl. by rewrite Hge.
Qed.

(** C6 (amended).  With [total_steps = 10], [early_stopping_patience = 2] and
    at least 10 training batches, when the validation accuracy of step 5 is
    accepted as best and the one of step 10 is strictly lower, the loop
    performs all 10 updates: the early-stopping test is made at the
    evaluation steps 5 and 10 only, and fires at step 10, the last step.
    [finetune] returns the optimizer as it was after step 5, with
    [best_step = 5]. *)
Theorem finetune_returns_step5_snapshot (opt : Opt) (lr_fn : nat → Q)
    (ds : list Batch) (rng : Rng) :
  early_stopping_patience = 2 →
  10 ≤ length ds →
  let items := loop_items lr_fn ds 10 in
  let after5 := apply_updates update_fn opt rng (take 5 items) in
  let after10 := apply_updates update_fn opt rng items in
  fgeb (val_accuracy_of after5.1) (Fin (-1)) = true →
  fltb (val_accuracy_of after10.1) (val_accuracy_of after5.1) = true →
  let st := finetune_loop update_fn evaluation_fn train_eval_ds val_ds
              early_stopping_patience opt lr_fn ds rng 10 in
  current_step st = 10 ∧
  opt_repl st = after10.1 ∧
  ∃ info,
    finetune update_fn evaluation_fn train_eval_ds val_ds
      early_stopping_patience opt lr_fn ds rng 10
    = Ok (after5.1, after10.2, info) ∧
    info_best_step info = 5 ∧
    info_best_val_accuracy info = val_accuracy_of after5.1 ∧
    info_val_accuracies info =
      [(5, val_accuracy_of after5.1); (10, val_accuracy_of after10.1)].
Proof.
  intros Hpat Hlen.
  do 10 (destruct ds as [|? ds]; [simpl in Hlen; lia|]). clear Hlen.
  intros items after5 after10 H5 H10 st.
  apply fltb_not_fgeb in H10.
  set (st0 := initial_state opt rng).
  set (first4 := take 4 items).
  set (mid4 := take 4 (drop 5 items)).
  set (st4 := after_updates update_fn st0 first4).
  set (i5 := (5, b3, lr_fn 4)).
  set (i10 := (10, b8, lr_fn 9)).
  pose proof (loop_body_accept st4 i5 eq_refl H5) as E5. cbv zeta in E5.
  match type of E5 with _ = (?s, _) => set (st5 := s) in * end.
  set (st9 := after_updates update_fn st5 mid4).
  pose proof (loop_body_reject st9 i10 eq_refl H10) as E10. cbv zeta in E10.
  match type of E10 with _ = (?s, _) => set (st10 := s) in * end.
  assert (st = st10) as Hst.
  { subst st. unfold finetune_loop.
    change (loop_items lr_fn _ 10) with (first4 ++ i5 :: mid4 ++ [i10]).
    rewrite run_loop_plain
      by (repeat constructor; unfold no_evaluation; simpl; lia).
    fold st0 st4. cbn [run_loop]. rewrite E5.
    rewrite run_loop_plain
      by (repeat constructor; unfold no_evaluation; simpl; lia).
    fold st9. cbn [run_loop]. rewrite E10, Hpat. reflexivity. }
  split_and!; [by rewrite Hst..|].
  unfold finetune. fold st. rewrite Hst. eexists. split_and!; reflexivity.
Qed.

End FinetuneProofs.

(** *** Concrete runs of the fine-tune loop *)

(** C6 as stated fails: with [total_steps = 10], [early_stopping_patience =
    2] and a validation accuracy that peaks at step 5 and is strictly lower
    at step 10, the loop does not stop at or before step 7; it performs all
    10 updates and leaves at step 10.  The snapshot of step 5 is returned. *)
Lemma finetune_early_stop_counterexample :
  let st := demo_finetune_loop 2 10 in
  fltb (get_accuracy demo_evaluation_fn 10 [()])
       (get_accuracy demo_evaluation_fn 5 [()]) = true ∧
  current_step st = 10 ∧
  opt_repl st = 10 ∧
  rngs_loop st = 10 ∧
  best_opt_repl st = Some 5 ∧
  best_step st = 5 ∧
  ¬ current_step st ≤ 7.
Proof. vm_compute. repeat split. lia. Qed.

Lemma finetune_returns_step5_snapshot_witness :
  let st := demo_finetune_loop 2 10 in
  current_step st = 10 ∧
  opt_repl st = 10 ∧
  ∃ info,
    demo_finetune 2 10 = Ok (5, 10, info) ∧
    info_best_step info = 5 ∧
    info_best_val_accuracy info = get_accuracy demo_evaluation_fn 5 [()] ∧
    info_val_accuracies info =
      [(5, get_accuracy demo_evaluation_fn 5 [()]);
       (10, get_accuracy demo_evaluation_fn 10 [()])].
Proof.
  apply (finetune_returns_step5_snapshot demo_update_fn demo_evaluation_fn
           [()] [()] 2 0 demo_lr_fn (replicate 10 ()) 0).
  - reflexivity.
  - simpl. lia.
  - reflexivity.
  - reflexivity.
Defined.

Example finetune_four_steps : demo_finetune 2 4 = Err UnboundLocalError.
Proof. reflexivity. Qed.

(** ** Controller *)

Section ControllerProofs.

Context {Opt Rng Key Image : Type}.
Variable env : collaborators Opt Rng Key Image.
Variable cfg : config.

(** What an inference pass that returns has computed. *)
Lemma get_ids_logits_masks_Ok (opt : Opt) (ds : list (batch Image))
    (pre_logits : bool) ids outputs labels masks :
  get_ids_logits_masks env opt ds pre_logits
  = Ok (ids, outputs, labels, masks) ↔
  concatenate_axis1 (batch_id <$> ds) = Ok ids ∧
  concatenate_axis1 (compute_batch_outputs env opt pre_logits <$> ds)
  = Ok outputs ∧
  concatenate_axis1 (batch_labels <$> ds) = Ok labels ∧
  concatenate_axis1 (batch_mask <$> ds) = Ok masks.
Proof.
  unfold get_ids_logits_masks. split.
  - intros (i & Hi & (o & Ho & (l & Hl & (m & Hm & [= <- <- <- <-])
      %bind_Ok)%bind_Ok)%bind_Ok)%bind_Ok. done.
  - intros (-> & -> & -> & ->). done.
Qed.

(** The raveled arrays of an inference pass over the pool. *)
Lemma get_ids_logits_masks_pool (opt : Opt) (pre_logits : bool)
    ids outputs labels masks :
  get_ids_logits_masks env opt (env_pool_train_ds env) pre_logits
  = Ok (ids, outputs, labels, masks) →
  ravel ids = pool_ids_of env ∧
  ravel outputs = pool_outputs_of env opt pre_logits ∧
  ravel masks = pool_masks_of env.
Proof.
  intros (Hi & Ho & _ & Hm)%get_ids_logits_masks_Ok.
  unfold pool_ids_of, pool_outputs_of, pool_masks_of.
  by rewrite Hi, Ho, Hm.
Qed.

Lemma pool_inference_returns_Ok (opt : Opt) (pre_logits : bool) :
  pool_inference_returns env →
  ∃ ids outputs labels masks,
    get_ids_logits_masks env opt (env_pool_train_ds env) pre_logits
    = Ok (ids, outputs, labels, masks) ∧
    ravel ids = pool_ids_of env ∧
    ravel outputs = pool_outputs_of env opt pre_logits ∧
    ravel masks = pool_masks_of env.
Proof.
  intros Hpool. specialize (Hpool opt pre_logits).
  destruct (get_ids_logits_masks env opt (env_pool_train_ds env) pre_logits)
    as [[[[ids outputs] labels] masks]|] eqn:E; [|done].
  exists ids, outputs, labels, masks. split; [done|].
  by apply get_ids_logits_masks_pool in E.
Qed.

Lemma rounds_S (fuel : nat) (st : controller_state) :
  rounds env cfg (S fuel) st =
  if decide (cfg_max_training_set_size cfg ≤ size (subset_ids st))
  then Some (Returned st)
  else match round env cfg st with
       | Returned st' => rounds env cfg fuel st'
       | Raised entered e => Some (Raised entered e)
       end.
Proof. done. Qed.

(** Without an initial training set, [main] enters the loop with an empty
    labeled subset. *)
Lemma main_no_initial (fuel : nat) :
  initial_training_set_size cfg = Some 0 →
  ∃ rng rngs_loop,
    main env cfg fuel =
    rounds env cfg fuel
      {| subset_ids := ∅; rng := rng; ctl_rngs_loop := rngs_loop;
         test_accuracies := []; training_sizes := []; events := [] |}.
Proof.
  intros Hinit.
  unfold main, initial_training_set, cfg_initial_training_set_size.
  rewrite Hinit. change (default 10 (Some 0)) with 0.
  rewrite decide_False by lia.
  by eexists _, _.
Qed.

End ControllerProofs.

(** ** Command line *)

Section CommandLineProofs.

Context {Rng Key : Type}.

(** C7.  A run whose acquisition method is not one of the four names of the
    flag ends with the fatal error of the flag parser before [main] is
    called: no stage of any round is entered, whatever [main] would do and
    whatever the other flags, the devices and the configuration file are.
    The method [main] works with is always the one of the flag: [_main]
    overwrites the method of the configuration file with the flag's value,
    which is one of the four names (uniform when the flag is not given), so
    that no run hands another name to [main]. *)
Theorem unknown_method_rejected (method : string) :
  method ∉ acquisition_method_enum_values →
  (∀ (run_main : script_config → nat → option (@outcome Rng Key))
     flags device_count cfg fuel,
     script_main run_main (Some method) flags device_count cfg fuel
     = Some (Raised [] IllegalFlagValueError)) ∧
  (∀ (run_main : script_config → nat → option (@outcome Rng Key))
     argument flags device_count cfg fuel,
     acquisition_method cfg = method →
     script_main run_main argument flags device_count cfg fuel
     = Some (Raised [] IllegalFlagValueError) ∨
     script_main run_main argument flags device_count cfg fuel
     = Some (Raised [] RuntimeError) ∨
     ∃ config,
       script_main run_main argument flags device_count cfg fuel
       = run_main config fuel ∧
       acquisition_method (sc_config config)
         ∈ acquisition_method_enum_values ∧
       parse_acquisition_method argument
       = Ok (acquisition_method (sc_config config)) ∧
       sc_flags config = flags).
Proof.
  intros Hmethod. split.
  - intros run_main flags device_count cfg fuel. unfold script_main. simpl.
    by rewrite decide_False.
  - intros run_main argument flags device_count cfg fuel _.
    unfold script_main.
    destruct (parse_acquisition_method argument) as [accepted|e] eqn:Hparse.
    + case_decide as Hdev; [by right; left|]. right; right.
      eexists. split; [done|]. split_and!; [|done|done].
      cbn [sc_config acquisition_method set_acquisition_method].
      unfold parse_acquisition_method in Hparse.
      destruct argument as [value|].
      * case_decide; [|done]. by injection Hparse as <-.
      * injection Hparse as <-. unfold acquisition_method_enum_values.
        apply elem_of_cons. by left.
    + left. unfold parse_acquisition_method in Hparse.
      destruct argument as [value|]; [|done].
      case_decide; [done|]. by injection Hparse as <-.
Qed.

End CommandLineProofs.

Lemma unknown_method_rejected_witness :
  script_main (demo_run_main demo_pool) (Some "bald") demo_flags 8
    (demo_config "bald" 0 20 5) 10
  = Some (Raised [] IllegalFlagValueError) ∧
  (script_main (demo_run_main demo_pool) None demo_flags 8
     (demo_config "bald" 0 20 5) 10
   = Some (Raised [] IllegalFlagValueError) ∨
   script_main (demo_run_main demo_pool) None demo_flags 8
     (demo_config "bald" 0 20 5) 10
   = Some (Raised [] RuntimeError) ∨
   ∃ config,
     script_main (demo_run_main demo_pool) None demo_flags 8
       (demo_config "bald" 0 20 5) 10
     = demo_run_main demo_pool config 10 ∧
     acquisition_method (sc_config config) ∈ acquisition_method_enum_values ∧
     parse_acquisition_method None
     = Ok (acquisition_method (sc_config config)) ∧
     sc_flags config = demo_flags).
Proof.
  destruct (unknown_method_rejected (Rng := nat) (Key := nat) "bald")
    as [Hcli Hmain].
  - unfold acquisition_method_enum_values.
    rewrite !not_elem_of_cons. split_and!; try done. apply not_elem_of_nil.
  - split; [apply Hcli|]. apply Hmain. reflexivity.
Defined.

(** ** Counting the eligible pool entries *)

Lemma length_filter_ext_in {A} (P Q : A → Prop)
    `{!∀ x, Decision (P x), !∀ x, Decision (Q x)} (l : list A) :
  (∀ x, x ∈ l → P x ↔ Q x) →
  length (filter P l) = length (filter Q l).
Proof.
  intros HPQ. apply Nat.le_antisymm; apply length_filter_mono;
    intros x Hx; by apply HPQ.
Qed.

Lemma count_valid_indices (masks : list bool) :
  count_valid masks =
  length (filter (λ i, masks !! i = Some true) (seq 0 (length masks))).
Proof.
  unfold count_valid. induction masks as [|m masks IH] using rev_ind; [done|].
  rewrite length_app, Nat.add_1_r, seq_S, !filter_app, !length_app, IH.
  f_equal.
  - apply length_filter_ext_in. intros i Hi%elem_of_seq.
    by rewrite lookup_app_l by lia.
  - simpl. rewrite !filter_cons, !filter_nil.
    rewrite lookup_app_r, Nat.sub_diag by lia. simpl.
    destruct m; by repeat case_decide.
Qed.

Section EligibleCount.

Variables (ids : list Z) (masks : list bool) (scores : list float).
Hypothesis Hpool : pool_well_formed ids masks.
Hypothesis Hscores : well_scored masks scores.

Lemma well_scored_lookup (i : nat) (s : float) :
  scores !! i = Some s →
  isnan s = false ∧ (fgtb s NINF_SCORE = true ↔ masks !! i = Some true).
Proof.
  intros Hs.
  destruct (Forall2_lookup_r _ _ _ _ _ Hscores Hs) as (m & Hm & Hnan & Hgt).
  split; [done|]. rewrite Hm, Hgt. split; [by intros ->|by intros [= ->]].
Qed.

Lemma well_scored_no_nan : Forall (λ s, isnan s = false) scores.
Proof.
  apply Forall_lookup. intros i s Hs. by apply (well_scored_lookup i).
Qed.

Lemma well_scored_valid_ids_first : valid_ids_first ids scores.
Proof.
  intros i x s Hx Hs Hgt. destruct Hpool as [_ Hfirst].
  apply Hfirst; [done|]. by apply (well_scored_lookup i s).
Qed.

Lemma well_scored_lengths :
  length ids = length scores ∧ length masks = length scores.
Proof.
  destruct Hpool as [Hlen _]. pose proof (Forall2_length _ _ _ Hscores). lia.
Qed.

(** The valid entries split into those whose id is in the labeled subset,
    at most as many as the subset has ids, and the eligible ones. *)
Lemma count_valid_eligible (subset : gset Z) :
  count_valid masks ≤
  count_eligible ids scores (elements subset) + size subset.
Proof.
  destruct well_scored_lengths as [Hli Hlm].
  rewrite count_valid_indices. unfold count_eligible.
  rewrite Hlm. set (idx := seq 0 (length scores)).
  set (valid := λ i : nat, masks !! i = Some true).
  set (known := λ i : nat, ids !!! i ∈ subset).
  pose proof (filter_app_complement known (filter valid idx)) as Hsplit.
  apply Permutation_length in Hsplit. rewrite length_app in Hsplit.
  rewrite <- Hsplit.
  assert (length (filter (λ i, ¬ known i) (filter valid idx)) ≤
          length (filter (eligible ids scores (elements subset)) idx)) as H1.
  { rewrite list_filter_filter. apply length_filter_mono.
    intros i Hi%elem_of_seq [Hk Hv]. split.
    - unfold known in Hk. by rewrite elem_of_elements.
    - destruct (lookup_lt_is_Some_2 scores i) as [s Es]; [lia|].
      rewrite (list_lookup_total_correct _ _ _ Es).
      by apply (well_scored_lookup i s). }
  assert (length (filter known (filter valid idx)) ≤ size subset) as H2.
  { set (W := filter known (filter valid idx)).
    assert (NoDup W) as HW by (do 2 apply NoDup_filter; apply NoDup_seq).
    assert (NoDup ((ids !!!.) <$> W)) as Hnd.
    { apply NoDup_fmap_2_strong; [|done].
      intros i j [_ [Hvi Hi%elem_of_seq]%list_elem_of_filter]%list_elem_of_filter
                 [_ [Hvj Hj%elem_of_seq]%list_elem_of_filter]%list_elem_of_filter
                 Heq.
      destruct Hpool as [_ Hfirst].
      destruct (lookup_lt_is_Some_2 ids i) as [x Ex]; [lia|].
      destruct (lookup_lt_is_Some_2 ids j) as [y Ey]; [lia|].
      rewrite (list_lookup_total_correct _ _ _ Ex),
        (list_lookup_total_correct _ _ _ Ey) in Heq. subst y.
      pose proof (Hfirst _ _ Ex Hvi) as Hi1.
      pose proof (Hfirst _ _ Ey Hvj) as Hj1. congruence. }
    rewrite <- (length_fmap (ids !!!.) W).
    rewrite <- (size_list_to_set (C := gset Z)) by done.
    apply subseteq_size. intros x.
    rewrite elem_of_list_to_set, list_elem_of_fmap.
    intros (i & -> & [Hk _]%list_elem_of_filter). done. }
  lia.
Qed.

End EligibleCount.

(** ** Growth of the labeled subset *)

Section ControllerGrowth.

Context {Opt Rng Key Image : Type}.
Variable env : collaborators Opt Rng Key Image.
Variable cfg : config.

Local Abbreviation ids := (pool_ids_of env).
Local Abbreviation masks := (pool_masks_of env).

(** A round that returns keeps every id of the labeled subset. *)
Lemma round_keeps_ids (st st' : controller_state) :
  round env cfg st = Returned st' → subset_ids st ⊆ subset_ids st'.
Proof.
  unfold round.
  destruct (decide (0 < size (subset_ids st)));
    [destruct (finetune_stage env cfg st) as [[o r]|]|];
    cbn zeta beta iota; try done;
    (destruct (get_ids_logits_masks _ _ _ _) as [[[[pids pout] plab] pmask]|];
     [|done]);
    (destruct (scoring_stage _ _ _ _ _ _) as [[rng' scores]|]; [|done]);
    (destruct (select_acquisition_batch_indices _ _ _ _ _)
       as [[top_ids top_scores]|]; [|done]);
    intros [= <-]; cbn; apply union_subseteq_l.
Qed.

Hypothesis Hargpartition : argpartition_contract (env_argpartition env).
Hypothesis Hpool : pool_well_formed ids masks.

(** A selection of [n] ids on well-formed scores adds [n] new pool ids to
    the set of ignored ids. *)
Lemma select_grows (subset : gset Z) (scores : list float) (n : nat) :
  well_scored masks scores →
  subset ⊆ list_to_set ids →
  size subset + n ≤ count_valid masks →
  0 < n → n < length ids →
  ∃ top_ids top_scores,
    select_acquisition_batch_indices (env_argpartition env) n scores ids
      (elements subset) = Ok (top_ids, top_scores) ∧
    size (subset ∪ list_to_set top_ids) = size subset + n ∧
    subset ∪ list_to_set top_ids ⊆ list_to_set ids.
Proof.
  intros Hscores Hsub Hcount Hpos Hlt.
  destruct (well_scored_lengths ids masks scores Hpool Hscores) as [Hli Hlm].
  pose proof (count_valid_eligible ids masks scores Hpool Hscores subset)
    as Hce.
  destruct (select_fresh_ids (env_argpartition env)
              Hargpartition ids scores (elements subset) n)
    as (p & top_ids & top_scores & Hsel & _ & _ & _
        & Hlen & Hnd & Hdisj & Hfrom).
  - done.
  - lia.
  - lia.
  - lia.
  - apply Forall_forall. intros g Hg%elem_of_elements.
    apply Hsub in Hg. by apply elem_of_list_to_set in Hg.
  - by eapply well_scored_no_nan.
  - by eapply well_scored_valid_ids_first.
  - exists top_ids, top_scores. split_and!; [done|..].
    + rewrite size_union.
      * by rewrite size_list_to_set, Hlen.
      * intros x Hx Hx'%elem_of_list_to_set.
        apply (Hdisj x Hx'). by apply elem_of_elements.
    + apply union_subseteq. split; [done|].
      intros x Hx%elem_of_list_to_set. apply elem_of_list_to_set.
      destruct (list_elem_of_lookup_1 _ _ Hx) as [j Hj].
      destruct (Forall2_lookup_l _ _ _ _ _ Hfrom Hj) as (t & _ & i & Hi & _).
      by eapply list_elem_of_lookup_2.
Qed.

Hypothesis Hinference : pool_inference_returns env.
Hypothesis Hfinetune : finetune_returns env cfg.
Hypothesis Hscoring : scoring_well_scored env cfg.

(** A round on a pool with enough valid entries left returns, and adds
    exactly [acquisition_batch_size] ids. *)
Lemma round_grows (st : controller_state) :
  subset_ids st ⊆ list_to_set ids →
  size (subset_ids st) + cfg_acquisition_batch_size cfg ≤ count_valid masks →
  0 < cfg_acquisition_batch_size cfg →
  cfg_acquisition_batch_size cfg < length ids →
  ∃ st',
    round env cfg st = Returned st' ∧
    subset_ids st ⊆ subset_ids st' ∧
    size (subset_ids st') =
      size (subset_ids st) + cfg_acquisition_batch_size cfg ∧
    subset_ids st' ⊆ list_to_set ids ∧
    training_sizes st' = training_sizes st ++ [size (subset_ids st)].
Proof.
  intros Hsub Hcount Hpos Hlt.
  assert (∃ st1 opt rngs,
            (if decide (0 < size (subset_ids st))
             then (log_event (EvFinetune (size (subset_ids st))) st,
                   finetune_stage env cfg st)
             else (st, Ok (env_opt_cpu env, ctl_rngs_loop st)))
            = (st1, Ok (opt, rngs)) ∧
            subset_ids st1 = subset_ids st ∧
            training_sizes st1 = training_sizes st)
    as (st1 & opt & rngs & Hft & Hs1 & Ht1).
  { case_decide as Hsize.
    - pose proof (Hfinetune st Hsize Hsub) as Hok.
      destruct (finetune_stage env cfg st) as [[o r]|]; [|done].
      by eexists _, _, _.
    - by eexists _, _, _. }
  unfold round. rewrite Hft. cbn zeta beta iota.
  destruct (pool_inference_returns_Ok env opt
              (bool_decide (acquisition_method cfg = "density")) Hinference)
    as (pids & pout & plab & pmask & -> & -> & -> & ->).
  cbn zeta beta iota.
  set (st2 := log_event _ (log_event _ st1)).
  destruct (Hscoring st2 opt) as (rng' & scores & -> & Hscores).
  cbn zeta beta iota.
  set (st3 := log_event _ (log_event _ st2)).
  assert (subset_ids st3 = subset_ids st) as Hs3 by done.
  rewrite Hs3.
  destruct (select_grows (subset_ids st) scores
              (cfg_acquisition_batch_size cfg) Hscores Hsub Hcount Hpos Hlt)
    as (top_ids & top_scores & -> & Hsize & Hsub').
  eexists. split; [reflexivity|]. cbn [subset_ids training_sizes].
  split_and!.
  - apply union_subseteq_l.
  - done.
  - done.
  - cbn. by rewrite Ht1.
Qed.

End ControllerGrowth.

(** ** Sufficient conditions on the collaborators *)

Lemma fgeb_trans (x y z : float) :
  fgeb x y = true → fgeb y z = true → fgeb x z = true.
Proof.
  destruct x as [| |a|], y as [| |b|], z as [| |c|]; try done.
  unfold fgeb. simpl. intros Hba Hcb. by eapply Qle_bool_trans.
Qed.

Section FinetuneSucceeds.

Context {Opt Rng Batch : Type}.
Variable update_fn : Opt → Q → Batch → Rng → Opt * Rng.
Variable evaluation_fn : Opt → Batch → float * float.
Variables (train_eval_ds val_ds : list Batch).
Variable early_stopping_patience : nat.

Local Abbreviation body := (loop_body update_fn evaluation_fn train_eval_ds
                              val_ds early_stopping_patience).
Local Abbreviation run := (run_loop update_fn evaluation_fn train_eval_ds
                             val_ds early_stopping_patience).

Lemma loop_body_keeps_best (st : loop_state) (item : nat * Batch * Q) :
  is_Some (best_opt_repl st) → is_Some (best_opt_repl (body st item).1).
Proof.
  intros Hbest. unfold loop_body.
  case_decide; [|done]. by destruct (fgeb _ _).
Qed.

Lemma run_loop_keeps_best (items : list (nat * Batch * Q)) : ∀ st,
  is_Some (best_opt_repl st) → is_Some (best_opt_repl (run st items)).
Proof.
  induction items as [|item items IH]; intros st Hbest; [done|].
  simpl. pose proof (loop_body_keeps_best st item Hbest) as Hbody.
  destruct (body st item) as [st' stop]. destruct stop; [done|by apply IH].
Qed.

(** The best accuracy never falls below its initial value. *)
Lemma loop_body_best_above (st : loop_state) (item : nat * Batch * Q) :
  fgeb (best_opt_accuracy st) (Fin (-1)) = true →
  fgeb (best_opt_accuracy (body st item).1) (Fin (-1)) = true.
Proof.
  intros Hbest. unfold loop_body. case_decide; [|done].
  cbn zeta. cbn [best_opt_accuracy].
  destruct (fgeb (get_accuracy evaluation_fn
                    (update_fn (opt_repl st) item.2 item.1.2 (rngs_loop st)).1
                    val_ds) (best_opt_accuracy st))
    eqn:E; [|done].
  cbn [fst best_opt_accuracy]. by eapply fgeb_trans.
Qed.

Lemma run_loop_best_above (items : list (nat * Batch * Q)) : ∀ st,
  fgeb (best_opt_accuracy st) (Fin (-1)) = true →
  fgeb (best_opt_accuracy (run st items)) (Fin (-1)) = true.
Proof.
  induction items as [|item items IH]; intros st Hbest; [done|].
  simpl. pose proof (loop_body_best_above st item Hbest) as Hbody.
  destruct (body st item) as [st' stop]. destruct stop; [done|by apply IH].
Qed.

(** [finetune] returns when the loop reaches step 5 and every validation
    accuracy compares [>= -1]. *)
Lemma finetune_succeeds (opt : Opt) (lr_fn : nat → Q) (ds : list Batch)
    (rng : Rng) (total_steps : nat) :
  5 ≤ total_steps → 5 ≤ length ds →
  (∀ o, fgeb (get_accuracy evaluation_fn o val_ds) (Fin (-1)) = true) →
  ∃ r, finetune update_fn evaluation_fn train_eval_ds val_ds
         early_stopping_patience opt lr_fn ds rng total_steps = Ok r.
Proof.
  intros Hsteps Hlen Hval.
  assert (is_Some (best_opt_repl
            (finetune_loop update_fn evaluation_fn train_eval_ds val_ds
               early_stopping_patience opt lr_fn ds rng total_steps)))
    as [best Hbest]; [|unfold finetune; rewrite Hbest; by eexists].
  unfold finetune_loop, loop_items.
  do 5 (destruct total_steps as [|total_steps]; [lia|]).
  do 5 (destruct ds as [|? ds]; [simpl in Hlen; lia|]).
  set (rest := zip (zip (seq 6 total_steps) ds) (lr_fn <$> seq 5 total_steps)).
  set (first4 := [(1, b, lr_fn 0); (2, b0, lr_fn 1); (3, b1, lr_fn 2);
                  (4, b2, lr_fn 3)]).
  change (zip _ _) with (first4 ++ (5, b3, lr_fn 4) :: rest).
  rewrite run_loop_plain
    by (repeat constructor; unfold no_evaluation; simpl; lia).
  cbn [run_loop].
  set (st4 := after_updates update_fn _ first4).
  rewrite (loop_body_accept update_fn evaluation_fn train_eval_ds val_ds
             early_stopping_patience st4 (5, b3, lr_fn 4) eq_refl)
    by apply Hval.
  by apply run_loop_keeps_best.
Qed.

End FinetuneSucceeds.

Lemma uniform_scores_well_scored {Key} (random_uniform : Key → nat → list float)
    (masks : list bool) (key : Key) :
  uniform_contract random_uniform →
  well_scored masks (get_uniform_scores Key random_uniform masks key).
Proof.
  intros Hu. destruct (Hu key (length masks)) as [Hlen Hfin].
  unfold well_scored, get_uniform_scores, where_ninf.
  apply Forall2_same_length_lookup_2.
  - rewrite length_zip_with. lia.
  - intros i m s Hm. rewrite lookup_zip_with, Hm. simpl.
    destruct (random_uniform key (length masks) !! i) as [u|] eqn:Eu; [|done].
    simpl. intros [= <-].
    rewrite Forall_lookup in Hfin. specialize (Hfin _ _ Eu).
    destruct m, u; done.
Qed.

(** [finetune_stage] returns when the number of repeats is computed, the
    repeated training set has 5 batches for 5 steps or more, and every
    validation accuracy compares [>= -1]. *)
Lemma finetune_stage_returns {Opt Rng Key Image}
    (env : collaborators Opt Rng Key Image) (cfg : config)
    (st : controller_state) :
  is_ok (num_repeats (total_steps cfg) (size (subset_ids st))
           (batch_size cfg)) = true →
  5 ≤ total_steps cfg →
  (∀ subset repeats,
     5 ≤ length (env_repeated_train_ds_of env subset repeats)) →
  (∀ o, fgeb (get_accuracy (env_evaluation_fn env) o (env_val_ds env))
          (Fin (-1)) = true) →
  is_ok (finetune_stage env cfg st) = true.
Proof.
  intros Hrepeats Hsteps Hlen Hval. unfold finetune_stage.
  destruct (num_repeats _ _ _) as [r|]; [|done].
  cbn [mbind result_bind].
  destruct (finetune_succeeds (env_update_fn env) (env_evaluation_fn env)
              (env_train_eval_ds_of env (subset_ids st)) (env_val_ds env)
              (cfg_early_stopping_patience cfg) (env_opt_cpu env)
              (λ _ : nat, lr_base cfg)
              (env_repeated_train_ds_of env (subset_ids st) r)
              (ctl_rngs_loop st) (total_steps cfg) Hsteps (Hlen _ _) Hval)
    as [res ->].
  done.
Qed.

(** ** The labeled subset across rounds *)

Section LabeledSubset.

Context {Opt Rng Key Image : Type}.
Variable env : collaborators Opt Rng Key Image.
Variable cfg : config.

Local Abbreviation ids := (pool_ids_of env).
Local Abbreviation masks := (pool_masks_of env).

Hypothesis Hargpartition : argpartition_contract (env_argpartition env).
Hypothesis Huniform : uniform_contract (env_random_uniform env).
Hypothesis Hinference : pool_inference_returns env.
Hypothesis Hpool : pool_well_formed ids masks.

(** The initial acquisition selects [initial_training_set_size] distinct
    pool ids. *)
Lemma initial_training_set_size_ok (rng0 : Key) :
  cfg_initial_training_set_size cfg ≤ count_valid masks →
  cfg_initial_training_set_size cfg < length ids →
  ∃ evs rng' ids0,
    initial_training_set env cfg rng0 = (evs, Ok (rng', ids0)) ∧
    size (list_to_set ids0 : gset Z) = cfg_initial_training_set_size cfg ∧
    (list_to_set ids0 : gset Z) ⊆ list_to_set ids.
Proof.
  intros Hcount Hlt. unfold initial_training_set.
  case_decide as Hpos.
  - destruct (pool_inference_returns_Ok env (env_opt_cpu env) false
                Hinference)
      as (pids & pout & plab & pmask & -> & -> & _ & ->).
    cbn zeta beta iota.
    destruct (select_grows env Hargpartition Hpool ∅
                (get_uniform_scores Key (env_random_uniform env) masks
                   (env_split env rng0).2)
                (cfg_initial_training_set_size cfg))
      as (top_ids & top_scores & Hsel & Hsize & Hsub).
    + by apply uniform_scores_well_scored.
    + apply empty_subseteq.
    + rewrite size_empty. lia.
    + done.
    + done.
    + rewrite elements_empty in Hsel. rewrite Hsel.
      rewrite (left_id_L ∅ (∪)) in Hsize, Hsub. rewrite size_empty in Hsize.
      by eexists _, _, _.
  - exists [], rng0, []. split_and!; [done|..].
    + rewrite list_to_set_nil, size_empty. lia.
    + rewrite list_to_set_nil. apply empty_subseteq.
Qed.

Lemma rounds_continue (fuel : nat) (st st' : controller_state) :
  size (subset_ids st) < cfg_max_training_set_size cfg →
  round env cfg st = Returned st' →
  rounds env cfg (S fuel) st = rounds env cfg fuel st'.
Proof.
  intros Hlt Hround. rewrite rounds_S, decide_False by lia.
  by rewrite Hround.
Qed.

Lemma rounds_stop (fuel : nat) (st : controller_state) :
  cfg_max_training_set_size cfg ≤ size (subset_ids st) →
  rounds env cfg (S fuel) st = Some (Returned st).
Proof. intros Hle. by rewrite rounds_S, decide_True. Qed.

End LabeledSubset.

(** *** Concrete runs of the controller *)

Lemma demo_uniform_contract : uniform_contract demo_random_uniform.
Proof.
  intros key n. unfold demo_random_uniform. split.
  - by rewrite length_fmap, length_seq.
  - apply Forall_fmap, Forall_forall. done.
Qed.

(** C8 as stated fails on a pool of 8 valid entries: with
    [initial_training_set_size = 0], [acquisition_batch_size = 5] and
    [max_training_set_size = 20], the second round adds 3 ids, not 5, and the
    third round raises ValueError (no score above [-inf] is left for the
    statistics line), so that [main] does not complete 4 rounds. *)
Lemma labeled_subset_growth_counterexample :
  sizes_after_two_rounds (demo_env small_pool)
    (demo_config "uniform" 0 20 5) demo_initial_state = Some (5, 8) ∧
  main (demo_env small_pool) (demo_config "uniform" 0 20 5) 10
  = Some (Raised
            [EvTestEvaluation 0; EvPoolInference 0; EvScoring 0;
             EvSelection 0;
             EvFinetune 5; EvTestEvaluation 5; EvPoolInference 5;
             EvScoring 5; EvSelection 5;
             EvFinetune 8; EvTestEvaluation 8; EvPoolInference 8;
             EvScoring 8; EvSelection 8]
            ValueError).
Proof. by vm_compute. Qed.


(** *** Concrete runs of the scoring functions *)

Lemma margin_score_top_two_witness :
  ∃ a b,
    top_two (demo_softmax [fzero; NInf; fzero]) a b ∧
    get_margin_scores demo_softmax [[fzero; NInf; fzero]] [true] !! 0
      = Some (fneg (fsub a b)) ∧
    (Forall (λ p, is_finite p = true) (demo_softmax [fzero; NInf; fzero]) →
       fleb (fneg (fsub a b)) fzero = true ∧
       (feqb a b = true → feqb (fneg (fsub a b)) fzero = true)).
Proof.
  apply (margin_score_top_two demo_softmax [[fzero; NInf; fzero]] [true] 0
           [fzero; NInf; fzero]).
  - reflexivity.
  - reflexivity.
  - simpl. lia.
Defined.

Example margin_tie_is_zero :
  demo_softmax [fzero; NInf; fzero] = [Fin (1 # 2); Fin 0; Fin (1 # 2)] ∧
  (λ s, feqb s fzero) <$>
    get_margin_scores demo_softmax
      [[fzero; NInf; fzero]; [fzero; NInf; NInf]; [fzero; fzero; fzero]]
      [true; true; false]
  = [true; false; false] ∧
  get_margin_scores demo_softmax
    [[fzero; NInf; fzero]; [fzero; NInf; NInf]; [fzero; fzero; fzero]]
    [true; true; false] !! 2 = Some NINF_SCORE.
Proof. by vm_compute. Qed.

Lemma scores_masked_ninf_witness :
  get_entropy_scores demo_softmax demo_log_softmax
    [[fzero; NInf]; [NInf; fzero]] [true; false] !! 1 = Some NINF_SCORE ∧
  get_margin_scores demo_softmax
    [[fzero; NInf]; [NInf; fzero]] [true; false] !! 1 = Some NINF_SCORE ∧
  get_uniform_scores nat demo_random_uniform [true; false] 7 !! 1
    = Some NINF_SCORE ∧
  (∀ scores, get_density_scores [Fin 1; Fin 2] [true; false] = Ok scores →
     scores !! 1 = Some NINF_SCORE).
Proof.
  destruct (scores_masked_ninf demo_softmax demo_log_softmax nat
              demo_random_uniform) as (He & Hm & Hu & Hd).
  split_and!.
  - destruct (get_entropy_scores _ _ _ _ !! 1) as [s|] eqn:E; [|done].
    f_equal. by eapply (He _ [true; false] 1 s).
  - destruct (get_margin_scores _ _ _ !! 1) as [s|] eqn:E; [|done].
    f_equal. by eapply (Hm _ [true; false] 1 s).
  - destruct (get_uniform_scores _ _ _ _ !! 1) as [s|] eqn:E; [|done].
    f_equal. by eapply (Hu [true; false] 7 1 s).
  - intros scores Hs.
    destruct (scores !! 1) as [s|] eqn:E.
    + f_equal. by eapply (Hd _ _ _ 1 s Hs).
    + apply bind_Ok in Hs as (top & _ & [= <-]). done.
Defined.

Example density_scores_run :
  get_density_scores [Fin 1; Fin 5; Fin 3] [true; false; true]
  = Ok [Fin (3 + - (1)); NInf; Fin (3 + - (3))] ∧
  get_density_scores [Fin 1; Fin 5] [false; false] = Err ValueError.
Proof. by vm_compute. Qed.

(** *** Entropy *)

Section EntropyProofs.

Variables softmax log_softmax : list float → list float.

(** An entry of the entropy scores with a true mask is the sum of the terms
    [-p * log p] of its row, NaN terms replaced by 0. *)
Lemma get_entropy_scores_lookup (logits : list (list float))
    (masks : list bool) (i : nat) (row : list float) :
  logits !! i = Some row → masks !! i = Some true →
  get_entropy_scores softmax log_softmax logits masks !! i
  = Some (row_entropy (softmax row) (log_softmax row)).
Proof.
  intros Hrow Hmask. unfold get_entropy_scores.
  rewrite (where_ninf_lookup _ _ i true
             (row_entropy (softmax row) (log_softmax row))); [done|done|].
  rewrite !list_lookup_fmap, lookup_zip_with, !list_lookup_fmap, Hrow.
  simpl. f_equal. unfold row_entropy. f_equal.
  generalize (log_softmax row). induction (softmax row) as [|p ps IH];
    intros [|lp lps]; simpl; try done.
  by rewrite IH.
Qed.

Lemma fsum_values (c : Q) (l : list float) :
  Forall (has_value c) l →
  has_value (inject_Z (Z.of_nat (length l)) * c) (fsum l).
Proof.
  unfold fsum. intros Hall.
  assert (∀ acc a, has_value a acc →
            has_value (a + inject_Z (Z.of_nat (length l)) * c)
              (foldl fadd acc l)) as Hgen.
  { induction Hall as [|x l (q & -> & Hq) _ IH]; intros acc a (qa & -> & Ha).
    - exists qa. split; [done|]. simpl. rewrite Ha. ring.
    - simpl foldl. destruct (IH (Fin (qa + q)%Q) (a + c)%Q) as (r & Hr & Hrv).
      + exists (qa + q)%Q. split; [done|]. by rewrite Ha, Hq.
      + exists r. split; [done|]. rewrite Hrv.
        rewrite length_cons, Nat2Z.inj_succ, <- Z.add_1_r, inject_Z_plus.
        ring. }
  destruct (Hgen fzero 0%Q ltac:(by exists 0%Q)) as (r & Hr & Hrv).
  exists r. split; [done|]. rewrite Hrv. ring.
Qed.

(** A one-hot row: every term of the sum is 0, the NaN of [0 * -inf]
    included, and so is the entropy. *)
Lemma row_entropy_one_hot (probs log_probs : list float) (hot : nat) :
  (∀ i p, probs !! i = Some p →
          has_value (if decide (i = hot) then 1%Q else 0%Q) p) →
  (∀ lp, log_probs !! hot = Some lp → has_value 0 lp) →
  has_value 0 (row_entropy probs log_probs).
Proof.
  intros Hp Hlp. unfold row_entropy.
  assert (Forall (has_value 0) (zip_with weighted_nat probs log_probs))
    as Hall.
  { apply Forall_lookup. intros i w. rewrite lookup_zip_with.
    destruct (probs !! i) as [p|] eqn:Ep; [|done]. simpl.
    destruct (log_probs !! i) as [lp|] eqn:Elp; [|done]. simpl.
    intros [= <-]. destruct (Hp i p Ep) as (q & -> & Hq).
    unfold weighted_nat. case_decide as Hi.
    - subst i. destruct (Hlp lp Elp) as (ql & -> & Hql). simpl.
      eexists. split; [done|]. rewrite Hql. ring.
    - assert (Qeq_bool (- q) 0 = true) as Hz
        by (apply Qeq_bool_iff; rewrite Hq; ring).
      destruct lp as [| |ql|]; simpl; unfold fmul_inf; rewrite ?Hz; simpl;
        try (by exists 0%Q).
      eexists. split; [done|]. rewrite Hq. ring. }
  destruct (fsum_values 0 _ Hall) as (r & Hr & Hrv).
  exists r. split; [done|]. rewrite Hrv. ring.
Qed.

(** A uniform row over [C] classes whose log-probabilities all have the value
    [l]: the entropy has the value [-l]. *)
Lemma row_entropy_uniform (probs log_probs : list float) (C : positive)
    (l : Q) :
  length probs = Pos.to_nat C →
  length log_probs = Pos.to_nat C →
  Forall (has_value (1 # C)) probs →
  Forall (has_value l) log_probs →
  has_value (- l) (row_entropy probs log_probs).
Proof.
  intros Hlp Hll Hprobs Hlogs. unfold row_entropy.
  assert (Forall (has_value (- (1 # C) * l))
            (zip_with weighted_nat probs log_probs)) as Hall.
  { apply Forall_lookup. intros i w. rewrite lookup_zip_with.
    destruct (probs !! i) as [p|] eqn:Ep; [|done]. simpl.
    destruct (log_probs !! i) as [lp|] eqn:Elp; [|done]. simpl.
    intros [= <-].
    rewrite Forall_lookup in Hprobs, Hlogs.
    destruct (Hprobs i p Ep) as (q & -> & Hq).
    destruct (Hlogs i lp Elp) as (ql & -> & Hql).
    unfold weighted_nat. simpl. eexists. split; [done|].
    by rewrite Hq, Hql. }
  destruct (fsum_values _ _ Hall) as (r & Hr & Hrv).
  exists r. split; [done|]. rewrite Hrv.
  rewrite length_zip_with, Hlp, Hll, Nat.min_id, positive_nat_Z.
  unfold Qeq. simpl. lia.
Qed.

End EntropyProofs.

Section EntropyValues.

Import Stdlib.Reals.Reals Stdlib.Reals.Qreals.

Variables softmax log_softmax : list float → list float.

(** C3.  For a row with a true mask, [get_entropy_scores] returns the sum of
    the terms [-p * log p] in exact arithmetic.  On a row whose softmax is
    uniform over [C] classes, with the common log-probability [l] that
    [log_softmax] returns for it, the score is exactly [-l]: it is [ln C]
    up to the difference between [l] and [ln (1 / C)].  On a row whose
    softmax is one-hot the score is exactly 0: the term of every other class
    whose log-probability is [-inf] is the NaN of [0 * -inf], and is
    replaced by 0 before the summation. *)
Theorem entropy_uniform_and_one_hot (logits : list (list float))
    (masks : list bool) (i : nat) (row : list float) :
  logits !! i = Some row →
  masks !! i = Some true →
  (∀ (C : positive) (l : Q),
     length (softmax row) = Pos.to_nat C →
     length (log_softmax row) = Pos.to_nat C →
     Forall (has_value (1 # C)) (softmax row) →
     Forall (has_value l) (log_softmax row) →
     ∃ q, get_entropy_scores softmax log_softmax logits masks !! i
          = Some (Fin q) ∧
          Qeq q (- l) ∧
          (Q2R q - ln (IZR (Z.pos C)) = ln (/ IZR (Z.pos C)) - Q2R l)%R) ∧
  (∀ hot : nat,
     (∀ j p, softmax row !! j = Some p →
             has_value (if decide (j = hot) then 1%Q else 0%Q) p) →
     (∀ lp, log_softmax row !! hot = Some lp → has_value 0 lp) →
     (∃ q, get_entropy_scores softmax log_softmax logits masks !! i
           = Some (Fin q) ∧ Qeq q 0) ∧
     (∀ j p, j ≠ hot → softmax row !! j = Some p →
             log_softmax row !! j = Some NInf →
             isnan (fmul (fneg p) NInf) = true)).
Proof.
  intros Hrow Hmask.
  rewrite (get_entropy_scores_lookup softmax log_softmax logits masks i row
             Hrow Hmask).
  split.
  - intros C l Hlp Hll Hprobs Hlogs.
    destruct (row_entropy_uniform _ _ C l Hlp Hll Hprobs Hlogs)
      as (q & -> & Hq).
    exists q. split_and!; [done|done|].
    rewrite (Qeq_eqR _ _ Hq), Q2R_opp, ln_Rinv.
    + ring.
    + by apply IZR_lt.
  - intros hot Hp Hlp. split.
    + destruct (row_entropy_one_hot _ _ hot Hp Hlp) as (q & -> & Hq).
      by exists q.
    + intros j p Hj Hpj _. destruct (Hp j p Hpj) as (q & -> & Hq).
      rewrite decide_False in Hq by done.
      simpl. unfold fmul_inf.
      assert (Qeq_bool (- q) 0 = true) as ->; [|done].
      apply Qeq_bool_iff. rewrite Hq. ring.
Qed.

End EntropyValues.


Example entropy_one_hot_run :
  get_entropy_scores demo_softmax demo_log_softmax
    [[NInf; fzero; NInf]; [fzero; NInf; NInf]] [true; false]
  = [Fin (0 + 0 + - (1) * 0 + 0); NInf] ∧
  fmul (fneg fzero) NInf = NaN.
Proof. by vm_compute. Qed.

Lemma entropy_uniform_and_one_hot_witness :
  (∃ q, get_entropy_scores demo_softmax demo_log_softmax_uniform
          [[fzero; fzero]] [true] !! 0 = Some (Fin q) ∧
        Qeq q (693147 # 1000000)) ∧
  (∃ q, get_entropy_scores demo_softmax demo_log_softmax
          [[fzero; NInf; NInf]] [true] !! 0 = Some (Fin q) ∧ Qeq q 0).
Proof.
  split.
  - destruct (entropy_uniform_and_one_hot demo_softmax
                demo_log_softmax_uniform [[fzero; fzero]] [true] 0
                [fzero; fzero] eq_refl eq_refl) as [Huniform _].
    destruct (Huniform 2%positive demo_log_half) as (q & Hscore & Hq & _).
    + reflexivity.
    + reflexivity.
    + repeat constructor; by eexists.
    + repeat constructor; by eexists.
    + exists q. split; [done|]. by rewrite Hq.
  - destruct (entropy_uniform_and_one_hot demo_softmax demo_log_softmax
                [[fzero; NInf; NInf]] [true] 0 [fzero; NInf; NInf]
                eq_refl eq_refl) as [_ Honehot].
    destruct (Honehot 0) as [Hscore _].
    + intros [|[|[|j]]] p; simpl; intros [= <-]; by eexists.
    + intros lp [= <-]. by eexists.
    + exact Hscore.
Defined.

(** * Further properties *)

(** ** Selection engine: outcomes of a call *)

Lemma setitem_Ok {A} (a : list A) (i : nat) (v : A) (a' : list A) :
  setitem a i v = Ok a' ↔ i < length a ∧ a' = <[i := v]> a.
Proof.
  unfold setitem. case_decide; split; try done.
  - by intros [= <-].
  - by intros [_ ->].
  - intros [? _]. lia.
Qed.

(** Whenever the loop over the ignored ids completes, every ignored id is in
    [ids] and the result is the closed form. *)
Lemma ignore_acquired_Ok ids ignored : ∀ scores scores1,
  ignore_acquired ids scores ignored = Ok scores1 →
  Forall (λ g, g ∈ ids) ignored ∧
  scores1 = ignore_spec ids ignored scores.
Proof.
  induction ignored as [|g rest IH]; intros scores scores1; simpl.
  - intros [= <-]. split; [done|]. apply list_eq. intros i.
    rewrite ignore_spec_lookup.
    destruct (scores !! i); [|done]. cbn [fmap option_fmap option_map].
    rewrite decide_False; [done|]. unfold suppressed. rewrite Exists_nil. tauto.
  - intros (i & Hi & (s' & (Hlt & ->)%setitem_Ok & Hrest)%bind_Ok)%bind_Ok.
    destruct (IH _ _ Hrest) as [Hall ->]. split.
    + constructor; [|done]. apply list_index_Ok in Hi as [Hi _].
      by eapply list_elem_of_lookup_2.
    + apply list_eq. intros j. rewrite !ignore_spec_lookup.
      destruct (decide (i = j)) as [<-|Hne].
      * rewrite list_lookup_insert_eq by done.
        destruct (lookup_lt_is_Some_2 scores i Hlt) as [s ->]. simpl. f_equal.
        rewrite (decide_True (P := suppressed ids (g :: rest) i));
          [by case_decide | by apply Exists_cons_hd].
      * rewrite list_lookup_insert_ne by done.
        destruct (scores !! j); simpl; [|done]. f_equal.
        apply decide_ext. unfold suppressed. rewrite Exists_cons.
        split; [auto|]. intros [Hj|?]; [|done]. congruence.
Qed.

(** Counting by position is counting by entry. *)
Lemma length_filter_indices {A} `{!Inhabited A} (P : A → Prop)
    `{!∀ x, Decision (P x)} (l : list A) :
  length (filter (λ i, P (l !!! i)) (seq 0 (length l)))
  = length (filter P l).
Proof.
  induction l as [|x l IH] using rev_ind; [done|].
  rewrite length_app, Nat.add_1_r, seq_S, !filter_app, !length_app, <- IH.
  f_equal.
  - apply length_filter_ext_in. intros i Hi%elem_of_seq.
    by rewrite lookup_total_app_l by lia.
  - simpl. rewrite !filter_cons, !filter_nil.
    rewrite lookup_total_app_r, Nat.sub_diag by lia. simpl.
    by repeat case_decide.
Qed.

(** Entries read at pairwise distinct positions of an array cannot satisfy
    a predicate more often than the array does. *)
Lemma length_filter_selected {A} `{!Inhabited A} (P : A → Prop)
    `{!∀ x, Decision (P x)} (l : list A) (positions : list nat)
    (ts : list A) :
  NoDup positions →
  Forall2 (λ i t, l !! i = Some t) positions ts →
  length (filter P ts) ≤ length (filter P l).
Proof.
  intros Hnd Hsel.
  assert (length (filter P ts)
          = length (filter (λ i, P (l !!! i)) positions)) as ->.
  { clear Hnd. induction Hsel as [|i t positions ts Hi _ IH]; [done|].
    rewrite !filter_cons, (list_lookup_total_correct _ _ _ Hi).
    case_decide; simpl; by rewrite IH. }
  rewrite <- (length_filter_indices P l).
  apply submseteq_length, NoDup_submseteq; [by apply NoDup_filter|].
  intros i [HP Hi]%list_elem_of_filter. apply list_elem_of_filter.
  split; [done|]. apply elem_of_seq.
  destruct (list_elem_of_lookup_1 _ _ Hi) as [j Hj].
  destruct (Forall2_lookup_l _ _ _ _ _ Hsel Hj) as (t & _ & Ht).
  apply lookup_lt_Some in Ht. lia.
Qed.

Section SelectionOutcomes.

Variable argpartition : list float → nat → list nat.
Hypothesis argpartition_ok : argpartition_contract argpartition.

(** What a returning call has done: the ignored ids were all found, the
    statistics array was not empty, [kth] was in range, and the result is
    read at the first [acquisition_batch_size] positions of the partition of
    the negated, suppressed scores. *)
Lemma select_Ok_inv (k : nat) (scores : list float) (ids ignored : list Z)
    (top_ids : list Z) (top_scores : list float) :
  select_acquisition_batch_indices argpartition k scores ids ignored
    = Ok (top_ids, top_scores) →
  ∃ p,
    Forall (λ g, g ∈ ids) ignored ∧
    0 < count_live ids scores ignored ∧
    k < length scores ∧
    partitioned (fneg <$> ignore_spec ids ignored scores) k p ∧
    length (take k p) = k ∧
    NoDup (take k p) ∧
    Forall2 (λ i x, ids !! i = Some x) (take k p) top_ids ∧
    Forall2 (λ i t, ignore_spec ids ignored scores !! i = Some t)
      (take k p) top_scores.
Proof.
  unfold select_acquisition_batch_indices.
  intros (scores1 & [Hall ->]%ignore_acquired_Ok & Hrest)%bind_Ok.
  apply bind_Ok in Hrest as ([] & Hstat & Hrest).
  apply bind_Ok in Hrest as (p & Hp & Hrest).
  apply bind_Ok in Hrest as (tids & Hids & Hrest).
  apply bind_Ok in Hrest as (tscores & Hsc & [= <- <-]).
  unfold np_argpartition in Hp. case_decide as Hk; [|done].
  injection Hp as <-.
  rewrite length_fmap, ignore_spec_length in Hk.
  assert (partitioned (fneg <$> ignore_spec ids ignored scores) k
            (argpartition (fneg <$> ignore_spec ids ignored scores) k))
    as Hpart.
  { apply argpartition_ok. by rewrite length_fmap, ignore_spec_length. }
  set (p := argpartition _ k) in *.
  assert (length p = length scores) as Hlenp.
  { destruct Hpart as [-> _].
    by rewrite length_seq, length_fmap, ignore_spec_length. }
  exists p. split_and!; try done.
  - unfold count_live.
    destruct (filter _ (ignore_spec ids ignored scores)); [done|simpl; lia].
  - rewrite length_take. lia.
  - destruct Hpart as [Hperm _].
    apply (sublist_NoDup _ p); [|apply sublist_take].
    rewrite Hperm. apply NoDup_seq.
  - by apply take_along_Forall2.
  - by apply take_along_Forall2.
Qed.

(** X1.  Whenever [select_acquisition_batch_indices] returns, it returns
    exactly [acquisition_batch_size] ids and as many scores, the batch size
    is strictly below the length of [scores], and the returned pairs are read
    at pairwise distinct positions of the arrays: the id of the position,
    with [-inf] if the position was suppressed for an ignored id and the
    score of the position otherwise. *)
Theorem select_returns_batch_size (acquisition_batch_size : nat)
    (scores : list float) (ids ignored_ids : list Z)
    (top_ids : list Z) (top_scores : list float) :
  select_acquisition_batch_indices argpartition acquisition_batch_size
    scores ids ignored_ids = Ok (top_ids, top_scores) →
  length top_ids = acquisition_batch_size ∧
  length top_scores = acquisition_batch_size ∧
  acquisition_batch_size < length scores ∧
  ∃ positions,
    NoDup positions ∧
    Forall2 (λ i x, ids !! i = Some x) positions top_ids ∧
    Forall2 (λ i t, ∃ s, scores !! i = Some s ∧
                t = if decide (suppressed ids ignored_ids i)
                    then NINF_SCORE else s)
      positions top_scores.
Proof.
  intros Hsel.
  destruct (select_Ok_inv _ _ _ _ _ _ Hsel)
    as (p & _ & _ & Hk & _ & Hlen & Hnd & Hids & Hsc).
  split_and!.
  - by rewrite <- (Forall2_length _ _ _ Hids).
  - by rewrite <- (Forall2_length _ _ _ Hsc).
  - done.
  - exists (take acquisition_batch_size p). split_and!; [done..|].
    eapply Forall2_impl; [exact Hsc|]. intros i t. cbv beta.
    rewrite ignore_spec_lookup. destruct (scores !! i) as [s|]; [|done].
    simpl. intros [= <-]. by exists s.
Qed.

(** X2.  On arrays in which every entry with a score above [-inf] is the
    first occurrence of its id, a returned id whose returned score is above
    [-inf] is never an ignored id, and the returned score is the score of
    that id in [scores]; no precondition on the number of eligible entries. *)
Theorem select_live_score_not_ignored (acquisition_batch_size : nat)
    (scores : list float) (ids ignored_ids : list Z)
    (top_ids : list Z) (top_scores : list float) :
  valid_ids_first ids scores →
  select_acquisition_batch_indices argpartition acquisition_batch_size
    scores ids ignored_ids = Ok (top_ids, top_scores) →
  ∀ j x t,
    top_ids !! j = Some x → top_scores !! j = Some t →
    fgtb t NINF_SCORE = true →
    (x ∉ ignored_ids) ∧ ∃ i, ids !! i = Some x ∧ scores !! i = Some t.
Proof.
  intros Hfirst Hsel j x t Hx Ht Hgt.
  destruct (select_Ok_inv _ _ _ _ _ _ Hsel)
    as (p & _ & _ & _ & _ & _ & _ & Hids & Hsc).
  destruct (Forall2_lookup_r _ _ _ _ _ Hids Hx) as (i & Hi & Hix).
  destruct (Forall2_lookup_l _ _ _ _ _ Hsc Hi) as (t' & Ht' & Hit).
  assert (t' = t) as -> by congruence.
  rewrite ignore_spec_lookup in Hit.
  destruct (scores !! i) as [s|] eqn:Es; [|done]. simpl in Hit.
  case_decide as Hsup; simplify_eq; try done.
  split; [|by exists i].
  intros Hin. apply Hsup. apply Exists_exists. exists x. split; [done|].
  by eapply Hfirst.
Qed.

(** X3.  A call that returns does not return more scores above [-inf] than
    the suppressed score array holds: when fewer than
    [acquisition_batch_size] entries are left above [-inf], the call still
    returns [acquisition_batch_size] entries, and the missing ones carry a
    score that is not above [-inf]. *)
Theorem select_underflow_padded (acquisition_batch_size : nat)
    (scores : list float) (ids ignored_ids : list Z)
    (top_ids : list Z) (top_scores : list float) :
  select_acquisition_batch_indices argpartition acquisition_batch_size
    scores ids ignored_ids = Ok (top_ids, top_scores) →
  length (filter (λ t, fgtb t NINF_SCORE = true) top_scores)
    ≤ count_live ids scores ignored_ids ∧
  acquisition_batch_size - count_live ids scores ignored_ids
    ≤ length (filter (λ t, ¬ fgtb t NINF_SCORE = true) top_scores).
Proof.
  intros Hsel.
  destruct (select_Ok_inv _ _ _ _ _ _ Hsel)
    as (p & _ & _ & _ & _ & Hlen & Hnd & Hids & Hsc).
  assert (length (filter (λ t, fgtb t NINF_SCORE = true) top_scores)
            ≤ count_live ids scores ignored_ids) as Hle
    by (by eapply length_filter_selected).
  split; [done|].
  pose proof (filter_app_complement (λ t, fgtb t NINF_SCORE = true)
                top_scores) as Hsplit.
  apply Permutation_length in Hsplit. rewrite length_app in Hsplit.
  rewrite <- (Forall2_length _ _ _ Hsc), Hlen in Hsplit. lia.
Qed.

(** X4.  On aligned arrays a call returns exactly when every ignored id
    occurs in [ids], some score is above [-inf] after the ignored ids are
    suppressed, and [acquisition_batch_size] is strictly below the length of
    the arrays; every failure is a ValueError. *)
Theorem select_returns_iff (acquisition_batch_size : nat)
    (scores : list float) (ids ignored_ids : list Z) :
  length ids = length scores →
  ((∃ r, select_acquisition_batch_indices argpartition
           acquisition_batch_size scores ids ignored_ids = Ok r) ↔
   Forall (λ g, g ∈ ids) ignored_ids ∧
   0 < count_live ids scores ignored_ids ∧
   acquisition_batch_size < length scores) ∧
  (∀ e, select_acquisition_batch_indices argpartition
          acquisition_batch_size scores ids ignored_ids = Err e →
        e = ValueError).
Proof.
  intros Hlen.
  assert (∀ p, partitioned (fneg <$> ignore_spec ids ignored_ids scores)
                 acquisition_batch_size p →
               ∃ tids tscores,
                 take_along ids (take acquisition_batch_size p) = Ok tids ∧
                 take_along (ignore_spec ids ignored_ids scores)
                   (take acquisition_batch_size p) = Ok tscores)
    as Htake.
  { intros p [Hperm _].
    assert (Forall (λ i, i < length scores)
              (take acquisition_batch_size p)) as Hrange.
    { apply Forall_forall. intros i (m & Hm & _)%elem_of_take.
      apply list_elem_of_lookup_2 in Hm.
      rewrite Hperm, elem_of_seq, length_fmap, ignore_spec_length in Hm.
      lia. }
    destruct (take_along_total ids (take acquisition_batch_size p))
      as [tids ->]; [by rewrite Hlen|].
    destruct (take_along_total (ignore_spec ids ignored_ids scores)
                (take acquisition_batch_size p)) as [tscores ->];
      [by rewrite ignore_spec_length|].
    by eexists _, _. }
  unfold select_acquisition_batch_indices, count_live.
  destruct (decide (Forall (λ g, g ∈ ids) ignored_ids)) as [Hall|Hall].
  - rewrite ignore_acquired_spec by (done || lia).
    cbn [mbind result_bind].
    destruct (filter _ (ignore_spec ids ignored_ids scores)) as [|s0 f_ent].
    { split; [|by intros e [= <-]].
      split; [by intros [r ?]|]. simpl. intros (_ & ? & _). lia. }
    cbn [score_statistics mbind result_bind]. unfold np_argpartition.
    rewrite length_fmap, ignore_spec_length.
    case_decide as Hk; cbn [mbind result_bind].
    + destruct (Htake (argpartition
                         (fneg <$> ignore_spec ids ignored_ids scores)
                         acquisition_batch_size)) as (tids & tscores & -> & ->).
      { apply argpartition_ok. by rewrite length_fmap, ignore_spec_length. }
      cbn [mbind result_bind mret result_ret]. split; [|done].
      split; [|by eexists]. intros _. split_and!; [done|simpl; lia|done].
    + split; [|by intros e [= <-]].
      split; [by intros [r ?]|]. intros (_ & _ & ?). lia.
  - apply not_Forall_Exists in Hall; [|apply _].
    rewrite ignore_acquired_absent by (done || lia).
    cbn [mbind result_bind]. split; [|by intros e [= <-]].
    split; [by intros [r ?]|]. intros (Hall' & _).
    exfalso. rewrite Exists_exists in Hall. rewrite Forall_forall in Hall'.
    destruct Hall as (g & Hg & Hn). by apply Hn, Hall'.
Qed.

End SelectionOutcomes.

Lemma select_returns_batch_size_witness :
  length [3; 2]%Z = 2 ∧
  length [Fin (7 # 10); Fin (1 # 2)] = 2 ∧
  2 < length pool_scores ∧
  ∃ positions,
    NoDup positions ∧
    Forall2 (λ i x, pool_ids !! i = Some x) positions [3; 2]%Z ∧
    Forall2 (λ i t, ∃ s, pool_scores !! i = Some s ∧
                t = if decide (suppressed pool_ids [1%Z] i)
                    then NINF_SCORE else s)
      positions [Fin (7 # 10); Fin (1 # 2)].
Proof.
  apply (select_returns_batch_size argpartition_ref argpartition_ref_contract
           2 pool_scores pool_ids [1%Z]).
  vm_compute. reflexivity.
Defined.

Lemma select_live_score_not_ignored_witness :
  select_acquisition_batch_indices argpartition_ref 2 pool_scores pool_ids
    [1%Z] = Ok ([3; 2]%Z, [Fin (7 # 10); Fin (1 # 2)]) ∧
  (3%Z ∉ [1%Z]) ∧
  ∃ i, pool_ids !! i = Some 3%Z ∧ pool_scores !! i = Some (Fin (7 # 10)).
Proof.
  split; [by vm_compute|].
  apply (select_live_score_not_ignored argpartition_ref
           argpartition_ref_contract 2 pool_scores pool_ids [1%Z]
           [3; 2]%Z [Fin (7 # 10); Fin (1 # 2)]
           pool_valid_ids_first) with (j := 0).
  - by vm_compute.
  - reflexivity.
  - reflexivity.
  - reflexivity.
Defined.

(** A pool with a single eligible entry and a batch size of 2: the ignored
    id 2 is returned again, with the score [-inf]. *)
Example select_underflow_run :
  select_acquisition_batch_indices argpartition_ref 2
    [Fin 1; Fin 2; Fin 3] [0; 1; 2]%Z [1; 2]%Z
  = Ok ([0; 2]%Z, [Fin 1; NInf]).
Proof. vm_compute. reflexivity. Qed.

Lemma select_underflow_padded_witness :
  length (filter (λ t, fgtb t NINF_SCORE = true) [Fin 1; NInf])
    ≤ count_live [0; 1; 2]%Z [Fin 1; Fin 2; Fin 3] [1; 2]%Z ∧
  2 - count_live [0; 1; 2]%Z [Fin 1; Fin 2; Fin 3] [1; 2]%Z
    ≤ length (filter (λ t, ¬ fgtb t NINF_SCORE = true) [Fin 1; NInf]).
Proof.
  apply (select_underflow_padded argpartition_ref argpartition_ref_contract
           2 [Fin 1; Fin 2; Fin 3] [0; 1; 2]%Z [1; 2]%Z [0; 2]%Z).
  vm_compute. reflexivity.
Defined.

Lemma select_returns_iff_witness :
  ((∃ r, select_acquisition_batch_indices argpartition_ref 2
           pool_scores pool_ids [1%Z] = Ok r) ↔
   Forall (λ g, g ∈ pool_ids) [1%Z] ∧
   0 < count_live pool_ids pool_scores [1%Z] ∧
   2 < length pool_scores) ∧
  (∀ e, select_acquisition_batch_indices argpartition_ref 2
          pool_scores pool_ids [1%Z] = Err e → e = ValueError).
Proof.
  apply (select_returns_iff argpartition_ref argpartition_ref_contract
           2 pool_scores pool_ids [1%Z]).
  reflexivity.
Defined.

(** ** Scoring functions: valid entries *)

Lemma fsum_nonneg_or_pinf (l : list float) :
  Forall nonneg_or_pinf l → nonneg_or_pinf (fsum l).
Proof.
  unfold fsum. intros Hall.
  assert (∀ acc, nonneg_or_pinf acc → nonneg_or_pinf (foldl fadd acc l))
    as Hgen.
  { induction Hall as [|x l Hx _ IH]; intros acc Hacc; [done|].
    simpl. apply IH.
    destruct Hacc as [->|(a & -> & Ha)], Hx as [->|(b & -> & Hb)];
      try (by left).
    right. exists (a + b)%Q. split; [done|].
    replace 0%Q with (0 + 0)%Q by done. by apply Qplus_le_compat. }
  apply Hgen. right. by exists 0%Q.
Qed.

Lemma weighted_nat_nonneg (p lp : float) :
  nonneg_value p → nonpos_or_ninf lp → nonneg_or_pinf (weighted_nat p lp).
Proof.
  intros (q & -> & Hq) [->|(r & -> & Hr)]; unfold weighted_nat; simpl.
  - unfold fmul_inf. destruct (Qeq_bool (- q) 0) eqn:Ez; simpl.
    + right. by exists 0%Q.
    + assert (Qlt_bool 0 (- q) = false) as ->.
      { unfold Qlt_bool. apply negb_false_iff, Qle_bool_iff.
        apply (Qopp_le_compat 0 q) in Hq. done. }
      by left.
  - right. eexists. split; [done|].
    assert (Qeq (- q * r) (q * - r)) as -> by ring.
    apply Qmult_le_0_compat; [done|].
    by apply (Qopp_le_compat r 0).
Qed.

Section ValidScores.

Variables softmax log_softmax : list float → list float.
Variable Key : Type.
Variable random_uniform : Key → nat → list float.

(** X5.  When the softmax probabilities of a row are finite and not negative
    and its log-probabilities are [-inf] or finite and not positive, the
    entropy score of the row is never NaN, and it is [-inf] exactly when the
    mask of the row is false. *)
Theorem entropy_score_ninf_iff_masked (logits : list (list float))
    (masks : list bool) (i : nat) (row : list float) (m : bool) (s : float) :
  logits !! i = Some row →
  masks !! i = Some m →
  Forall nonneg_value (softmax row) →
  Forall nonpos_or_ninf (log_softmax row) →
  get_entropy_scores softmax log_softmax logits masks !! i = Some s →
  isnan s = false ∧ (s = NINF_SCORE ↔ m = false).
Proof.
  intros Hrow Hmask Hp Hlp Hs. destruct m.
  - rewrite (get_entropy_scores_lookup _ _ _ _ _ _ Hrow Hmask) in Hs.
    injection Hs as <-.
    assert (nonneg_or_pinf (row_entropy (softmax row) (log_softmax row)))
      as Hent.
    { apply fsum_nonneg_or_pinf, Forall_lookup. intros j w.
      rewrite lookup_zip_with.
      destruct (softmax row !! j) as [p|] eqn:Ep; [|done]. simpl.
      destruct (log_softmax row !! j) as [lp|] eqn:Elp; [|done]. simpl.
      intros [= <-]. rewrite Forall_lookup in Hp, Hlp.
      apply weighted_nat_nonneg; [by eapply Hp|by eapply Hlp]. }
    destruct Hent as [->|(q & -> & _)]; by split.
  - assert (s = NINF_SCORE) as ->; [|by split].
    by apply (where_ninf_masked masks _ i s Hmask Hs).
Qed.

End ValidScores.

Section ValidScoresMarginUniform.

Variable softmax : list float → list float.
Variable Key : Type.
Variable random_uniform : Key → nat → list float.

(** X6.  For a row with at least two classes whose softmax probabilities are
    finite, the margin score of a valid entry is a finite number, and so the
    margin score of an entry is [-inf] exactly when its mask is false. *)
Theorem margin_score_ninf_iff_masked (logits : list (list float))
    (masks : list bool) (i : nat) (row : list float) (m : bool) (s : float) :
  logits !! i = Some row →
  masks !! i = Some m →
  2 ≤ length (softmax row) →
  Forall (λ p, is_finite p = true) (softmax row) →
  get_margin_scores softmax logits masks !! i = Some s →
  (m = true → is_finite s = true) ∧ (s = NINF_SCORE ↔ m = false).
Proof.
  intros Hrow Hmask Hn Hfin Hs. destruct m.
  - destruct (sort_row_top_two (softmax row) Hn) as (rest & Hperm & _).
    set (a := getitem_from_end (sort_row (softmax row)) 1) in *.
    set (b := getitem_from_end (sort_row (softmax row)) 2) in *.
    assert (get_margin_scores softmax logits masks !! i
            = Some (fneg (fsub a b))) as Hscore.
    { unfold get_margin_scores.
      rewrite (where_ninf_lookup _ _ i true (fneg (fsub a b))); [done|done|].
      by rewrite !list_lookup_fmap, Hrow. }
    rewrite Hscore in Hs. injection Hs as <-.
    rewrite Hperm in Hfin.
    apply Forall_cons in Hfin as [Ha Hfin].
    apply Forall_cons in Hfin as [Hb _].
    destruct a, b; by split.
  - assert (s = NINF_SCORE) as ->; [|by split].
    by apply (where_ninf_masked masks _ i s Hmask Hs).
Qed.

(** X7.  When [random.uniform] returns finite values of the requested shape,
    the uniform scores have one entry per mask, a valid entry is the draw at
    its position, and an entry is [-inf] exactly when its mask is false. *)
Theorem uniform_score_ninf_iff_masked (masks : list bool) (rng : Key) :
  uniform_contract random_uniform →
  length (get_uniform_scores Key random_uniform masks rng) = length masks ∧
  ∀ i m s,
    masks !! i = Some m →
    get_uniform_scores Key random_uniform masks rng !! i = Some s →
    (m = true → random_uniform rng (length masks) !! i = Some s) ∧
    (s = NINF_SCORE ↔ m = false).
Proof.
  intros Hu. destruct (Hu rng (length masks)) as [Hlen Hfin].
  unfold get_uniform_scores, where_ninf. split.
  - rewrite length_zip_with. lia.
  - intros i m s Hm. rewrite lookup_zip_with, Hm. simpl.
    destruct (random_uniform rng (length masks) !! i) as [u|] eqn:Eu; [|done].
    simpl. intros [= <-].
    rewrite Forall_lookup in Hfin. specialize (Hfin _ _ Eu).
    destruct m, u; by repeat split.
Qed.

End ValidScoresMarginUniform.

(** ** Density scores *)

Lemma np_max_step_finite (acc x : float) :
  is_finite acc = true → is_finite x = true →
  is_finite (np_max_step acc x) = true ∧
  fleb acc (np_max_step acc x) = true ∧
  fleb x (np_max_step acc x) = true ∧
  (np_max_step acc x = acc ∨ np_max_step acc x = x).
Proof.
  destruct acc as [| |a|], x as [| |b|]; try done. intros _ _.
  unfold np_max_step. simpl. unfold Qlt_bool.
  destruct (Qle_bool b a) eqn:E; simpl.
  - split_and!; [done| |done|by left]. apply Qle_bool_iff, Qle_refl.
  - split_and!; [done| | |by right].
    + destruct (Qle_bool_total a b) as [?|?]; [done|congruence].
    + apply Qle_bool_iff, Qle_refl.
Qed.

Lemma fleb_trans (x y z : float) :
  fleb x y = true → fleb y z = true → fleb x z = true.
Proof.
  destruct x as [| |a|], y as [| |b|], z as [| |c|]; try done.
  apply Qle_bool_trans.
Qed.

(** The maximum of a non-empty array of finite values is one of them and
    bounds all of them. *)
Lemma np_max_finite (a : list float) :
  a ≠ [] → Forall (λ x, is_finite x = true) a →
  ∃ top, np_max a = Ok top ∧ is_finite top = true ∧ top ∈ a ∧
         Forall (λ x, fleb x top = true) a.
Proof.
  destruct a as [|x a]; [done|]. intros _ Hall.
  apply Forall_cons in Hall as [Hx Hall]. simpl.
  assert (∀ acc, is_finite acc = true →
            is_finite (foldl np_max_step acc a) = true ∧
            fleb acc (foldl np_max_step acc a) = true ∧
            (foldl np_max_step acc a = acc ∨ foldl np_max_step acc a ∈ a) ∧
            Forall (λ y, fleb y (foldl np_max_step acc a) = true) a) as Hgen.
  { induction Hall as [|y a Hy _ IH]; intros acc Hacc.
    - split_and!; [done| |by left|done].
      destruct acc; try done. apply Qle_bool_iff, Qle_refl.
    - simpl.
      destruct (np_max_step_finite acc y Hacc Hy) as (Hf & Hle1 & Hle2 & Hor).
      destruct (IH _ Hf) as (Hf' & Hle' & Hor' & Hall').
      split_and!; [done|by eapply fleb_trans| |].
      + destruct Hor' as [Heq|Hin]; [|right; by right].
        rewrite Heq. destruct Hor as [-> | ->]; [by left|right; left].
      + constructor; [by eapply fleb_trans|done]. }
  destruct (Hgen x Hx) as (Hf & Hle & Hor & Hall').
  eexists. split_and!; [done|done| |by constructor].
  destruct Hor as [->|Hin]; [left|by right].
Qed.

Lemma boolean_select_elem_of {A} (mask : list bool) (a : list A) (x : A) :
  x ∈ boolean_select mask a ↔
  ∃ i, mask !! i = Some true ∧ a !! i = Some x.
Proof.
  unfold boolean_select. rewrite list_elem_of_fmap. split.
  - intros ([m y] & -> & [Hm Hin]%list_elem_of_filter). simpl in *. subst m.
    apply list_elem_of_lookup_1 in Hin as [i Hi].
    apply lookup_zip_with_Some in Hi as (m & y' & [= <- <-] & Hm & Hy).
    by exists i.
  - intros (i & Hm & Hx). exists (true, x). split; [done|].
    apply list_elem_of_filter. split; [done|].
    apply (list_elem_of_lookup_2 _ i). apply lookup_zip_with_Some.
    by exists true, x.
Qed.

Lemma density_scores_lookup (scores : list float) (pool_masks : list bool)
    (top : float) (i : nat) :
  (boolean_update (negb <$> pool_masks) (λ _, NINF_SCORE)
     (boolean_update pool_masks (λ s, fsub top s) scores)) !! i
  = m ← pool_masks !! i; x ← scores !! i;
    Some (if m : bool then fsub top x else NINF_SCORE).
Proof.
  rewrite !boolean_update_lookup, list_lookup_fmap.
  destruct (pool_masks !! i) as [[]|]; simpl; [| |done];
    by destruct (scores !! i).
Qed.

(** X8.  [get_density_scores] raises IndexError when the mask and the
    likelihood array differ in length, raises ValueError when the lengths
    agree and no entry is valid, and otherwise returns one score per pool
    entry. *)
Theorem density_scores_outcome (scores : list float) (pool_masks : list bool) :
  (length pool_masks ≠ length scores →
     get_density_scores scores pool_masks = Err IndexError) ∧
  (length pool_masks = length scores → (true ∉ pool_masks) →
     get_density_scores scores pool_masks = Err ValueError) ∧
  (length pool_masks = length scores → true ∈ pool_masks →
     ∃ result, get_density_scores scores pool_masks = Ok result ∧
       length result = length scores).
Proof.
  unfold get_density_scores. split_and!.
  - intros Hne. by rewrite decide_False.
  - intros Hlen Hnone. rewrite decide_True by done.
    assert (boolean_select pool_masks scores = []) as ->; [|done].
    apply elem_of_nil_inv. intros x (i & Hm & _)%boolean_select_elem_of.
    apply Hnone. by eapply list_elem_of_lookup_2.
  - intros Hlen (i & Hm)%list_elem_of_lookup_1. rewrite decide_True by done.
    destruct (lookup_lt_is_Some_2 scores i) as [x Hx].
    { rewrite <- Hlen. by eapply lookup_lt_Some. }
    destruct (boolean_select pool_masks scores) as [|y sel] eqn:Esel.
    { assert (x ∈ boolean_select pool_masks scores) as Hin
        by (apply boolean_select_elem_of; by exists i).
      rewrite Esel in Hin. by apply elem_of_nil in Hin. }
    simpl. eexists. split; [done|].
    unfold boolean_update. rewrite !length_zip_with, length_fmap. lia.
Qed.

(** X9.  With finite likelihoods at the valid entries, the density score of
    every valid entry is a finite number that is not negative, some valid
    entry has score 0, and the scores reverse the order of the likelihoods:
    of two valid entries, the one with the lower likelihood has the higher
    score. *)
Theorem density_scores_valid (scores : list float) (pool_masks : list bool)
    (result : list float) :
  (∀ i x, pool_masks !! i = Some true → scores !! i = Some x →
          is_finite x = true) →
  get_density_scores scores pool_masks = Ok result →
  (∀ i r, pool_masks !! i = Some true → result !! i = Some r →
          ∃ q, r = Fin q ∧ Qle 0 q) ∧
  (∃ i r, pool_masks !! i = Some true ∧ result !! i = Some r ∧
          has_value 0 r) ∧
  (∀ i j x y r t,
     pool_masks !! i = Some true → pool_masks !! j = Some true →
     scores !! i = Some x → scores !! j = Some y →
     result !! i = Some r → result !! j = Some t →
     fleb x y = true → fleb t r = true).
Proof.
  intros Hfin. unfold get_density_scores. case_decide as Hlen; [|done].
  assert (Forall (λ x, is_finite x = true) (boolean_select pool_masks scores))
    as Hsel.
  { apply Forall_forall. intros x (i & Hm & Hx)%boolean_select_elem_of.
    by eapply Hfin. }
  destruct (boolean_select pool_masks scores) as [|y0 sel] eqn:Esel; [done|].
  destruct (np_max_finite (y0 :: sel)) as (top & Htop & Hftop & Hin & Hmax);
    [done|done|].
  rewrite Htop. simpl. intros [= <-].
  rewrite <- Esel in Hin, Hmax.
  apply boolean_select_elem_of in Hin as (itop & Hmtop & Hxtop).
  rewrite Forall_forall in Hmax.
  destruct top as [| |qt|]; try done.
  split_and!.
  - intros i r Hm. rewrite density_scores_lookup, Hm. simpl.
    destruct (scores !! i) as [x|] eqn:Ex; [|done]. simpl. intros [= <-].
    assert (fleb x (Fin qt) = true) as Hle.
    { apply Hmax, boolean_select_elem_of. by exists i. }
    specialize (Hfin i x Hm Ex). destruct x as [| |qx|]; try done.
    simpl. eexists. split; [done|].
    simpl in Hle. apply Qle_bool_iff in Hle.
    by rewrite <- Qle_minus_iff.
  - exists itop. eexists. rewrite density_scores_lookup, Hmtop, Hxtop. simpl.
    split_and!; [done|done|].
    eexists. split; [done|]. apply Qplus_opp_r.
  - intros i j x y r t Hmi Hmj Hx Hy.
    rewrite !density_scores_lookup, Hmi, Hmj, Hx, Hy. simpl.
    intros [= <-] [= <-].
    pose proof (Hfin i x Hmi Hx) as Hfx. pose proof (Hfin j y Hmj Hy) as Hfy.
    destruct x as [| |qx|], y as [| |qy|]; try done. simpl.
    rewrite !Qle_bool_iff. intros Hxy.
    apply Qplus_le_compat; [apply Qle_refl|]. by apply Qopp_le_compat.
Qed.

Lemma density_scores_valid_witness :
  get_density_scores [Fin 3; Fin 1; Fin 2; PInf] [true; true; false; false]
  = Ok [Fin (3 + - 3); Fin (3 + - 1); NInf; NInf] ∧
  ∃ i r, [true; true; false; false] !! i = Some true ∧
         [Fin (3 + - 3); Fin (3 + - 1); NInf; NInf] !! i = Some r ∧
         has_value 0 r.
Proof.
  split; [reflexivity|].
  eapply (density_scores_valid [Fin 3; Fin 1; Fin 2; PInf]
            [true; true; false; false]).
  - intros [|[|[|[|i]]]] x Hm Hx; simplify_eq/=; done.
  - reflexivity.
Defined.

Lemma entropy_score_ninf_iff_masked_witness :
  ∃ s, get_entropy_scores demo_softmax demo_log_softmax [[fzero; NInf]] [true]
         !! 0 = Some s ∧
       isnan s = false ∧ (s = NINF_SCORE ↔ true = false).
Proof.
  eexists. split; [reflexivity|].
  eapply (entropy_score_ninf_iff_masked demo_softmax demo_log_softmax
            [[fzero; NInf]] [true] 0 [fzero; NInf]);
    [reflexivity|reflexivity| | |reflexivity].
  - repeat constructor; eexists; (split; [reflexivity|]); by vm_compute.
  - constructor; [right; exists 0%Q; split; [reflexivity|by vm_compute]|].
    constructor; [by left|constructor].
Defined.

Lemma margin_score_ninf_iff_masked_witness :
  ∃ s, get_margin_scores demo_softmax [[fzero; fzero; NInf]; [fzero; NInf]]
         [true; false] !! 0 = Some s ∧
       (true = true → is_finite s = true) ∧ (s = NINF_SCORE ↔ true = false).
Proof.
  eexists. split; [reflexivity|].
  eapply (margin_score_ninf_iff_masked demo_softmax
            [[fzero; fzero; NInf]; [fzero; NInf]] [true; false] 0
            [fzero; fzero; NInf]);
    [reflexivity|reflexivity|simpl; lia| |reflexivity].
  by repeat constructor.
Defined.

Lemma uniform_score_ninf_iff_masked_witness :
  length (get_uniform_scores nat demo_random_uniform [true; false] 0) = 2 ∧
  ∀ i m s,
    [true; false] !! i = Some m →
    get_uniform_scores nat demo_random_uniform [true; false] 0 !! i = Some s →
    (m = true → demo_random_uniform 0 2 !! i = Some s) ∧
    (s = NINF_SCORE ↔ m = false).
Proof.
  apply (uniform_score_ninf_iff_masked nat demo_random_uniform [true; false] 0).
  apply demo_uniform_contract.
Defined.

Lemma density_scores_outcome_witness :
  get_density_scores [Fin 1; Fin 2] [true] = Err IndexError ∧
  get_density_scores [Fin 1; Fin 2] [false; false] = Err ValueError ∧
  ∃ result, get_density_scores [Fin 1; Fin 2] [false; true] = Ok result ∧
            length result = 2.
Proof.
  split_and!.
  - by apply (density_scores_outcome [Fin 1; Fin 2] [true]).
  - apply (density_scores_outcome [Fin 1; Fin 2] [false; false]); [done|].
    rewrite !not_elem_of_cons. split_and!; [done|done|apply not_elem_of_nil].
  - apply (density_scores_outcome [Fin 1; Fin 2] [false; true]); [done|].
    rewrite !elem_of_cons. auto.
Defined.

(** ** Fine-tune loop: invariants *)

Lemma fgeb_false_not_fltb (x y : float) :
  fgeb x y = false → fltb y x = false.
Proof.
  destruct x as [| |a|], y as [| |b|]; try done.
  unfold fgeb. simpl. unfold Qlt_bool. intros Hle.
  apply negb_false_iff.
  destruct (Qle_bool_total a b) as [?|?]; [done|congruence].
Qed.

Lemma fgeb_fltb_trans (x y z : float) :
  fgeb y x = true → fltb x z = false → fltb y z = false.
Proof.
  destruct x as [| |a|], y as [| |b|], z as [| |c|]; try done.
  unfold fgeb. simpl. unfold Qlt_bool.
  rewrite !negb_false_iff. intros ? ?. by eapply Qle_bool_trans.
Qed.

Lemma fgeb_fgeb_false_trans (x y z : float) :
  fgeb y x = true → fgeb z x = false → fgeb z y = false.
Proof.
  destruct x as [| |a|], y as [| |b|], z as [| |c|]; try done.
  unfold fgeb. simpl. intros Hab Hac.
  destruct (Qle_bool b c) eqn:Hbc; [|done].
  by rewrite (Qle_bool_trans _ _ _ Hab Hbc) in Hac.
Qed.

Lemma fgeb_not_nan (x y : float) : fgeb x y = true → isnan x = false.
Proof. by destruct x, y. Qed.

Lemma evaluated_steps_S (n : nat) :
  evaluated_steps (S n) =
  evaluated_steps n ++ (if decide (S n `mod` 5 = 0) then [S n] else []).
Proof.
  unfold evaluated_steps. by rewrite seq_S, filter_app.
Qed.

Lemma elem_of_evaluated_steps (n s : nat) :
  s ∈ evaluated_steps n ↔ s `mod` 5 = 0 ∧ 1 ≤ s ≤ n.
Proof.
  unfold evaluated_steps. rewrite list_elem_of_filter, elem_of_seq. lia.
Qed.

Lemma mod5_ge (s : nat) : s `mod` 5 = 0 → 1 ≤ s → 5 ≤ s.
Proof.
  intros Hmod Hs. destruct s as [|[|[|[|[|s]]]]]; [lia|done..|lia].
Qed.

Ltac loop_simpl :=
  cbn [fst snd opt_repl rngs_loop best_opt_accuracy best_step best_opt_repl
       train_accuracies val_accuracies current_step] in *.

Lemma loop_items_lookup {Batch} (lr_fn : nat → Q) (ds : list Batch)
    (total_steps n : nat) (item : nat * Batch * Q) :
  loop_items lr_fn ds total_steps !! n = Some item → item.1.1 = S n.
Proof.
  unfold loop_items. intros Hi.
  apply lookup_zip_with_Some in Hi as (sb & lr & -> & Hsb & _).
  apply lookup_zip_with_Some in Hsb as (s & b & -> & Hs & _).
  apply lookup_seq in Hs as [-> _]. done.
Qed.

Lemma loop_items_length {Batch} (lr_fn : nat → Q) (ds : list Batch)
    (total_steps : nat) :
  length (loop_items lr_fn ds total_steps) = total_steps `min` length ds.
Proof.
  unfold loop_items.
  rewrite !length_zip_with, length_fmap, !length_seq. lia.
Qed.

Section FinetuneInvariant.

Context {Opt Rng Batch : Type}.
Variable update_fn : Opt → Q → Batch → Rng → Opt * Rng.
Variable evaluation_fn : Opt → Batch → float * float.
Variables (train_eval_ds val_ds : list Batch).
Variable early_stopping_patience : nat.
Variables (opt : Opt) (rng : Rng).
Variable items : list (nat * Batch * Q).
Hypothesis items_steps : ∀ n item, items !! n = Some item → item.1.1 = S n.

Local Abbreviation body := (loop_body update_fn evaluation_fn train_eval_ds val_ds
                    early_stopping_patience).
Local Abbreviation run := (run_loop update_fn evaluation_fn train_eval_ds val_ds
                   early_stopping_patience).
Local Abbreviation inv := (loop_invariant update_fn evaluation_fn opt rng items
                   train_eval_ds val_ds).
Local Abbreviation snap := (snapshot update_fn opt rng items).
Local Abbreviation val_accuracy_of o := (get_accuracy evaluation_fn o val_ds).

Lemma apply_updates_take_S (n : nat) (item : nat * Batch * Q) :
  items !! n = Some item →
  apply_updates update_fn opt rng (take (S n) items) =
  update_fn (apply_updates update_fn opt rng (take n items)).1 item.2 item.1.2
    (apply_updates update_fn opt rng (take n items)).2.
Proof.
  intros Hi. rewrite (take_S_r _ _ _ Hi).
  unfold apply_updates. by rewrite foldl_app.
Qed.

Lemma initial_state_invariant : inv 0 (initial_state opt rng).
Proof.
  unfold loop_invariant, initial_state, snapshot. simpl.
  split_and!; try done. intros s a Hin. by apply elem_of_nil in Hin.
Qed.

(** One iteration carries the invariant to the next step; when it ends in
    [break], the step is an evaluation step whose accuracy was not accepted
    and lies at least the patience after the best step. *)
Lemma loop_body_invariant (n : nat) (st : loop_state)
    (item : nat * Batch * Q) :
  items !! n = Some item → inv n st →
  inv (S n) (body st item).1 ∧
  ((body st item).2 = true →
     S n `mod` 5 = 0 ∧
     early_stopping_patience ≤ S n - best_step (body st item).1 ∧
     fgeb (val_accuracy_of (snap (S n)))
          (best_opt_accuracy (body st item).1) = false).
Proof.
  intros Hi (Hcur & Hopt & Hrng & Hnan & Hbest & Htrain & Hval & Hmax).
  pose proof (items_steps n item Hi) as Hstep.
  pose proof (apply_updates_take_S n item Hi) as Hupd.
  assert (snap (S n) = (update_fn (opt_repl st) item.2 item.1.2
                          (rngs_loop st)).1) as Hsnap.
  { unfold snapshot. by rewrite Hupd, Hopt, Hrng. }
  assert ((apply_updates update_fn opt rng (take (S n) items)).2
          = (update_fn (opt_repl st) item.2 item.1.2 (rngs_loop st)).2)
    as Hrng'.
  { by rewrite Hupd, Hopt, Hrng. }
  unfold loop_body. rewrite Hstep.
  set (updated := update_fn (opt_repl st) item.2 item.1.2 (rngs_loop st))
    in *.
  case_decide as Hmod; loop_simpl.
  - destruct (fgeb (val_accuracy_of updated.1) (best_opt_accuracy st))
      eqn:Hge; loop_simpl.
    + split; [|done].
      unfold loop_invariant. loop_simpl.
      split_and!; try done.
      * by eapply fgeb_not_nan.
      * apply mod5_ge; [done|lia].
      * unfold recorded. rewrite evaluated_steps_S, decide_True by done.
        rewrite fmap_app. by rewrite Htrain, <- Hsnap.
      * unfold recorded. rewrite evaluated_steps_S, decide_True by done.
        rewrite fmap_app. by rewrite Hval, <- Hsnap.
      * intros s a [Hin|Hin]%elem_of_app.
        -- destruct (Hmax s a Hin) as [Hlt _]. split.
           ++ by eapply fgeb_fltb_trans.
           ++ intros Hs. rewrite Hval in Hin. unfold recorded in Hin.
              apply list_elem_of_fmap in Hin as (s' & [= -> _] & Hs').
              apply elem_of_evaluated_steps in Hs'. lia.
        -- apply list_elem_of_singleton in Hin as [= -> ->]. split; [|lia].
           apply fgeb_not_nan in Hge.
           destruct (val_accuracy_of updated.1) as [| |q|]; try done.
           simpl. unfold Qlt_bool. apply negb_false_iff, Qle_bool_iff.
           apply Qle_refl.
    + split.
      * unfold loop_invariant. loop_simpl.
        split_and!; try done.
        -- destruct (best_opt_repl st); [|done].
           destruct Hbest as (? & ? & ? & ?). split_and!; [done|lia..|done|done].
        -- unfold recorded. rewrite evaluated_steps_S, decide_True by done.
           rewrite fmap_app. by rewrite Htrain, <- Hsnap.
        -- unfold recorded. rewrite evaluated_steps_S, decide_True by done.
           rewrite fmap_app. by rewrite Hval, <- Hsnap.
        -- intros s a [Hin|Hin]%elem_of_app; [by apply Hmax|].
           apply list_elem_of_singleton in Hin as [= -> ->].
           split; [by apply fgeb_false_not_fltb|done].
      * intros Hstop%bool_decide_eq_true. by rewrite Hsnap.
  - split; [|done].
    unfold loop_invariant. loop_simpl.
    split_and!; try done.
    + destruct (best_opt_repl st); [|done].
      destruct Hbest as (? & ? & ? & ?). split_and!; [done|lia..|done|done].
    + unfold recorded. rewrite evaluated_steps_S, decide_False by done.
      by rewrite app_nil_r.
    + unfold recorded. rewrite evaluated_steps_S, decide_False by done.
      by rewrite app_nil_r.
Qed.

(** The loop from any point: it is left after [n'] iterations with the
    invariant, and before the items are exhausted only by [break]. *)
Lemma run_loop_invariant (suffix : list (nat * Batch * Q)) : ∀ n st,
  drop n items = suffix → n ≤ length items → inv n st →
  ∃ n', n ≤ n' ≤ length items ∧ inv n' (run st suffix) ∧
    (n' < length items →
       n < n' ∧ n' `mod` 5 = 0 ∧
       early_stopping_patience ≤ n' - best_step (run st suffix) ∧
       fgeb (val_accuracy_of (snap n'))
            (best_opt_accuracy (run st suffix)) = false).
Proof.
  induction suffix as [|item suffix IH]; intros n st Hdrop Hn Hinv.
  - apply drop_nil_inv in Hdrop. exists n. split_and!; [lia..|done|lia].
  - assert (items !! n = Some item) as Hi.
    { rewrite <- (Nat.add_0_r n), <- lookup_drop, Hdrop. done. }
    assert (drop (S n) items = suffix) as Hdrop'.
    { rewrite (drop_S _ _ _ Hi) in Hdrop. by injection Hdrop. }
    pose proof (lookup_lt_Some _ _ _ Hi) as Hlt.
    destruct (loop_body_invariant n st item Hi Hinv) as [Hinv' Hstop].
    simpl. destruct (body st item) as [st' stop] eqn:Ebody. simpl in *.
    destruct stop.
    + exists (S n). split_and!; [lia..|done|]. intros _.
      split; [lia|by apply Hstop].
    + destruct (IH (S n) st' Hdrop' ltac:(lia) Hinv')
        as (n' & Hn' & Hinv'' & Hearly).
      exists n'. split_and!; [lia..|done|]. intros Hlt'.
      destruct (Hearly Hlt') as (? & ?). split; [lia|done].
Qed.

End FinetuneInvariant.

Section FinetuneOutcomes.

Context {Opt Rng Batch : Type}.
Variable update_fn : Opt → Q → Batch → Rng → Opt * Rng.
Variable evaluation_fn : Opt → Batch → float * float.
Variables (train_eval_ds val_ds : list Batch).
Variable early_stopping_patience : nat.

Local Abbreviation val_accuracy_of o := (get_accuracy evaluation_fn o val_ds).
Local Abbreviation loop := (finetune_loop update_fn evaluation_fn train_eval_ds
                    val_ds early_stopping_patience).

(** The state in which the loop of [finetune] is left. *)
Lemma finetune_loop_invariant (opt : Opt) (lr_fn : nat → Q) (ds : list Batch)
    (rng : Rng) (total_steps : nat) :
  let items := loop_items lr_fn ds total_steps in
  let st := loop opt lr_fn ds rng total_steps in
  ∃ n, n ≤ total_steps `min` length ds ∧
    loop_invariant update_fn evaluation_fn opt rng items train_eval_ds val_ds
      n st ∧
    (n < total_steps `min` length ds →
       0 < n ∧ n `mod` 5 = 0 ∧
       early_stopping_patience ≤ n - best_step st ∧
       fgeb (val_accuracy_of (snapshot update_fn opt rng items n))
            (best_opt_accuracy st) = false).
Proof.
  intros items st.
  destruct (run_loop_invariant update_fn evaluation_fn train_eval_ds val_ds
              early_stopping_patience opt rng items
              (loop_items_lookup lr_fn ds total_steps) items 0
              (initial_state opt rng) eq_refl ltac:(lia)
              (initial_state_invariant update_fn evaluation_fn train_eval_ds
                 val_ds opt rng items))
    as (n & Hn & Hinv & Hearly).
  unfold items in Hn, Hearly. rewrite loop_items_length in Hn, Hearly.
  exists n. split_and!; [lia|done|done].
Qed.

(** C10.  [finetune] fails with UnboundLocalError, instead of returning the
    initial or the last parameters, exactly when none of the validation
    accuracies that the run recorded at its evaluation steps compared
    [>= -1], the initial best accuracy: no evaluation step bound
    [best_opt_repl].  This is so in particular when the optimizer compares
    below -1 or as NaN at every multiple of 5 among the steps of the loop,
    and when the loop has fewer than 5 iterations, because [total_steps] or
    the number of training batches is below 5.  [finetune] raises no other
    error. *)
Theorem finetune_unbound_best (opt : Opt) (lr_fn : nat → Q)
    (ds : list Batch) (rng : Rng) (total_steps : nat) :
  let items := loop_items lr_fn ds total_steps in
  let st := loop opt lr_fn ds rng total_steps in
  let outcome :=
    finetune update_fn evaluation_fn train_eval_ds val_ds
      early_stopping_patience opt lr_fn ds rng total_steps in
  (outcome = Err UnboundLocalError ↔
   ∀ s a, (s, a) ∈ val_accuracies st → fgeb a (Fin (-1)) = false) ∧
  ((∀ s, s `mod` 5 = 0 → 5 ≤ s ≤ total_steps `min` length ds →
      fgeb (val_accuracy_of (snapshot update_fn opt rng items s)) (Fin (-1))
      = false) →
   outcome = Err UnboundLocalError) ∧
  (total_steps < 5 ∨ length ds < 5 → outcome = Err UnboundLocalError) ∧
  (∀ e, outcome = Err e → e = UnboundLocalError).
Proof.
  intros items st outcome.
  destruct (finetune_loop_invariant opt lr_fn ds rng total_steps)
    as (n & Hn & Hinv & _).
  fold items st in Hinv.
  destruct Hinv as (_ & _ & _ & _ & Hbest & _ & Hval & Hmax).
  assert (fgeb (best_opt_accuracy st) (Fin (-1)) = true) as Habove.
  { unfold st, finetune_loop. by apply run_loop_best_above. }
  assert (outcome = Err UnboundLocalError ↔ best_opt_repl st = None)
    as Houtcome.
  { unfold outcome, finetune. fold st. by destruct (best_opt_repl st). }
  assert (outcome = Err UnboundLocalError ↔
          ∀ s a, (s, a) ∈ val_accuracies st → fgeb a (Fin (-1)) = false)
    as Hiff.
  { rewrite Houtcome. split.
    - intros Hnone s a Hin. rewrite Hnone in Hbest.
      destruct Hbest as [Hacc Hstep].
      destruct (Hmax s a Hin) as [_ Hlater]. rewrite <- Hacc.
      apply Hlater. rewrite Hstep.
      rewrite Hval in Hin. unfold recorded in Hin.
      apply list_elem_of_fmap in Hin as (s' & [= -> _] & Hs').
      apply elem_of_evaluated_steps in Hs' as [Hmod Hrange].
      pose proof (mod5_ge s' Hmod). lia.
    - intros Hrejected.
      destruct (best_opt_repl st) as [best|] eqn:Eb; [|done].
      destruct Hbest as (Hmod & Hrange & Hsnap & Hacc).
      rewrite (Hrejected (best_step st) (best_opt_accuracy st)) in Habove;
        [done|].
      rewrite Hval. unfold recorded. apply list_elem_of_fmap.
      exists (best_step st). split.
      + by rewrite Hacc, Hsnap.
      + apply elem_of_evaluated_steps. lia. }
  assert ((∀ s, s `mod` 5 = 0 → 5 ≤ s ≤ total_steps `min` length ds →
             fgeb (val_accuracy_of (snapshot update_fn opt rng items s))
               (Fin (-1)) = false) →
          outcome = Err UnboundLocalError) as Hsteps.
  { intros Hrejected. apply Hiff. intros s a Hin.
    rewrite Hval in Hin. unfold recorded in Hin.
    apply list_elem_of_fmap in Hin as (s' & [= -> ->] & Hs').
    apply elem_of_evaluated_steps in Hs' as [Hmod Hrange].
    pose proof (mod5_ge s' Hmod).
    apply Hrejected; [done|lia]. }
  split_and!; [done|done| |].
  - intros Hshort. apply Hsteps. intros s _ Hs. lia.
  - intros e. unfold outcome, finetune.
    destruct (best_opt_repl _); [done|]. by intros [= <-].
Qed.

(** X10.  When [finetune] returns, the optimizer it returns is the one
    obtained after exactly [best_step] updates; [best_step] is a multiple of
    5 within the steps of the loop; [best_val_accuracy] is the validation
    accuracy of that optimizer and is among the recorded ones; no recorded
    validation accuracy is greater, and every accuracy recorded after
    [best_step] is lower or NaN (of equal accuracies the latest wins). *)
Theorem finetune_returns_best_snapshot (opt : Opt) (lr_fn : nat → Q)
    (ds : list Batch) (rng : Rng) (total_steps : nat)
    (best : Opt) (rng' : Rng) (info : finetune_info) :
  finetune update_fn evaluation_fn train_eval_ds val_ds
    early_stopping_patience opt lr_fn ds rng total_steps
  = Ok (best, rng', info) →
  let items := loop_items lr_fn ds total_steps in
  info_best_step info `mod` 5 = 0 ∧
  5 ≤ info_best_step info ≤ total_steps `min` length ds ∧
  best = (apply_updates update_fn opt rng
            (take (info_best_step info) items)).1 ∧
  info_best_val_accuracy info = val_accuracy_of best ∧
  (info_best_step info, info_best_val_accuracy info)
    ∈ info_val_accuracies info ∧
  ∀ s a, (s, a) ∈ info_val_accuracies info →
    fltb (info_best_val_accuracy info) a = false ∧
    (info_best_step info < s →
       fgeb a (info_best_val_accuracy info) = false).
Proof.
  intros Hret items. unfold finetune in Hret.
  destruct (finetune_loop_invariant opt lr_fn ds rng total_steps)
    as (n & Hn & Hinv & _).
  destruct Hinv as (_ & _ & _ & _ & Hbest & _ & Hval & Hmax).
  destruct (best_opt_repl _) as [b|] eqn:Eb; [|done].
  injection Hret as <- <- <-. cbn [info_best_step info_best_val_accuracy
                                     info_val_accuracies].
  destruct Hbest as (Hmod & Hrange & Hsnap & Hacc).
  split_and!; [done|lia|lia|done|done| |done].
  rewrite Hval. unfold recorded. apply list_elem_of_fmap.
  exists (best_step (loop opt lr_fn ds rng total_steps)). split.
  - by rewrite Hacc, Hsnap.
  - apply elem_of_evaluated_steps. lia.
Qed.

(** X11.  When the loop of [finetune] is left after [n] iterations, [n] is
    at most [total_steps] and at most the number of training batches, the
    optimizer and the random state are those after exactly [n] updates, and
    the recorded train and validation accuracies are those of the optimizer
    at each multiple of 5 up to [n], in increasing order of the step. *)
Theorem finetune_loop_schedule (opt : Opt) (lr_fn : nat → Q)
    (ds : list Batch) (rng : Rng) (total_steps : nat) :
  let items := loop_items lr_fn ds total_steps in
  let st := loop opt lr_fn ds rng total_steps in
  let n := current_step st in
  n ≤ total_steps `min` length ds ∧
  (opt_repl st, rngs_loop st) = apply_updates update_fn opt rng (take n items) ∧
  train_accuracies st =
    (λ s, (s, get_accuracy evaluation_fn
                (apply_updates update_fn opt rng (take s items)).1
                train_eval_ds))
      <$> filter (λ s, s `mod` 5 = 0) (seq 1 n) ∧
  val_accuracies st =
    (λ s, (s, val_accuracy_of
                (apply_updates update_fn opt rng (take s items)).1))
      <$> filter (λ s, s `mod` 5 = 0) (seq 1 n).
Proof.
  intros items st n.
  destruct (finetune_loop_invariant opt lr_fn ds rng total_steps)
    as (n' & Hn & Hinv & _).
  destruct Hinv as (Hcur & Hopt & Hrng & _ & _ & Htrain & Hval & _).
  fold st in Hcur, Hopt, Hrng, Htrain, Hval. fold items in Hopt, Hrng.
  subst n. rewrite Hcur. split_and!; [done| |done|done].
  rewrite Hopt, Hrng. unfold snapshot.
  by destruct (apply_updates update_fn opt rng (take n' items)).
Qed.

(** X12.  The loop of [finetune] is left before the steps or the training
    batches are exhausted only by the early-stopping [break]: at a step that
    is a multiple of 5, whose validation accuracy was not accepted as best,
    and that lies at least [early_stopping_patience] after [best_step]. *)
Theorem finetune_early_exit_only_on_patience (opt : Opt) (lr_fn : nat → Q)
    (ds : list Batch) (rng : Rng) (total_steps : nat) :
  let st := loop opt lr_fn ds rng total_steps in
  current_step st < total_steps `min` length ds →
  current_step st `mod` 5 = 0 ∧
  0 < current_step st ∧
  early_stopping_patience ≤ current_step st - best_step st ∧
  fgeb (val_accuracy_of (opt_repl st)) (best_opt_accuracy st) = false.
Proof.
  intros st Hlt.
  destruct (finetune_loop_invariant opt lr_fn ds rng total_steps)
    as (n & Hn & Hinv & Hearly).
  destruct Hinv as (Hcur & Hopt & _).
  fold st in Hcur, Hopt, Hearly. rewrite Hcur in *.
  destruct (Hearly Hlt) as (Hpos & Hmod & Hpat & Hrej).
  split_and!; [done|done|done|by rewrite Hopt].
Qed.

(** X13.  With a patience of at least [total_steps] the early-stopping
    [break] never fires: the loop performs [total_steps] updates, or as many
    as there are training batches when those are fewer. *)
Theorem finetune_patience_covers_all_steps (opt : Opt) (lr_fn : nat → Q)
    (ds : list Batch) (rng : Rng) (total_steps : nat) :
  total_steps ≤ early_stopping_patience →
  let st := loop opt lr_fn ds rng total_steps in
  current_step st = total_steps `min` length ds ∧
  (opt_repl st, rngs_loop st)
  = apply_updates update_fn opt rng (loop_items lr_fn ds total_steps).
Proof.
  intros Hpat st.
  destruct (finetune_loop_invariant opt lr_fn ds rng total_steps)
    as (n & Hn & Hinv & Hearly).
  destruct Hinv as (Hcur & Hopt & Hrng & _ & Hbest & _).
  fold st in Hcur, Hopt, Hrng, Hbest, Hearly.
  assert (1 ≤ best_step st) as Hstep.
  { destruct (best_opt_repl st).
    - destruct Hbest as (_ & ? & _). lia.
    - destruct Hbest as [_ ->]. lia. }
  assert (n = total_steps `min` length ds) as Hall.
  { destruct (decide (n < total_steps `min` length ds)) as [Hlt|]; [|lia].
    destruct (Hearly Hlt) as (_ & _ & ? & _). lia. }
  split; [lia|].
  rewrite Hopt, Hrng. unfold snapshot.
  rewrite take_ge by (rewrite loop_items_length; lia).
  symmetry. apply surjective_pairing.
Qed.

(** X14.  The accuracy over a dataset without batches is NaN (0 / 0), and so
    with an empty validation set no evaluation is ever accepted as best:
    [finetune] raises UnboundLocalError whatever the other arguments. *)
Theorem finetune_empty_validation_set (opt : Opt) (lr_fn : nat → Q)
    (ds : list Batch) (rng : Rng) (total_steps : nat) :
  (∀ o, get_accuracy evaluation_fn o [] = NaN) ∧
  finetune update_fn evaluation_fn train_eval_ds [] early_stopping_patience
    opt lr_fn ds rng total_steps
  = Err UnboundLocalError.
Proof.
  split; [done|].
  unfold finetune, finetune_loop.
  by rewrite run_loop_never_best; [|done|done|right].
Qed.

End FinetuneOutcomes.

Lemma finetune_unbound_best_witness :
  finetune demo_update_fn demo_evaluation_fn [()] [()] 2 0 demo_lr_fn
    (replicate 3 ()) 0 10 = Err UnboundLocalError ∧
  finetune demo_update_fn demo_evaluation_fn [()] [] 2 0 demo_lr_fn
    (replicate 10 ()) 0 10 = Err UnboundLocalError.
Proof.
  split.
  - apply (finetune_unbound_best demo_update_fn demo_evaluation_fn
             [()] [()] 2 0 demo_lr_fn (replicate 3 ()) 0 10).
    right. simpl. lia.
  - apply (proj1 (finetune_unbound_best demo_update_fn demo_evaluation_fn
                    [()] [] 2 0 demo_lr_fn (replicate 10 ()) 0 10)).
    intros s a Hin. vm_compute in Hin.
    apply list_elem_of_singleton in Hin. by injection Hin as -> ->.
Defined.

Lemma finetune_returns_best_snapshot_witness :
  demo_finetune 2 10 = Ok (5, 10, demo_finetune_info) ∧
  5 `mod` 5 = 0 ∧
  5 ≤ 5 ≤ 10 `min` length (replicate 10 ()) ∧
  5 = (apply_updates demo_update_fn 0 0
         (take 5 (loop_items demo_lr_fn (replicate 10 ()) 10))).1 ∧
  info_best_val_accuracy demo_finetune_info
  = get_accuracy demo_evaluation_fn 5 [()] ∧
  (5, info_best_val_accuracy demo_finetune_info)
    ∈ info_val_accuracies demo_finetune_info ∧
  ∀ s a, (s, a) ∈ info_val_accuracies demo_finetune_info →
    fltb (info_best_val_accuracy demo_finetune_info) a = false ∧
    (5 < s → fgeb a (info_best_val_accuracy demo_finetune_info) = false).
Proof.
  split; [by vm_compute|].
  apply (finetune_returns_best_snapshot demo_update_fn demo_evaluation_fn
           [()] [()] 2 0 demo_lr_fn (replicate 10 ()) 0 10 5 10
           demo_finetune_info).
  by vm_compute.
Defined.

Lemma finetune_early_exit_only_on_patience_witness :
  let st := finetune_loop demo_update_fn demo_evaluation_fn [()] [()] 2 0
              demo_lr_fn (replicate 20 ()) 0 20 in
  current_step st = 10 ∧
  best_step st = 5 ∧
  current_step st `mod` 5 = 0 ∧
  0 < current_step st ∧
  2 ≤ current_step st - best_step st ∧
  fgeb (get_accuracy demo_evaluation_fn (opt_repl st) [()])
       (best_opt_accuracy st) = false.
Proof.
  split; [reflexivity|]. split; [reflexivity|].
  apply (finetune_early_exit_only_on_patience demo_update_fn
           demo_evaluation_fn [()] [()] 2 0 demo_lr_fn (replicate 20 ()) 0 20).
  vm_compute. lia.
Defined.

Lemma finetune_patience_covers_all_steps_witness :
  let st := finetune_loop demo_update_fn demo_evaluation_fn [()] [()] 20 0
              demo_lr_fn (replicate 30 ()) 0 20 in
  current_step st = 20 `min` 30 ∧
  (opt_repl st, rngs_loop st)
  = apply_updates demo_update_fn 0 0 (loop_items demo_lr_fn (replicate 30 ()) 20).
Proof.
  apply (finetune_patience_covers_all_steps demo_update_fn demo_evaluation_fn
           [()] [()] 20 0 demo_lr_fn (replicate 30 ()) 0 20).
  lia.
Defined.

(** ** Accuracy *)

Lemma foldl_fadd_counts (l : list (float * float)) :
  Forall counts_in_range l →
  ∀ ac an, Qle 0 ac → Qle ac an →
  ∃ c n,
    foldl fadd (Fin ac) (fst <$> l) = Fin c ∧
    foldl fadd (Fin an) (snd <$> l) = Fin n ∧
    Qle 0 c ∧ Qle c n ∧
    (Qeq n 0 ↔ Qeq an 0 ∧ Forall (λ p, has_value 0 p.2) l).
Proof.
  induction 1 as [|p l (c1 & n1 & -> & Hc1 & Hn1) _ IH]; intros ac an Hac Han.
  - exists ac, an. split_and!; try done. split; [by intros ?|by intros [? _]].
  - destruct (IH (ac + c1)%Q (an + n1)%Q) as (c & n & Ec & En & Hc & Hn & Hz).
    { lra. }
    { lra. }
    exists c, n. simpl. split_and!; try done.
    rewrite Hz, Forall_cons. simpl. split.
    + intros [Hsum Hall]. split_and!; [lra| |done].
      exists n1. split; [done|lra].
    + intros (Ha & (q & [= <-] & Hq) & Hall). split; [lra|done].
Qed.

Section AccuracyProofs.

Context {Opt Batch : Type}.
Variable evaluation_fn : Opt → Batch → float * float.

(** X15.  When every batch is evaluated to finite counts with
    [0 <= ncorrect <= n], the accuracy is NaN exactly when no batch has seen
    an example ([n = 0] everywhere: the division is 0 / 0), and otherwise a
    finite number between 0 and 1. *)
Theorem get_accuracy_range (opt : Opt) (ds : list Batch) :
  Forall (λ b, counts_in_range (evaluation_fn opt b)) ds →
  (get_accuracy evaluation_fn opt ds = NaN ↔
   Forall (λ b, has_value 0 (evaluation_fn opt b).2) ds) ∧
  (get_accuracy evaluation_fn opt ds = NaN ∨
   ∃ q, get_accuracy evaluation_fn opt ds = Fin q ∧ Qle 0 q ∧ Qle q 1).
Proof.
  intros Hall. unfold get_accuracy, fsum, fzero.
  destruct (foldl_fadd_counts (evaluation_fn opt <$> ds)) with (ac := 0%Q)
    (an := 0%Q) as (c & n & -> & -> & Hc & Hn & Hz); [|lra|lra|].
  { by apply Forall_fmap. }
  rewrite Forall_fmap in Hz. simpl.
  destruct (Qeq_bool n 0) eqn:En.
  - apply Qeq_bool_iff in En.
    assert (Qeq_bool c 0 = true) as -> by (apply Qeq_bool_iff; lra).
    split; [|by left]. split; [intros _|done]. by apply Hz.
  - assert (¬ Qeq n 0) as Hne.
    { intros Hq%Qeq_bool_iff. congruence. }
    split.
    + split; [done|]. intros Hzero. destruct Hne. apply Hz. done.
    + right. eexists. split; [done|].
      assert (Qlt 0 n) as Hpos by lra. split.
      * apply Qle_shift_div_l; [done|lra].
      * apply Qle_shift_div_r; [done|lra].
Qed.

End AccuracyProofs.

Lemma get_accuracy_range_witness :
  (get_accuracy demo_evaluation_fn 3 [(); ()] = NaN ↔
   Forall (λ b, has_value 0 (demo_evaluation_fn 3 b).2) [(); ()]) ∧
  (get_accuracy demo_evaluation_fn 3 [(); ()] = NaN ∨
   ∃ q, get_accuracy demo_evaluation_fn 3 [(); ()] = Fin q ∧
        Qle 0 q ∧ Qle q 1).
Proof.
  apply (get_accuracy_range demo_evaluation_fn 3 [(); ()]).
  repeat constructor; exists (inject_Z 8), 10%Q; by vm_compute.
Defined.

(** ** Controller: what a round and a run do *)

Lemma take_along_length {A} (a : list A) (idx : list nat) (xs : list A) :
  take_along a idx = Ok xs → length xs = length idx ∧ Forall (λ x, x ∈ a) xs.
Proof.
  intros H%take_along_Forall2. split.
  - symmetry. by eapply Forall2_length.
  - apply Forall_lookup. intros j x Hx.
    destruct (Forall2_lookup_r _ _ _ _ _ H Hx) as (i & _ & Hi).
    by eapply list_elem_of_lookup_2.
Qed.

(** Whatever [argpartition] answers, a selection that returns gives at most
    [acquisition_batch_size] ids, all of them ids of the pool. *)
Lemma select_at_most (argpartition : list float → nat → list nat) (k : nat)
    (scores : list float) (ids ignored : list Z) (top_ids : list Z)
    (top_scores : list float) :
  select_acquisition_batch_indices argpartition k scores ids ignored
    = Ok (top_ids, top_scores) →
  length top_ids ≤ k ∧ Forall (λ x, x ∈ ids) top_ids.
Proof.
  unfold select_acquisition_batch_indices.
  intros (scores1 & _ & Hrest)%bind_Ok.
  apply bind_Ok in Hrest as ([] & _ & Hrest).
  apply bind_Ok in Hrest as (p & _ & Hrest).
  apply bind_Ok in Hrest as (tids & Hids & Hrest).
  apply bind_Ok in Hrest as (tscores & _ & [= <- <-]).
  apply take_along_length in Hids as [-> Hin]. split; [|done].
  rewrite length_take. lia.
Qed.

Lemma size_list_to_set_le (l : list Z) :
  size (list_to_set l : gset Z) ≤ length l.
Proof.
  induction l as [|x l IH]; [by rewrite list_to_set_nil, size_empty|].
  rewrite list_to_set_cons, size_union_alt, size_singleton.
  assert (list_to_set l ∖ {[x]} ⊆@{gset Z} list_to_set l) as Hsub
    by (by intros y [Hy _]%elem_of_difference).
  apply subseteq_size in Hsub. simpl. lia.
Qed.

Lemma size_union_le (X Y : gset Z) : size (X ∪ Y) ≤ size X + size Y.
Proof.
  rewrite size_union_alt.
  assert (Y ∖ X ⊆ Y) as Hsub by (by intros y [Hy _]%elem_of_difference).
  apply subseteq_size in Hsub. lia.
Qed.

Section ControllerOutcomes.

Context {Opt Rng Key Image : Type}.
Variable env : collaborators Opt Rng Key Image.
Variable cfg : config.

(** The state a round returns: the selected ids are added, one test accuracy
    and one size are recorded, and the stages entered are logged. *)
Lemma round_Returned_inv (st st' : controller_state) :
  round env cfg st = Returned st' →
  ∃ top_ids accuracy,
    subset_ids st' = subset_ids st ∪ list_to_set top_ids ∧
    length top_ids ≤ cfg_acquisition_batch_size cfg ∧
    Forall (λ x, x ∈ pool_ids_of env) top_ids ∧
    test_accuracies st' = test_accuracies st ++ [accuracy] ∧
    training_sizes st' = training_sizes st ++ [size (subset_ids st)].
Proof.
  unfold round.
  destruct (decide (0 < size (subset_ids st)));
    [destruct (finetune_stage env cfg st) as [[o r]|]|];
    cbn zeta beta iota; try done;
    (destruct (get_ids_logits_masks _ _ _ _)
       as [[[[pids pout] plab] pmask]|] eqn:Epool; [|done]);
    (destruct (scoring_stage _ _ _ _ _ _) as [[rng' scores]|]; [|done]);
    (destruct (select_acquisition_batch_indices _ _ _ _ _)
       as [[top_ids top_scores]|] eqn:Esel; [|done]);
    intros [= <-]; cbn;
    apply select_at_most in Esel as [Hlen Hin];
    apply get_ids_logits_masks_pool in Epool as (Hids & _);
    rewrite Hids in Hin;
    by eexists _, _.
Qed.

(** X16.  A round that returns adds at most [acquisition_batch_size] ids to
    the labeled subset, all of them ids of the pool, removes none, and
    records exactly one test accuracy and the size of the labeled subset it
    started from. *)
Theorem round_adds_at_most_batch_size (st st' : controller_state) :
  round env cfg st = Returned st' →
  subset_ids st ⊆ subset_ids st' ∧
  subset_ids st' ⊆ subset_ids st ∪ list_to_set (pool_ids_of env) ∧
  size (subset_ids st') ≤
    size (subset_ids st) + cfg_acquisition_batch_size cfg ∧
  length (test_accuracies st') = S (length (test_accuracies st)) ∧
  training_sizes st' = training_sizes st ++ [size (subset_ids st)].
Proof.
  intros (top_ids & accuracy & -> & Hlen & Hin & Hacc & Hsizes)
    %round_Returned_inv.
  split_and!.
  - apply union_subseteq_l.
  - apply union_mono_l. intros x Hx%elem_of_list_to_set.
    apply elem_of_list_to_set. rewrite Forall_forall in Hin. by apply Hin.
  - etrans; [apply size_union_le|].
    pose proof (size_list_to_set_le top_ids). lia.
  - rewrite Hacc, length_app. simpl. lia.
  - done.
Qed.

(** What holds of the state between rounds: every recorded size is below
    the cap and at most the current size, the sizes are in non-decreasing
    order, and there is one test accuracy per recorded size. *)
Lemma round_preserves_records (st st' : controller_state) :
  size (subset_ids st) < cfg_max_training_set_size cfg →
  round env cfg st = Returned st' →
  recorded_rounds cfg st → recorded_rounds cfg st'.
Proof.
  intros Hlt Hround (Hlen & Hcap & Hle & Hsorted & Hlast).
  pose proof Hround as (top_ids & accuracy & Hsub & Hk & _ & Hacc & Hsizes)
    %round_Returned_inv.
  assert (size (subset_ids st) ≤ size (subset_ids st')) as Hgrow.
  { apply subseteq_size. rewrite Hsub. apply union_subseteq_l. }
  unfold recorded_rounds. rewrite Hacc, Hsizes. split_and!.
  - rewrite !length_app. simpl. lia.
  - apply Forall_app. split; [done|]. by repeat constructor.
  - apply Forall_app. split.
    + eapply Forall_impl; [done|]. simpl. lia.
    + by repeat constructor.
  - apply StronglySorted_app_2; [|done|by repeat constructor].
    intros x y Hx ->%list_elem_of_singleton.
    rewrite Forall_forall in Hle. by apply Hle.
  - right. rewrite Hsub, last_snoc. split; [|done].
    etrans; [apply size_union_le|].
    pose proof (size_list_to_set_le top_ids). simpl. lia.
Qed.

Lemma rounds_records (fuel : nat) : ∀ st st',
  rounds env cfg fuel st = Some (Returned st') →
  recorded_rounds cfg st →
  recorded_rounds cfg st' ∧
  cfg_max_training_set_size cfg ≤ size (subset_ids st') ∧
  length (training_sizes st') < length (training_sizes st) + fuel.
Proof.
  induction fuel as [|fuel IH]; intros st st' Hrun Hrec; [done|].
  rewrite rounds_S in Hrun. case_decide as Hcap.
  - injection Hrun as <-. split_and!; [done|done|lia].
  - destruct (round env cfg st) as [st1|] eqn:Hround; [|done].
    destruct (IH st1 st' Hrun) as (Hrec' & Hcap' & Hlen).
    { apply (round_preserves_records st); [lia|done|done]. }
    split_and!; [done|done|].
    apply round_Returned_inv in Hround
      as (? & ? & _ & _ & _ & _ & Hsizes).
    rewrite Hsizes, length_app in Hlen. simpl in Hlen. lia.
Qed.

(** X17.  When [main] returns, the labeled subset has reached
    [max_training_set_size]; unless no round ran, it exceeds it by less than
    [acquisition_batch_size] and the last round started below the cap; one
    test accuracy was recorded per round, at most one round per unit of
    fuel, and the recorded sizes are below the cap and in non-decreasing
    order. *)
Theorem main_returns_at_cap (fuel : nat) (st : controller_state) :
  main env cfg fuel = Some (Returned st) →
  cfg_max_training_set_size cfg ≤ size (subset_ids st) ∧
  (training_sizes st = [] ∨
   size (subset_ids st) <
     cfg_max_training_set_size cfg + cfg_acquisition_batch_size cfg) ∧
  length (test_accuracies st) = length (training_sizes st) ∧
  length (training_sizes st) < fuel ∧
  Forall (λ n, n < cfg_max_training_set_size cfg) (training_sizes st) ∧
  StronglySorted le (training_sizes st).
Proof.
  unfold main.
  destruct (initial_training_set env cfg _) as [evs [[rng0 ids0]|]]; [|done].
  intros Hrun.
  apply rounds_records in Hrun
    as ((Hlen & Hcap & Hle & Hsorted & Hlast) & Hreached & Hfuel).
  - cbn [training_sizes] in Hfuel. simpl in Hfuel.
    split_and!; try done.
    destruct Hlast as [Hnil|[Hsize Hl]]; [by left|right].
    destruct (last (training_sizes st)) as [n|] eqn:El; [|done].
    rewrite Forall_forall in Hcap.
    pose proof (Hcap n (last_Some_elem_of _ _ El)). simpl in Hsize. lia.
  - unfold recorded_rounds. cbn [training_sizes test_accuracies].
    split_and!; [done|constructor|constructor|constructor|by left].
Qed.

Lemma rounds_zero_batch_size (fuel : nat) : ∀ st st',
  cfg_acquisition_batch_size cfg = 0 →
  size (subset_ids st) < cfg_max_training_set_size cfg →
  rounds env cfg fuel st ≠ Some (Returned st').
Proof.
  induction fuel as [|fuel IH]; intros st st' Hk Hsize; [done|].
  rewrite rounds_S, decide_False by lia.
  destruct (round env cfg st) as [st1|] eqn:Hround; [|done].
  apply IH; [done|].
  apply round_Returned_inv in Hround as (top_ids & ? & -> & Hlen & _).
  rewrite Hk in Hlen. destruct top_ids; [|simpl in Hlen; lia].
  by rewrite list_to_set_nil, (right_id_L ∅ (∪)).
Qed.

(** X18.  With [acquisition_batch_size = 0] a round adds no id, so a run
    whose initial training set is below [max_training_set_size] never leaves
    the loop normally: whatever the fuel, [main] does not return. *)
Theorem zero_batch_size_never_returns (fuel : nat) (st : controller_state) :
  cfg_acquisition_batch_size cfg = 0 →
  cfg_initial_training_set_size cfg < cfg_max_training_set_size cfg →
  main env cfg fuel ≠ Some (Returned st).
Proof.
  intros Hk Hinit. unfold main.
  destruct (initial_training_set env cfg _) as [evs [[rng0 ids0]|]] eqn:Einit;
    [|done].
  assert (length ids0 ≤ cfg_initial_training_set_size cfg) as Hlen0.
  { unfold initial_training_set in Einit. case_decide.
    - destruct (get_ids_logits_masks _ _ _ _) as [[[[? ?] ?] ?]|]; [|done].
      destruct (select_acquisition_batch_indices _ _ _ _ _)
        as [[top_ids top_scores]|] eqn:Esel; [|done].
      injection Einit as <- <- <-.
      by apply select_at_most in Esel as [? _].
    - injection Einit as <- <- <-. simpl. lia. }
  apply rounds_zero_batch_size; [done|]. cbn [subset_ids].
  pose proof (size_list_to_set_le ids0). lia.
Qed.

Lemma scoring_stage_density_empty (st : controller_state) (opt : Opt)
    (outputs outputs' : list (list float)) (masks : list bool) :
  acquisition_method cfg = "density" →
  size (subset_ids st) = 0 →
  scoring_stage env cfg st opt outputs masks
  = scoring_stage env (set_acquisition_method cfg "uniform") st opt outputs'
      masks.
Proof.
  intros Hmethod Hsize. unfold scoring_stage.
  cbn [acquisition_method set_acquisition_method]. rewrite Hmethod.
  rewrite (decide_False (P := "density" = "uniform")) by done.
  rewrite (decide_False (P := "density" = "entropy")) by done.
  rewrite (decide_False (P := "density" = "margin")) by done.
  rewrite (decide_True (P := "density" = "density")) by done.
  rewrite (decide_True (P := "uniform" = "uniform")) by done.
  by rewrite decide_False by lia.
Qed.

(** The shape of the outputs of an inference pass, and with it whether the
    pass returns, does not depend on the pre-logits flag. *)
Lemma concatenate_axis1_shape {A B} (xs : list (list (list A)))
    (ys : list (list (list B))) :
  Forall2 (λ x y, length x = length y) xs ys →
  match concatenate_axis1 xs, concatenate_axis1 ys with
  | Ok _, Ok _ => True
  | Err e, Err e' => e = e'
  | _, _ => False
  end.
Proof.
  intros [|x y xs' ys' Hxy Hrest]; [done|]. unfold concatenate_axis1.
  assert (Forall (λ a, length a = length x) xs'
          ↔ Forall (λ a, length a = length y) ys') as Hiff.
  { clear -Hxy Hrest. induction Hrest as [|a b xs ys Hab _ IH].
    - split; constructor.
    - rewrite !Forall_cons. rewrite IH. split; intros [? ?]; split; auto; lia. }
  destruct (decide (Forall (λ a, length a = length x) xs')) as [Hx|Hx];
    destruct (decide (Forall (λ a, length a = length y) ys')) as [Hy|Hy];
    try done; tauto.
Qed.

Lemma get_ids_logits_masks_pre_logits (opt : Opt) (ds : list (batch Image))
    (p q : bool) :
  match get_ids_logits_masks env opt ds p, get_ids_logits_masks env opt ds q
  with
  | Ok (ids, _, labels, masks), Ok (ids', _, labels', masks') =>
      ids = ids' ∧ labels = labels' ∧ masks = masks'
  | Err e, Err e' => e = e'
  | _, _ => False
  end.
Proof.
  unfold get_ids_logits_masks.
  destruct (concatenate_axis1 (batch_id <$> ds)) as [ids|e]; [|done].
  cbn.
  assert (Forall2 (λ x y : list (list (list float)), length x = length y)
            (compute_batch_outputs env opt p <$> ds)
            (compute_batch_outputs env opt q <$> ds)) as Hshape.
  { apply Forall2_fmap, Forall_Forall2_diag, Forall_forall.
    intros b _. unfold compute_batch_outputs. by rewrite !length_fmap. }
  apply concatenate_axis1_shape in Hshape.
  destruct (concatenate_axis1 (compute_batch_outputs env opt p <$> ds))
    as [outs|e];
    destruct (concatenate_axis1 (compute_batch_outputs env opt q <$> ds))
    as [outs'|e']; cbn; try done.
  destruct (concatenate_axis1 (batch_labels <$> ds)) as [labels|e]; [|done].
  cbn. by destruct (concatenate_axis1 (batch_mask <$> ds)).
Qed.

(** X19.  With the density method and an empty labeled subset, a round is
    the round of the uniform method: the same random split, the same
    scores, the same outcome. *)
Theorem density_round_on_empty_subset_is_uniform (st : controller_state) :
  acquisition_method cfg = "density" →
  size (subset_ids st) = 0 →
  round env cfg st = round env (set_acquisition_method cfg "uniform") st.
Proof.
  intros Hmethod Hsize. unfold round. rewrite Hsize.
  rewrite !decide_False by lia. cbn zeta beta iota.
  set (st1 := log_event (EvPoolInference 0) _).
  cbn [acquisition_method set_acquisition_method].
  pose proof (get_ids_logits_masks_pre_logits (env_opt_cpu env)
                (env_pool_train_ds env)
                (bool_decide (acquisition_method cfg = "density"))
                (bool_decide ("uniform" = "density"))) as Hpass.
  destruct (get_ids_logits_masks env (env_opt_cpu env) (env_pool_train_ds env)
              (bool_decide (acquisition_method cfg = "density")))
    as [[[[ids outs] labels] masks]|e];
    destruct (get_ids_logits_masks env (env_opt_cpu env)
                (env_pool_train_ds env) (bool_decide ("uniform" = "density")))
    as [[[[ids' outs'] labels'] masks']|e']; try done.
  - destruct Hpass as (<- & _ & <-).
    by rewrite (scoring_stage_density_empty st1 (env_opt_cpu env) (ravel outs)
                  (ravel outs') (ravel masks) Hmethod Hsize).
  - by subst e'.
Qed.

(** X20.  On a pool without batches, [main] raises ValueError (the
    concatenation of no array): in the initial acquisition, before any
    scoring, when [initial_training_set_size] is above 0; otherwise, when
    the cap is above 0, at the pool inference of the first round, after the
    test evaluation. *)
Theorem empty_pool_raises (fuel : nat) :
  env_pool_train_ds env = [] →
  (0 < cfg_initial_training_set_size cfg →
     main env cfg fuel = Some (Raised [] ValueError)) ∧
  (cfg_initial_training_set_size cfg = 0 →
   0 < cfg_max_training_set_size cfg →
     main env cfg (S fuel)
     = Some (Raised [EvTestEvaluation 0; EvPoolInference 0] ValueError)).
Proof.
  intros Hpool. split.
  - intros Hinit. unfold main, initial_training_set.
    rewrite decide_True by done. by rewrite Hpool.
  - intros Hinit Hcap. unfold main, initial_training_set.
    rewrite decide_False by lia.
    rewrite rounds_S. cbn [subset_ids].
    rewrite list_to_set_nil, size_empty, decide_False by lia.
    unfold round. cbn [subset_ids]. rewrite size_empty.
    rewrite decide_False by lia. cbn zeta beta iota. by rewrite Hpool.
Qed.

(** X21.  For a method the flag parser accepts (the default included) other
    than density, on pool outputs aligned with the pool masks -- one row per
    mask, rows of at least two classes for the margin, uniform draws of the
    requested shape -- the scoring stage of a round returns scores, one per
    pool mask, with [NINF_SCORE] at every entry whose mask is False. *)
Theorem accepted_method_scoring_returns (argument : option string)
    (method : string) (st : controller_state) (opt : Opt)
    (outputs : list (list float)) (masks : list bool) :
  parse_acquisition_method argument = Ok method →
  method ≠ "density" →
  length outputs = length masks →
  (method = "margin" →
   Forall (λ row, 2 ≤ length (env_softmax env row)) outputs) →
  (∀ key, length (env_random_uniform env key (length masks))
          = length masks) →
  ∃ rng' scores,
    scoring_stage env (set_acquisition_method cfg method) st opt outputs masks
    = Ok (rng', scores) ∧
    length scores = length masks ∧
    ∀ i, masks !! i = Some false → scores !! i = Some NINF_SCORE.
Proof.
  intros Hparse Hdensity Hlen Hrows Hdraws.
  assert (method ∈ acquisition_method_enum_values) as Hin.
  { unfold parse_acquisition_method in Hparse.
    destruct argument as [value|].
    - case_decide; [|done]. by injection Hparse as <-.
    - injection Hparse as <-. unfold acquisition_method_enum_values.
      apply elem_of_cons. by left. }
  unfold acquisition_method_enum_values in Hin.
  rewrite !elem_of_cons, elem_of_nil in Hin.
  assert (∀ xs, length xs = length masks →
            length (where_ninf masks xs) = length masks ∧
            ∀ i, masks !! i = Some false →
                 where_ninf masks xs !! i = Some NINF_SCORE) as Hwhere.
  { intros xs Hxs. split.
    - unfold where_ninf. rewrite length_zip_with. lia.
    - intros i Hi.
      destruct (lookup_lt_is_Some_2 xs i) as [x Hx].
      { rewrite Hxs. by eapply lookup_lt_Some. }
      by rewrite (where_ninf_lookup masks xs i false x). }
  unfold scoring_stage. cbn [acquisition_method set_acquisition_method].
  destruct Hin as [-> | [-> | [-> | [-> | []]]]]; [|done| |].
  - rewrite decide_True by done. eexists _, _. split; [done|].
    apply Hwhere, Hdraws.
  - rewrite decide_False, decide_False, decide_True by done.
    eexists _, _. split; [done|].
    apply Hwhere. by rewrite !length_fmap.
  - rewrite decide_False, decide_True by done.
    eexists _, _. split; [done|].
    apply Hwhere. by rewrite !length_fmap, length_zip_with, !length_fmap,
      Nat.min_id.
Qed.

(** The concatenation along axis 1, read by device. *)
Lemma foldl_zip_with_app {A} (rest : list (list (list A)))
    (first : list (list A)) :
  Forall (λ a, length a = length first) rest →
  foldl (zip_with app) first rest
  = (λ d, device_part d (first :: rest)) <$> seq 0 (length first).
Proof.
  revert first. induction rest as [|x rest IH]; intros first Hall.
  - apply list_eq. intros d. rewrite list_lookup_fmap.
    destruct (decide (d < length first)) as [Hd|Hd].
    + rewrite lookup_seq_lt by done.
      destruct (lookup_lt_is_Some_2 first d Hd) as [row Hrow].
      cbn. unfold device_part. cbn. by rewrite Hrow, app_nil_r.
    + rewrite lookup_seq_ge by lia. cbn.
      apply lookup_ge_None_2. lia.
  - apply Forall_cons in Hall as [Hx Hall]. cbn [foldl].
    assert (length (zip_with app first x) = length first) as Hzip.
    { rewrite length_zip_with. lia. }
    rewrite IH by (by rewrite Hzip). rewrite Hzip.
    apply list_eq. intros d. rewrite !list_lookup_fmap.
    destruct (decide (d < length first)) as [Hd|Hd].
    + rewrite lookup_seq_lt by done. cbn. f_equal.
      destruct (lookup_lt_is_Some_2 first d Hd) as [row Hrow].
      destruct (lookup_lt_is_Some_2 x d) as [row' Hrow']; [lia|].
      unfold device_part. cbn.
      rewrite lookup_zip_with, Hrow, Hrow'. cbn. by rewrite app_assoc.
    + by rewrite lookup_seq_ge by lia.
Qed.

Lemma concatenate_axis1_Ok {A} (arrays : list (list (list A)))
    (a : list (list A)) :
  concatenate_axis1 arrays = Ok a →
  arrays ≠ [] ∧ same_devices arrays ∧ ravel a = device_major arrays.
Proof.
  unfold concatenate_axis1. destruct arrays as [|first rest]; [done|].
  case_decide as Hall; [|done]. intros [= <-].
  split; [done|]. split; [done|].
  unfold ravel, device_major. by rewrite foldl_zip_with_app.
Qed.

Lemma concatenate_axis1_is_ok {A} (arrays : list (list (list A))) :
  is_ok (concatenate_axis1 arrays) = true
  ↔ arrays ≠ [] ∧ same_devices arrays.
Proof.
  unfold concatenate_axis1. destruct arrays as [|first rest].
  - cbn. split; [done|by intros [? _]].
  - cbn [same_devices]. case_decide; cbn; split; try done.
    by intros [_ ?].
Qed.

Lemma same_devices_fmap {A B} (f : A → B) (arrays : list (list (list A))) :
  same_devices (fmap (M := list) (fmap (M := list) f) <$> arrays)
  ↔ same_devices arrays.
Proof.
  destruct arrays as [|first rest]; [done|].
  cbn [same_devices fmap list_fmap]. rewrite Forall_fmap.
  apply Forall_proper; [|done]. intros a. cbn. by rewrite !length_fmap.
Qed.

Lemma device_major_fmap {A B} (f : A → B) (arrays : list (list (list A))) :
  device_major (fmap (M := list) (fmap (M := list) f) <$> arrays)
  = f <$> device_major arrays.
Proof.
  assert (∀ d (l : list (list (list A))),
            device_part d (fmap (M := list) (fmap (M := list) f) <$> l)
            = f <$> device_part d l) as Hpart.
  { intros d l. unfold device_part. induction l as [|a l IH]; [done|].
    cbn. rewrite fmap_app, <- IH. f_equal.
    rewrite list_lookup_fmap. by destruct (a !! d). }
  destruct arrays as [|first rest]; [done|].
  unfold device_major. rewrite fmap_cons, length_fmap.
  rewrite <- fmap_cons.
  induction (seq 0 (length first)) as [|d ds IH]; [done|].
  cbn [fmap list_fmap concat]. rewrite fmap_app. f_equal; [|exact IH].
  exact (Hpart d (first :: rest)).
Qed.

Lemma device_major_one_device {A} (arrays : list (list (list A))) :
  Forall (λ a, length a = 1) arrays →
  device_major arrays = concat (concat arrays).
Proof.
  intros Hall.
  assert (device_part 0 arrays = concat (concat arrays)) as Hpart.
  { unfold device_part. induction Hall as [|a l Ha _ IH]; [done|].
    destruct a as [|row [|]]; try done.
    cbn. by rewrite IH. }
  destruct arrays as [|first rest]; [done|].
  unfold device_major.
  rewrite (Forall_inv Hall). cbn [seq fmap list_fmap concat].
  by rewrite app_nil_r.
Qed.

(** X22.  [get_ids_logits_masks] concatenates along axis 1, behind the
    device axis.  It returns exactly on a dataset with at least one batch
    whose batches agree in the number of devices of each array (no batch
    raises ValueError).  The arrays it returns, once raveled as their users
    do, are in device-major order: for each device in turn the part of
    every batch; the outputs are those of the model on the images in that
    order.  On one device this is the order of the stream. *)
Theorem get_ids_logits_masks_device_major (opt : Opt)
    (ds : list (batch Image)) (pre_logits : bool) :
  (ds = [] → get_ids_logits_masks env opt ds pre_logits = Err ValueError) ∧
  (is_ok (get_ids_logits_masks env opt ds pre_logits) = true ↔
   ds ≠ [] ∧ same_devices (batch_id <$> ds) ∧
   same_devices (batch_image <$> ds) ∧ same_devices (batch_labels <$> ds) ∧
   same_devices (batch_mask <$> ds)) ∧
  (∀ ids outputs labels masks,
     get_ids_logits_masks env opt ds pre_logits
     = Ok (ids, outputs, labels, masks) →
     ravel ids = device_major (batch_id <$> ds) ∧
     ravel outputs
     = (λ image, env_model_outputs env opt image pre_logits)
         <$> device_major (batch_image <$> ds) ∧
     ravel labels = device_major (batch_labels <$> ds) ∧
     ravel masks = device_major (batch_mask <$> ds) ∧
     (Forall (λ b, length (batch_id b) = 1) ds →
      ravel ids = concat (concat (batch_id <$> ds)))).
Proof.
  assert (∀ p, compute_batch_outputs env opt p <$> ds
               = fmap (M := list)
                   (fmap (M := list)
                      (λ image, env_model_outputs env opt image p))
                   <$> (batch_image <$> ds)) as Hcompute.
  { intros p. by rewrite <- list_fmap_compose. }
  split_and!.
  - by intros ->.
  - unfold get_ids_logits_masks. split.
    + intros Hok.
      destruct (concatenate_axis1 (batch_id <$> ds)) as [i|] eqn:Ei;
        [|done].
      destruct (concatenate_axis1
                  (compute_batch_outputs env opt pre_logits <$> ds))
        as [o|] eqn:Eo; [|done].
      destruct (concatenate_axis1 (batch_labels <$> ds)) as [l|] eqn:El;
        [|done].
      destruct (concatenate_axis1 (batch_mask <$> ds)) as [m|] eqn:Em;
        [|done].
      apply concatenate_axis1_Ok in Ei as (Hne & Hi & _).
      apply concatenate_axis1_Ok in Eo as (_ & Ho & _).
      apply concatenate_axis1_Ok in El as (_ & Hl & _).
      apply concatenate_axis1_Ok in Em as (_ & Hm & _).
      rewrite Hcompute in Ho. apply same_devices_fmap in Ho.
      split_and!; try done. by destruct ds.
    + intros (Hne & Hi & Ho & Hl & Hm).
      assert (∀ A (f : batch Image → list (list A)),
                same_devices (f <$> ds) →
                ∃ a, concatenate_axis1 (f <$> ds) = Ok a) as Hret.
      { intros A f Hsame.
        destruct (concatenate_axis1 (f <$> ds)) as [a|] eqn:E; [by eexists|].
        assert (is_ok (concatenate_axis1 (f <$> ds)) = true) as Hok.
        { apply concatenate_axis1_is_ok. split; [by destruct ds|done]. }
        by rewrite E in Hok. }
      destruct (Hret _ _ Hi) as [i ->].
      destruct (Hret _ (compute_batch_outputs env opt pre_logits)) as [o ->].
      { rewrite Hcompute. by apply same_devices_fmap. }
      destruct (Hret _ _ Hl) as [l ->]. by destruct (Hret _ _ Hm) as [m ->].
  - intros ids outputs labels masks
      (Hi & Ho & Hl & Hm)%get_ids_logits_masks_Ok.
    apply concatenate_axis1_Ok in Hi as (_ & _ & Hi).
    apply concatenate_axis1_Ok in Ho as (_ & _ & Ho).
    apply concatenate_axis1_Ok in Hl as (_ & _ & Hl).
    apply concatenate_axis1_Ok in Hm as (_ & _ & Hm).
    rewrite Hcompute, device_major_fmap in Ho.
    split_and!; try done.
    intros Hone. rewrite Hi. apply device_major_one_device.
    by apply Forall_fmap.
Qed.

End ControllerOutcomes.

(** *** Concrete runs for the further controller properties *)

Lemma round_adds_at_most_batch_size_witness :
  ∃ st',
    round (demo_env demo_pool) (demo_config "uniform" 0 20 5)
      demo_initial_state = Returned st' ∧
    size (subset_ids st') ≤ size (subset_ids demo_initial_state) + 5 ∧
    training_sizes st' = [0].
Proof.
  destruct (round (demo_env demo_pool) (demo_config "uniform" 0 20 5)
              demo_initial_state) as [st'|] eqn:E; [|by vm_compute in E].
  exists st'. split; [done|].
  pose proof (round_adds_at_most_batch_size _ _ _ _ E)
    as (_ & _ & Hsize & _ & Hsizes).
  split; [exact Hsize|]. rewrite Hsizes. by vm_compute.
Defined.

Lemma main_returns_at_cap_witness :
  ∃ st,
    main (demo_env demo_pool) (demo_config "uniform" 0 20 5) 10
    = Some (Returned st) ∧
    20 ≤ size (subset_ids st) ∧
    length (test_accuracies st) = length (training_sizes st) ∧
    StronglySorted le (training_sizes st).
Proof.
  destruct (main (demo_env demo_pool) (demo_config "uniform" 0 20 5) 10)
    as [[st|]|] eqn:E; [|by vm_compute in E..].
  exists st. split; [done|].
  pose proof (main_returns_at_cap _ _ _ _ E)
    as (Hcap & _ & Hlen & _ & _ & Hsorted).
  split_and!; [exact Hcap|exact Hlen|exact Hsorted].
Defined.

Lemma zero_batch_size_never_returns_witness :
  main (demo_env demo_pool) (demo_config "uniform" 0 20 0) 5
  ≠ Some (Returned demo_initial_state).
Proof.
  apply (zero_batch_size_never_returns (demo_env demo_pool)
           (demo_config "uniform" 0 20 0) 5 demo_initial_state).
  - reflexivity.
  - vm_compute. lia.
Defined.

Lemma density_round_on_empty_subset_is_uniform_witness :
  round (demo_env demo_pool) (demo_config "density" 0 20 5)
    demo_initial_state
  = round (demo_env demo_pool)
      (set_acquisition_method (demo_config "density" 0 20 5) "uniform")
      demo_initial_state.
Proof.
  apply (density_round_on_empty_subset_is_uniform (demo_env demo_pool)
           (demo_config "density" 0 20 5) demo_initial_state).
  - reflexivity.
  - apply size_empty.
Defined.

Lemma empty_pool_raises_witness :
  main (demo_env []) (demo_config "uniform" 3 20 5) 10
  = Some (Raised [] ValueError) ∧
  main (demo_env []) (demo_config "uniform" 0 20 5) 10
  = Some (Raised [EvTestEvaluation 0; EvPoolInference 0] ValueError).
Proof.
  split.
  - apply (empty_pool_raises (demo_env []) (demo_config "uniform" 3 20 5) 10).
    + reflexivity.
    + vm_compute. lia.
  - apply (empty_pool_raises (demo_env []) (demo_config "uniform" 0 20 5) 9).
    + reflexivity.
    + reflexivity.
    + vm_compute. lia.
Defined.

Lemma accepted_method_scoring_returns_witness :
  ∃ rng' scores,
    scoring_stage (demo_env demo_pool)
      (set_acquisition_method (demo_config "uniform" 0 20 5) "margin")
      demo_initial_state 0 (replicate 2 [fzero; NInf]) [true; false]
    = Ok (rng', scores) ∧
    length scores = length [true; false] ∧
    ∀ i, [true; false] !! i = Some false → scores !! i = Some NINF_SCORE.
Proof.
  apply (accepted_method_scoring_returns (demo_env demo_pool)
           (demo_config "uniform" 0 20 5) (Some "margin") "margin").
  - reflexivity.
  - done.
  - reflexivity.
  - intros _. repeat constructor.
  - intros key. unfold demo_env, env_random_uniform, demo_random_uniform.
    by rewrite length_fmap, length_seq.
Defined.

Lemma get_ids_logits_masks_device_major_witness :
  ∃ ids outputs labels masks,
    get_ids_logits_masks (demo_env two_device_pool) 0 two_device_pool false
    = Ok (ids, outputs, labels, masks) ∧
    ravel ids = [1; 2; 5; 6; 3; 4; 7; 8]%Z ∧
    ravel masks = [true; true; true; false; true; true; true; false] ∧
    ravel ids ≠ concat (concat (batch_id <$> two_device_pool)).
Proof.
  destruct (get_ids_logits_masks_device_major (demo_env two_device_pool) 0
              two_device_pool false) as (_ & [_ Hok] & Horder).
  destruct (get_ids_logits_masks (demo_env two_device_pool) 0 two_device_pool
              false) as [[[[ids outputs] labels] masks]|e] eqn:E.
  - exists ids, outputs, labels, masks. split; [done|].
    destruct (Horder ids outputs labels masks eq_refl)
      as (-> & _ & _ & -> & _).
    by vm_compute.
  - exfalso. by vm_compute in E.
Defined.

(** ** Evaluation step *)

Lemma mapM_Ok {A B} (f : A → result B) (l : list A) (ys : list B) :
  mapM f l = Ok ys ↔ Forall2 (λ x y, f x = Ok y) l ys.
Proof.
  revert ys. induction l as [|x l IH]; intros ys; simpl.
  - split; [intros [= <-]; constructor|by intros ->%Forall2_nil_inv_l].
  - rewrite bind_Ok. split.
    + intros (y & Hy & (k & Hk & [= <-])%bind_Ok).
      constructor; [done|by apply IH].
    + intros (y & k & Hy & Hk & ->)%Forall2_cons_inv_l.
      exists y. split; [done|]. apply bind_Ok. exists k.
      split; [by apply IH|done].
Qed.

Lemma unit_range_finite (x : float) : unit_range x → is_finite x = true.
Proof. by intros (q & -> & _). Qed.

(** The maximum of a non-empty row of values between 0 and 1 is between 0
    and 1; it is 0 when the row is all zeros and 1 when some entry is 1. *)
Lemma np_max_unit_range (row : list float) :
  row ≠ [] → Forall unit_range row →
  ∃ m, np_max row = Ok m ∧ unit_range m ∧
       (Forall (has_value 0) row → has_value 0 m) ∧
       (Exists (has_value 1) row → has_value 1 m).
Proof.
  intros Hne Hall.
  destruct (np_max_finite row Hne) as (m & Hm & _ & Hin & Hmax).
  { eapply Forall_impl; [done|]. apply unit_range_finite. }
  exists m. split; [done|]. rewrite !Forall_forall in *.
  pose proof (Hall m Hin) as Hu. split_and!; [done|..].
  - intros Hzero. by apply Hzero.
  - intros (x & Hx & (q & -> & Hq))%Exists_exists.
    destruct Hu as (qm & -> & _ & Hle).
    pose proof (Hmax _ Hx) as Hge. simpl in Hge. apply Qle_bool_iff in Hge.
    exists qm. split; [done|]. lra.
Qed.

Lemma fmul_unit_range (x y : float) :
  unit_range x → unit_range y →
  unit_range (fmul x y) ∧ count_le (fmul x y) y ∧
  (has_value 0 y → has_value 0 (fmul x y)) ∧
  (has_value 0 x → has_value 0 (fmul x y)) ∧
  (has_value 1 y → ∃ q, x = Fin q ∧ has_value q (fmul x y)).
Proof.
  intros (a & -> & Ha0 & Ha1) (b & -> & Hb0 & Hb1). simpl.
  assert (Qle 0 (a * b)) as H0 by (by apply Qmult_le_0_compat).
  assert (Qle (a * b) b) as H1.
  { rewrite <- (Qmult_1_l b) at 2. by apply Qmult_le_compat_r. }
  split_and!.
  - exists (a * b)%Q. split_and!; [done|done|lra].
  - by exists (a * b)%Q, b.
  - intros (? & [= <-] & Hb). eexists. split; [done|]. rewrite Hb. ring.
  - intros (? & [= <-] & Hq). eexists. split; [done|]. rewrite Hq. ring.
  - intros (? & [= <-] & Hb). exists a. split; [done|].
    eexists. split; [done|]. rewrite Hb. ring.
Qed.

Lemma count_le_fadd (c1 m1 c2 m2 : float) :
  count_le c1 m1 → count_le c2 m2 → count_le (fadd c1 c2) (fadd m1 m2).
Proof.
  intros (a1 & b1 & -> & -> & ? & ?) (a2 & b2 & -> & -> & ? & ?). simpl.
  eexists _, _. split_and!; [done|done|lra|lra].
Qed.

Lemma count_le_zip_with_fadd (c1 m1 c2 m2 : list float) :
  Forall2 count_le c1 m1 → Forall2 count_le c2 m2 →
  Forall2 count_le (zip_with fadd c1 c2) (zip_with fadd m1 m2).
Proof.
  intros H1. revert c2 m2.
  induction H1 as [|x1 y1 c1 m1 Hxy _ IH]; intros c2 m2 H2; [constructor|].
  destruct H2 as [|x2 y2 c2 m2 Hxy2 H2]; [constructor|].
  simpl. constructor; [by apply count_le_fadd|by apply IH].
Qed.

Lemma count_le_psum (per_device : list (list float * list float)) :
  Forall (λ cm, Forall2 count_le cm.1 cm.2) per_device →
  Forall2 count_le (psum (fst <$> per_device)) (psum (snd <$> per_device)).
Proof.
  destruct 1 as [|cm per_device Hcm Hall]; [constructor|].
  rewrite !fmap_cons. simpl.
  revert cm Hcm. induction Hall as [|cm' l Hcm' _ IH]; intros cm Hcm; [done|].
  rewrite !fmap_cons. simpl.
  apply (IH (zip_with fadd cm.1 cm'.1, zip_with fadd cm.2 cm'.2)).
  by apply count_le_zip_with_fadd.
Qed.

Lemma count_le_fsum (cs ms : list float) :
  Forall2 count_le cs ms → counts_in_range (fsum cs, fsum ms).
Proof.
  intros Hall.
  assert (Forall counts_in_range (zip cs ms)) as Hzip.
  { apply Forall_forall. intros [c m] Hin.
    apply list_elem_of_lookup_1 in Hin as [i Hi].
    apply lookup_zip_with_Some in Hi as (c' & m' & [= <- <-] & Hc & Hm).
    destruct (Forall2_lookup_lr _ _ _ _ _ _ Hall Hc Hm)
      as (qc & qm & -> & -> & ? & ?).
    by exists qc, qm. }
  destruct (foldl_fadd_counts _ Hzip 0%Q 0%Q) as (c & n & Hc & Hn & ? & ? & _);
    [lra|lra|].
  pose proof (Forall2_length _ _ _ Hall) as Hlen.
  rewrite fst_zip in Hc by lia. rewrite snd_zip in Hn by lia.
  exists c, n. unfold fsum, fzero. by rewrite Hc, Hn.
Qed.

Section EvaluationProofs.

Variable argmax : list float → nat.

(** The rows whose labels are all zero get an effective mask of 0; the rows
    with a label 1 keep their mask; every effective mask is between 0 and
    1. *)
Lemma ignore_zero_labels_ok (labels : list (list float))
    (mask : list float) :
  length labels = length mask →
  Forall unit_range mask →
  Forall (λ row, row ≠ [] ∧ Forall unit_range row) labels →
  ∃ mask',
    ignore_zero_labels labels mask = Ok mask' ∧
    length mask' = length mask ∧
    Forall unit_range mask' ∧
    (∀ j row m', labels !! j = Some row → mask' !! j = Some m' →
       (Forall (has_value 0) row → has_value 0 m') ∧
       (Exists (has_value 1) row →
          ∃ q, mask !! j = Some (Fin q) ∧ has_value q m')).
Proof.
  intros Hlen Hmask Hlabels.
  assert (∃ label_max,
            mapM np_max labels = Ok label_max ∧
            Forall2 (λ row m, unit_range m ∧
                       (Forall (has_value 0) row → has_value 0 m) ∧
                       (Exists (has_value 1) row → has_value 1 m))
              labels label_max) as (label_max & Hmax & Hrows).
  { clear Hlen. induction Hlabels as [|row labels [Hne Hrow] _ IH].
    - exists []. split; [done|constructor].
    - destruct IH as (ms & Hms & Hall).
      destruct (np_max_unit_range row Hne Hrow) as (m & Hm & Hu & Hz & Ho).
      exists (m :: ms). split; [|by constructor].
      simpl. rewrite Hm. simpl. by rewrite Hms. }
  unfold ignore_zero_labels. rewrite Hmax. simpl.
  pose proof (Forall2_length _ _ _ Hrows) as Hlen'.
  rewrite Forall_lookup in Hmask.
  eexists. split; [done|]. split_and!.
  - rewrite length_zip_with. lia.
  - apply Forall_lookup. intros j m' Hj.
    apply lookup_zip_with_Some in Hj as (m & lm & -> & Hm & Hlm).
    destruct (Forall2_lookup_r _ _ _ _ _ Hrows Hlm) as (row & _ & Hu & _).
    by apply fmul_unit_range; [eapply Hmask|].
  - intros j row m' Hrow Hj.
    apply lookup_zip_with_Some in Hj as (m & lm & -> & Hm & Hlm).
    destruct (Forall2_lookup_lr _ _ _ _ _ _ Hrows Hrow Hlm) as (Hu & Hz & Ho).
    destruct (fmul_unit_range m lm) as (_ & _ & Hzero & _ & Hone);
      [by eapply Hmask|done|].
    split.
    + intros Hall. by apply Hzero, Hz.
    + intros Hex. destruct (Hone (Ho Hex)) as (q & -> & Hq). by exists q.
Qed.

(** The counts of one device: one entry per example, and at every example
    [0 <= top1_correct * mask <= mask]. *)
Lemma device_counts_ok (s : shard) :
  shard_well_formed argmax s →
  ∃ correct mask',
    device_counts argmax s = Ok (correct, mask') ∧
    length mask' = length (shard_mask s) ∧
    Forall2 count_le correct mask'.
Proof.
  intros (Hlg & Hlb & Hmask & Hlabels & Hidx).
  destruct (ignore_zero_labels_ok (shard_labels s) (shard_mask s))
    as (mask' & Hrun & Hlen & Hunit & _); [done..|].
  unfold device_counts. rewrite Hrun. simpl.
  eexists _, _. split; [done|]. split; [done|].
  apply Forall2_same_length_lookup_2.
  - unfold top1_correct_of. rewrite !length_zip_with. lia.
  - intros j c m' Hc Hm'.
    apply lookup_zip_with_Some in Hc as (t & m'' & -> & Ht & Hm'').
    assert (m'' = m') as -> by congruence.
    unfold top1_correct_of in Ht.
    apply lookup_zip_with_Some in Ht as (lg & lb & -> & Hlg' & Hlb').
    pose proof (Forall2_lookup_lr _ _ _ _ _ _ Hidx Hlg' Hlb') as Hrange.
    destruct (lookup_lt_is_Some_2 lb (argmax lg) Hrange) as [t Ht].
    rewrite (list_lookup_total_correct _ _ _ Ht).
    rewrite Forall_lookup in Hlabels. destruct (Hlabels _ _ Hlb') as [_ Hrow].
    rewrite Forall_lookup in Hrow, Hunit.
    by apply fmul_unit_range; [eapply Hrow|eapply Hunit].
Qed.

(** X25.  On well-formed device arrays (labels and masks between 0 and 1,
    at least one class, one row per example) [evaluation_fn] returns, at
    every position of the arrays [0 <= ncorrect <= n], and so the totals
    [get_accuracy] adds up for the batch satisfy [0 <= ncorrect <= n]. *)
Theorem evaluation_counts_in_range (shards : list shard) :
  Forall (shard_well_formed argmax) shards →
  ∃ ncorrect n,
    evaluation_counts argmax shards = Ok (ncorrect, n) ∧
    Forall2 count_le ncorrect n ∧
    counts_in_range (batch_totals (ncorrect, n)).
Proof.
  intros Hall.
  assert (∃ per_device,
            mapM (device_counts argmax) shards = Ok per_device ∧
            Forall (λ cm, Forall2 count_le cm.1 cm.2) per_device)
    as (per_device & Hrun & Hper).
  { induction Hall as [|s shards Hs _ IH].
    - exists []. split; [done|constructor].
    - destruct IH as (per & Hper & Hle).
      destruct (device_counts_ok s Hs) as (c & m & Hcm & _ & Hcle).
      exists ((c, m) :: per). split; [|by constructor].
      simpl. rewrite Hcm. simpl. by rewrite Hper. }
  unfold evaluation_counts. rewrite Hrun. simpl.
  pose proof (count_le_psum per_device Hper) as Hsum.
  eexists _, _. split_and!; [done|done|].
  by apply count_le_fsum.
Qed.

(** X26.  On one device with well-formed arrays, an example whose labels
    are all zero is ignored: its entries of [n] and of [ncorrect] are 0
    whatever its mask and its logits; an example with a label 1 enters [n]
    with its mask. *)
Theorem zero_label_rows_ignored (s : shard) (correct mask' : list float)
    (j : nat) (row : list float) :
  shard_well_formed argmax s →
  device_counts argmax s = Ok (correct, mask') →
  shard_labels s !! j = Some row →
  (Forall (has_value 0) row →
     ∃ c m, correct !! j = Some c ∧ mask' !! j = Some m ∧
            has_value 0 c ∧ has_value 0 m) ∧
  (Exists (has_value 1) row →
     ∃ q m, shard_mask s !! j = Some (Fin q) ∧ mask' !! j = Some m ∧
            has_value q m).
Proof.
  intros Hwf Hrun Hrow.
  pose proof Hwf as (Hlg & Hlb & Hmask & Hlabels & Hidx).
  destruct (ignore_zero_labels_ok (shard_labels s) (shard_mask s))
    as (mk & Hmk & Hlen & Hunit & Hrows); [done..|].
  destruct (device_counts_ok s Hwf) as (c0 & m0 & Hrun0 & _ & Hle).
  rewrite Hrun in Hrun0. injection Hrun0 as <- <-.
  unfold device_counts in Hrun. rewrite Hmk in Hrun. simpl in Hrun.
  injection Hrun as Hc <-.
  pose proof (lookup_lt_Some _ _ _ Hrow) as Hj.
  destruct (lookup_lt_is_Some_2 mk j) as [m Hm]; [lia|].
  destruct (Hrows j row m Hrow Hm) as [Hzero Hone].
  split.
  - intros Hall. specialize (Hzero Hall).
    destruct (Forall2_lookup_r _ _ _ _ _ Hle Hm)
      as (c & Hcj & qc & qm & -> & -> & Hc0 & Hcm).
    exists (Fin qc), (Fin qm). split_and!; [done|done| |done].
    destruct Hzero as (? & [= <-] & Hq). exists qc. split; [done|]. lra.
  - intros Hex. destruct (Hone Hex) as (q & Hq & Hv). by exists q, m.
Qed.

End EvaluationProofs.

(** *** A concrete evaluation *)

Lemma demo_shards_well_formed :
  Forall (shard_well_formed argmax_ref) demo_shards.
Proof.
  assert (∀ q, Qle 0 q → Qle q 1 → unit_range (Fin q)) as Hunit
    by (intros q ? ?; by exists q).
  repeat constructor; try done; try (apply Hunit; by vm_compute);
    try (vm_compute; lia).
Qed.

Example demo_evaluation_counts :
  evaluation_counts argmax_ref demo_shards
  = Ok ([Fin 2; Fin 0], [Fin 2; Fin 1]) ∧
  batch_totals ([Fin 2; Fin 0], [Fin 2; Fin 1]) = (Fin 2, Fin 3).
Proof. by vm_compute. Qed.

Lemma evaluation_counts_in_range_witness :
  ∃ ncorrect n,
    evaluation_counts argmax_ref demo_shards = Ok (ncorrect, n) ∧
    Forall2 count_le ncorrect n ∧
    counts_in_range (batch_totals (ncorrect, n)).
Proof.
  apply (evaluation_counts_in_range argmax_ref demo_shards).
  exact demo_shards_well_formed.
Defined.

Lemma zero_label_rows_ignored_witness :
  ∃ c m, [Fin 1; Fin 0] !! 1 = Some c ∧
         [Fin 1; Fin 0] !! 1 = Some m ∧
         has_value 0 c ∧ has_value 0 m.
Proof.
  destruct (zero_label_rows_ignored argmax_ref
              {| shard_logits := [[Fin 0; Fin 1]; [Fin 1; Fin 0]];
                 shard_labels := [[Fin 0; Fin 1]; [Fin 0; Fin 0]];
                 shard_mask := [Fin 1; Fin 1] |}
              [Fin 1; Fin 0]
              [Fin 1; Fin 0] 1 [Fin 0; Fin 0]) as [Hzero _].
  - pose proof demo_shards_well_formed as Hall.
    apply Forall_cons in Hall as [_ Hall].
    by apply Forall_cons in Hall as [Hs _].
  - by vm_compute.
  - reflexivity.
  - apply Hzero. repeat constructor; by exists 0%Q.
Defined.

(** ** Preprocessing spec of the pool *)

Lemma append_nil_l (t : string) : EmptyString +:+ t = t.
Proof. reflexivity. Qed.

Lemma append_cons (c : ascii) (s t : string) :
  String c s +:+ t = String c (s +:+ t).
Proof. reflexivity. Qed.

Lemma append_assoc (s1 s2 s3 : string) :
  (s1 +:+ s2) +:+ s3 = s1 +:+ s2 +:+ s3.
Proof.
  induction s1 as [|c s1 IH]; [done|]. by rewrite !append_cons, IH.
Qed.

Lemma split_pipe_nonempty (s : string) : split_pipe s ≠ [].
Proof.
  destruct s as [|c s]; [done|]. simpl.
  destruct (Ascii.eqb c "|"); [done|]. by destruct (split_pipe s).
Qed.

Lemma split_pipe_no_pipe (s : string) : no_pipe s → split_pipe s = [s].
Proof.
  induction s as [|c s IH]; [done|]. simpl. intros [-> Hs].
  by rewrite IH.
Qed.

Lemma split_pipe_app (prefix last : string) :
  no_pipe last →
  split_pipe (prefix +:+ "|" +:+ last) = split_pipe prefix ++ [last].
Proof.
  intros Hlast. induction prefix as [|c s IH].
  - rewrite append_nil_l, append_cons, append_nil_l. simpl.
    by rewrite split_pipe_no_pipe.
  - rewrite append_cons. simpl. rewrite IH.
    destruct (Ascii.eqb c "|"); [done|].
    pose proof (split_pipe_nonempty s). by destruct (split_pipe s).
Qed.

Lemma join_pipe_cons (p p' : string) (parts : list string) :
  join_pipe (p :: p' :: parts) = p +:+ "|" +:+ join_pipe (p' :: parts).
Proof. reflexivity. Qed.

Lemma join_pipe_snoc (parts : list string) (last : string) :
  parts ≠ [] →
  join_pipe (parts ++ [last]) = join_pipe parts +:+ "|" +:+ last.
Proof.
  induction parts as [|p [|p' parts] IH]; intros Hne; [done|done|].
  change ((p :: p' :: parts) ++ [last])
    with (p :: p' :: (parts ++ [last])).
  rewrite !join_pipe_cons.
  change (p' :: parts ++ [last]) with ((p' :: parts) ++ [last]).
  rewrite IH by done. by rewrite !append_assoc.
Qed.

(** Splitting at the pipes and joining with pipes gives the string back. *)
Lemma join_split_pipe (s : string) : join_pipe (split_pipe s) = s.
Proof.
  induction s as [|c s IH]; [done|]. simpl.
  pose proof (split_pipe_nonempty s) as Hne.
  destruct (Ascii.eqb c "|") eqn:Ec.
  - apply Ascii.eqb_eq in Ec as ->.
    destruct (split_pipe s) as [|p ps]; [done|].
    rewrite join_pipe_cons, append_nil_l, append_cons, append_nil_l.
    by rewrite IH.
  - destruct (split_pipe s) as [|p [|p' ps]]; [done|..].
    + simpl in *. by rewrite IH.
    + rewrite join_pipe_cons, append_cons. f_equal.
      by rewrite <- join_pipe_cons.
Qed.

Lemma keep_id_no_pipe : no_pipe keep_id.
Proof. vm_compute. repeat split. Qed.

(** X27.  The preprocessing spec of the pool is the evaluation spec with its
    last stage replaced by the stage that keeps the image, the labels and
    the id, whatever that last stage was: a spec [prefix|last] becomes
    [prefix|keep(...)], and a spec without any pipe is replaced as a whole
    by [keep(...)].  The stages before the last are unchanged. *)
Theorem id_pp_eval_replaces_last_stage (pp_eval : string) :
  (∀ prefix last, no_pipe last → pp_eval = prefix +:+ "|" +:+ last →
     id_pp_eval pp_eval = prefix +:+ "|" +:+ keep_id) ∧
  (no_pipe pp_eval → id_pp_eval pp_eval = keep_id) ∧
  split_pipe (id_pp_eval pp_eval)
  = removelast (split_pipe pp_eval) ++ [keep_id].
Proof.
  assert (∀ parts, Forall no_pipe parts → parts ≠ [] →
            split_pipe (join_pipe parts) = parts) as Hsplit_join.
  { induction parts as [|p [|p' parts] IH]; intros Hall Hne; [done|..].
    - apply Forall_cons in Hall as [Hp _]. by apply split_pipe_no_pipe.
    - apply Forall_cons in Hall as [Hp Hall].
      rewrite join_pipe_cons. clear Hne.
      specialize (IH Hall ltac:(done)). revert IH.
      generalize (join_pipe (p' :: parts)). intros rest IH.
      induction p as [|c p IHp].
      + rewrite append_nil_l, append_cons, append_nil_l. simpl. by rewrite IH.
      + rewrite append_cons. simpl. destruct Hp as [-> Hp].
        by rewrite IHp. }
  assert (∀ s, Forall no_pipe (split_pipe s)) as Hparts.
  { induction s as [|c s IH]; [by repeat constructor|]. simpl.
    destruct (Ascii.eqb c "|") eqn:Ec; [by constructor|].
    destruct (split_pipe s) as [|p ps]; [by repeat constructor|].
    apply Forall_cons in IH as [Hp Hps]. by constructor. }
  unfold id_pp_eval. split_and!.
  - intros prefix last Hlast ->.
    rewrite split_pipe_app by done.
    rewrite removelast_last.
    rewrite join_pipe_snoc by apply split_pipe_nonempty.
    by rewrite join_split_pipe.
  - intros Hnone. by rewrite split_pipe_no_pipe.
  - apply Hsplit_join.
    + apply Forall_app. split; [|by repeat constructor; apply keep_id_no_pipe].
      specialize (Hparts pp_eval). revert Hparts.
      generalize (split_pipe pp_eval). intros parts Hall.
      induction Hall as [|p [|p' ps] Hp Hall IH]; [done|done|].
      change (removelast (p :: p' :: ps)) with (p :: removelast (p' :: ps)).
      by constructor.
    + by destruct (removelast (split_pipe pp_eval)).
Qed.

Lemma id_pp_eval_replaces_last_stage_witness :
  id_pp_eval "decode|resize(224)|keep(image)"
  = "decode|resize(224)" +:+ "|" +:+ keep_id.
Proof.
  destruct (id_pp_eval_replaces_last_stage "decode|resize(224)|keep(image)")
    as [Hlast _].
  apply (Hlast "decode|resize(224)" "keep(image)"); [|reflexivity].
  vm_compute. repeat split.
Defined.

(** ** Growth of the labeled subset *)

(** The entropy and the margin scores of rows as a model gives them are
    well scored. *)
Lemma entropy_scores_well_scored (softmax log_softmax : list float → list float)
    (logits : list (list float)) (masks : list bool) :
  length logits = length masks →
  Forall (λ row, Forall nonneg_value (softmax row) ∧
                 Forall nonpos_or_ninf (log_softmax row)) logits →
  well_scored masks (get_entropy_scores softmax log_softmax logits masks).
Proof.
  intros Hlen Hrows. apply Forall2_same_length_lookup_2.
  - unfold get_entropy_scores, where_ninf.
    rewrite length_zip_with, !length_fmap, length_zip_with, !length_fmap. lia.
  - intros i m s Hm Hs.
    destruct (lookup_lt_is_Some_2 logits i) as [row Hrow].
    { rewrite Hlen. by eapply lookup_lt_Some. }
    destruct m.
    + rewrite (get_entropy_scores_lookup _ _ _ _ _ _ Hrow Hm) in Hs.
      injection Hs as <-.
      rewrite Forall_lookup in Hrows. destruct (Hrows i row Hrow) as [Hp Hlp].
      assert (nonneg_or_pinf (row_entropy (softmax row) (log_softmax row)))
        as Hent.
      { apply fsum_nonneg_or_pinf, Forall_lookup. intros j w.
        rewrite lookup_zip_with.
        destruct (softmax row !! j) as [p|] eqn:Ep; [|done]. simpl.
        destruct (log_softmax row !! j) as [lp|] eqn:Elp; [|done]. simpl.
        intros [= <-]. rewrite Forall_lookup in Hp, Hlp.
        apply weighted_nat_nonneg; [by eapply Hp|by eapply Hlp]. }
      destruct Hent as [->|(q & -> & _)]; by split.
    + assert (s = NINF_SCORE) as ->; [|by split].
      by apply (where_ninf_masked masks _ i s Hm Hs).
Qed.

Lemma margin_scores_well_scored (softmax : list float → list float)
    (logits : list (list float)) (masks : list bool) :
  length logits = length masks →
  Forall (λ row, 2 ≤ length (softmax row) ∧
                 Forall nonneg_value (softmax row)) logits →
  well_scored masks (get_margin_scores softmax logits masks).
Proof.
  intros Hlen Hrows. apply Forall2_same_length_lookup_2.
  - unfold get_margin_scores, where_ninf.
    rewrite length_zip_with, !length_fmap. lia.
  - intros i m s Hm Hs.
    destruct (lookup_lt_is_Some_2 logits i) as [row Hrow].
    { rewrite Hlen. by eapply lookup_lt_Some. }
    destruct m.
    + rewrite Forall_lookup in Hrows. destruct (Hrows i row Hrow) as [Hn Hp].
      destruct (sort_row_top_two (softmax row) Hn) as (rest & Hperm & _).
      set (a := getitem_from_end (sort_row (softmax row)) 1) in *.
      set (b := getitem_from_end (sort_row (softmax row)) 2) in *.
      assert (get_margin_scores softmax logits masks !! i
              = Some (fneg (fsub a b))) as Hscore.
      { unfold get_margin_scores.
        rewrite (where_ninf_lookup _ _ i true (fneg (fsub a b)));
          [done|done|].
        by rewrite !list_lookup_fmap, Hrow. }
      rewrite Hscore in Hs. injection Hs as <-.
      rewrite Hperm in Hp.
      apply Forall_cons in Hp as [(qa & -> & _) Hp].
      apply Forall_cons in Hp as [(qb & -> & _) _].
      by split.
    + assert (s = NINF_SCORE) as ->; [|by split].
      by apply (where_ninf_masked masks _ i s Hm Hs).
Qed.

Lemma scoring_conditions_well_scored {Opt Rng Key Image}
    (env : collaborators Opt Rng Key Image) (cfg : config) :
  acquisition_method cfg = "uniform" ∧
    uniform_contract (env_random_uniform env) ∨
  (acquisition_method cfg = "entropy" ∨ acquisition_method cfg = "margin") ∧
    pool_rows_scorable env →
  scoring_well_scored env cfg.
Proof.
  intros Hcase st opt. unfold scoring_stage.
  destruct Hcase as [[Hmethod Huniform]|[Hmethod Hrows]].
  - rewrite Hmethod, decide_True by done. eexists _, _. split; [done|].
    by apply uniform_scores_well_scored.
  - destruct (Hrows opt) as [Hlen Hall].
    destruct Hmethod as [Hmethod|Hmethod]; rewrite Hmethod.
    + rewrite decide_False, decide_True by done.
      rewrite bool_decide_eq_false_2 by done.
      eexists _, _. split; [done|].
      apply entropy_scores_well_scored; [done|].
      eapply Forall_impl; [exact Hall|]. by intros row (_ & ? & ?).
    + rewrite decide_False, decide_False, decide_True by done.
      rewrite bool_decide_eq_false_2 by done.
      eexists _, _. split; [done|].
      apply margin_scores_well_scored; [done|].
      eapply Forall_impl; [exact Hall|]. by intros row (? & ? & _).
Qed.

(** C8 (amended).  A round that returns never removes an id from the labeled
    subset, whatever the collaborators do.  Under the growth conditions
    (numpy.argpartition and jax.random.uniform meet their contracts; the
    inference pass over the pool returns; the raveled pool arrays are
    aligned and every valid entry is the first occurrence of its id;
    fine-tuning on a non-empty labeled subset of pool ids returns; on the
    outputs of the model for the pool the scoring stage returns scores that
    are not NaN and above [-inf] exactly at the valid entries): a round
    entered with at least [acquisition_batch_size] valid pool entries beyond
    the size of the labeled subset, for a batch size above 0 and below the
    length of the pool arrays, returns and adds exactly
    [acquisition_batch_size] new ids; the initial acquisition selects
    [initial_training_set_size] distinct ids when that many entries are
    valid; and starting from [initial_training_set_size = 0] with
    [acquisition_batch_size = 5] and [max_training_set_size = 20] on a pool
    with at least 20 valid entries, [main] executes exactly 4 rounds, at the
    sizes 0, 5, 10 and 15, and returns a labeled subset of 20 ids.  The
    condition on the scoring stage is met by the uniform method when
    jax.random.uniform meets its contract, and by the entropy and the margin
    methods when the model gives one row per pool entry whose softmax has at
    least two classes with finite, non-negative entries and whose
    log-softmax has no positive entry. *)
Theorem labeled_subset_growth {Opt Rng Key Image}
    (env : collaborators Opt Rng Key Image) (cfg : config) :
  (∀ st st', round env cfg st = Returned st' →
     subset_ids st ⊆ subset_ids st') ∧
  (growth_conditions env cfg →
   (∀ st,
      subset_ids st ⊆ list_to_set (pool_ids_of env) →
      size (subset_ids st) + cfg_acquisition_batch_size cfg
        ≤ count_valid (pool_masks_of env) →
      0 < cfg_acquisition_batch_size cfg →
      cfg_acquisition_batch_size cfg < length (pool_ids_of env) →
      ∃ st', round env cfg st = Returned st' ∧
        subset_ids st ⊆ subset_ids st' ∧
        size (subset_ids st') =
          size (subset_ids st) + cfg_acquisition_batch_size cfg) ∧
   (∀ rng0,
      cfg_initial_training_set_size cfg ≤ count_valid (pool_masks_of env) →
      cfg_initial_training_set_size cfg < length (pool_ids_of env) →
      ∃ evs rng' ids0,
        initial_training_set env cfg rng0 = (evs, Ok (rng', ids0)) ∧
        size (list_to_set ids0 : gset Z)
        = cfg_initial_training_set_size cfg) ∧
   (initial_training_set_size cfg = Some 0 →
    acquisition_batch_size cfg = Some 5 →
    max_training_set_size cfg = Some 20 →
    20 ≤ count_valid (pool_masks_of env) →
    5 < length (pool_ids_of env) →
    ∀ fuel, 5 ≤ fuel →
      ∃ st, main env cfg fuel = Some (Returned st) ∧
        training_sizes st = [0; 5; 10; 15] ∧
        size (subset_ids st) = 20)) ∧
  (acquisition_method cfg = "uniform" ∧
     uniform_contract (env_random_uniform env) ∨
   (acquisition_method cfg = "entropy" ∨ acquisition_method cfg = "margin") ∧
     pool_rows_scorable env →
   scoring_well_scored env cfg).
Proof.
  split; [apply round_keeps_ids|].
  split; [|apply scoring_conditions_well_scored].
  intros (Hargpartition & Huniform & Hinference & Hpool & Hfinetune
          & Hscoring).
  split_and!.
  - intros st Hsub Hcount Hpos Hlt.
    destruct (round_grows env cfg Hargpartition Hpool Hinference
                Hfinetune Hscoring st Hsub Hcount Hpos Hlt)
      as (st' & Hr & Hk & Hs & _).
    by exists st'.
  - intros rng0 Hcount Hlt.
    destruct (initial_training_set_size_ok env cfg Hargpartition Huniform
                Hinference Hpool rng0 Hcount Hlt)
      as (evs & rng' & ids0 & Hi & Hs & _).
    by eexists _, _, _.
  - intros Hinit Hbatch Hmax Hcount Hlt fuel Hfuel.
    assert (cfg_acquisition_batch_size cfg = 5) as Hk
      by (unfold cfg_acquisition_batch_size; by rewrite Hbatch).
    assert (cfg_max_training_set_size cfg = 20) as Hm
      by (unfold cfg_max_training_set_size; by rewrite Hmax).
    destruct (main_no_initial env cfg fuel Hinit) as (rng0 & rngs0 & ->).
    set (st0 := {| subset_ids := ∅; rng := rng0; ctl_rngs_loop := rngs0;
                   test_accuracies := []; training_sizes := [];
                   events := [] |}).
    assert (size (subset_ids st0) = 0) as Hs0 by apply size_empty.
    assert (subset_ids st0 ⊆ list_to_set (pool_ids_of env)) as Hsub0
      by apply empty_subseteq.
    assert (training_sizes st0 = []) as Ht0 by done.
    clearbody st0.
    pose proof (round_grows env cfg Hargpartition Hpool Hinference
                  Hfinetune Hscoring) as Hround.
    rewrite Hk in Hround.
    destruct (Hround st0) as (st1 & Hr1 & _ & Hs1 & Hsub1 & Ht1);
      [done|lia|lia|lia|].
    destruct (Hround st1) as (st2 & Hr2 & _ & Hs2 & Hsub2 & Ht2);
      [done|lia|lia|lia|].
    destruct (Hround st2) as (st3 & Hr3 & _ & Hs3 & Hsub3 & Ht3);
      [done|lia|lia|lia|].
    destruct (Hround st3) as (st4 & Hr4 & _ & Hs4 & Hsub4 & Ht4);
      [done|lia|lia|lia|].
    do 5 (destruct fuel as [|fuel]; [lia|]).
    rewrite (rounds_continue _ _ _ st0 st1) by (done || lia).
    rewrite (rounds_continue _ _ _ st1 st2) by (done || lia).
    rewrite (rounds_continue _ _ _ st2 st3) by (done || lia).
    rewrite (rounds_continue _ _ _ st3 st4) by (done || lia).
    rewrite rounds_stop by lia.
    exists st4. split_and!; [done| |lia].
    rewrite Ht4, Ht3, Ht2, Ht1, Ht0, Hs3, Hs2, Hs1, Hs0. done.
Qed.

(** *** A concrete run with the entropy method *)

Lemma demo_pool_arrays (opt : nat) :
  pool_ids_of (demo_env demo_pool)
  = ((λ i, Z.of_nat i) <$> seq 0 22) ++ [0; 0]%Z ∧
  pool_masks_of (demo_env demo_pool) = replicate 22 true ++ [false; false] ∧
  pool_outputs_of (demo_env demo_pool) opt false
  = replicate 24 [fzero; NInf].
Proof. by vm_compute. Qed.

Lemma demo_pool_well_formed :
  pool_well_formed (pool_ids_of (demo_env demo_pool))
    (pool_masks_of (demo_env demo_pool)).
Proof.
  destruct (demo_pool_arrays 0) as (-> & -> & _).
  split; [done|]. intros i x Hx Hm.
  do 24 (destruct i as [|i]; [by simplify_eq/=|]).
  done.
Qed.

Lemma demo_pool_inference_returns :
  pool_inference_returns (demo_env demo_pool).
Proof. intros opt pre_logits. by vm_compute. Qed.

Lemma demo_pool_rows_scorable : pool_rows_scorable (demo_env demo_pool).
Proof.
  intros opt. destruct (demo_pool_arrays opt) as (_ & -> & ->).
  split; [done|]. apply Forall_replicate. split_and!.
  - done.
  - repeat constructor; by eexists.
  - apply Forall_cons. split; [right; by eexists|].
    apply Forall_cons. split; [by left|]. constructor.
Qed.

Lemma demo_val_accuracy (o : nat) :
  fgeb (get_accuracy (env_evaluation_fn (demo_env demo_pool)) o
          (env_val_ds (demo_env demo_pool))) (Fin (-1)) = true.
Proof.
  unfold get_accuracy, fgeb, demo_eval_batches. simpl.
  apply Qle_bool_iff. unfold Qle. simpl. lia.
Qed.

Lemma demo_finetune_returns (method : string) (initial max_size batch : nat) :
  finetune_returns (demo_env demo_pool)
    (demo_config method initial max_size batch).
Proof.
  intros st Hpos Hsub. apply finetune_stage_returns.
  - assert (size (subset_ids st) ≤ 24) as Hle.
    { apply subseteq_size in Hsub.
      pose proof (size_list_to_set_le (pool_ids_of (demo_env demo_pool)))
        as Hpool.
      assert (length (pool_ids_of (demo_env demo_pool)) = 24) as Hlen.
      { by destruct (demo_pool_arrays 0) as (-> & _). }
      lia. }
    assert (forallb (λ n, is_ok (num_repeats 10 n 4)) (seq 1 24) = true)
      as Hall by (by vm_compute).
    rewrite forallb_forall in Hall. apply Hall.
    apply in_seq. lia.
  - simpl. lia.
  - intros subset repeats. simpl. lia.
  - apply demo_val_accuracy.
Qed.

Lemma labeled_subset_growth_witness :
  ∃ st,
    main (demo_env demo_pool) (demo_config "entropy" 0 20 5) 10
    = Some (Returned st) ∧
    training_sizes st = [0; 5; 10; 15] ∧
    size (subset_ids st) = 20.
Proof.
  destruct (labeled_subset_growth (demo_env demo_pool)
              (demo_config "entropy" 0 20 5)) as (_ & Hgrowth & Hscoring).
  destruct Hgrowth as (_ & _ & Hrun).
  { split_and!.
    - apply argpartition_ref_contract.
    - apply demo_uniform_contract.
    - apply demo_pool_inference_returns.
    - apply demo_pool_well_formed.
    - apply demo_finetune_returns.
    - apply Hscoring. right. split; [by left|].
      apply demo_pool_rows_scorable. }
  apply Hrun; [reflexivity|reflexivity|reflexivity| | |lia].
  - vm_compute. lia.
  - vm_compute. lia.
Defined.
